(** * GoJS extensions: a shallow embedding of the extension classes

    The extension classes of the repository (DimensioningLink, ZoomSlider,
    BalloonLink, ArrangingLayout, DoubleTreeLayout, SpiralLayout) are
    embedded as functions over explicit state.  JavaScript numbers are IEEE
    754 binary64 values, which is what the primitive [float] type is, so
    [NaN], signed zeros and infinities behave as they do in the source.
    Calls into the host diagramming library whose code is not part of the
    repository are either recorded in a trace of host calls or taken as
    Section variables. *)

From Stdlib Require Import Floats ZArith List String Bool Arith Lia.
Import ListNotations.
Open Scope string_scope.
Open Scope list_scope.

#[local] Set Warnings "-inexact-float".

(* ================================================================== *)
(** * The language: numbers, values, exceptions *)

Module JS.

Definition number := float.

(** [a === b] on two numbers. *)
Definition strict_eq (a b : number) : bool := (a =? b)%float.

(** [a !== b] on two numbers. *)
Definition strict_neq (a b : number) : bool := negb (strict_eq a b).

Definition isNaN (a : number) : bool := is_nan a.

Definition isFinite (a : number) : bool :=
  negb (is_nan a) && negb (is_infinity a).

(** [Math.max(a, b)]: NaN when either argument is NaN; of two zeros the
    positive one. *)
Definition Math_max (a b : number) : number :=
  if is_nan a || is_nan b then nan
  else if (a <? b)%float then b
  else if (b <? a)%float then a
  else if get_sign a then b else a.

(** [Math.min(a, b)]: NaN when either argument is NaN; of two zeros the
    negative one. *)
Definition Math_min (a b : number) : number :=
  if is_nan a || is_nan b then nan
  else if (a <? b)%float then a
  else if (b <? a)%float then b
  else if get_sign a then a else b.

Definition Math_abs (a : number) : number := abs a.

(** The result of running a method: a normal completion or a thrown
    [Error] with its message (the text that the source concatenates with
    the offending value is kept as the message's fixed part). *)
Inductive completion (A : Type) : Type :=
| Return (a : A)
| Throw (msg : string).
Arguments Return {A} a.
Arguments Throw {A} msg.

(** A method over a receiver of type [S]: the completion together with the
    receiver's state when the method returned or threw. *)
Definition method (S A : Type) : Type := S -> completion A * S.

Definition ret {S A} (a : A) : method S A := fun s => (Return a, s).

Definition throw {S A} (msg : string) : method S A := fun s => (Throw msg, s).

Definition bind {S A B} (m : method S A) (k : A -> method S B) : method S B :=
  fun s =>
    match m s with
    | (Return a, s') => k a s'
    | (Throw e, s') => (Throw e, s')
    end.

Definition get {S} : method S S := fun s => (Return s, s).

Definition modify {S} (f : S -> S) : method S unit := fun s => (Return tt, f s).

Definition threw {A} (c : completion A) : bool :=
  match c with Throw _ => true | Return _ => false end.

End JS.

Import JS.

Notation "x <- m ;; k" := (bind m (fun x => k))
  (at level 61, m at next level, right associativity).
Notation "m ;;; k" := (bind m (fun _ => k))
  (at level 61, right associativity).

(* ================================================================== *)
(** * Comparison facts on IEEE doubles *)

Module FloatFacts.

Lemma SFcompare_refl (p : spec_float) :
  p <> S754_nan -> SFcompare p p = Some Eq.
Proof.
  destruct p as [s | s | | s m e]; simpl; intros H.
  - reflexivity.
  - destruct s; reflexivity.
  - congruence.
  - destruct s; rewrite Z.compare_refl, Pos.compare_cont_refl; reflexivity.
Qed.

Lemma is_nan_Prim2SF (x : float) :
  is_nan x = true <-> Prim2SF x = S754_nan.
Proof.
  unfold is_nan. split.
  - rewrite FloatAxioms.eqb_spec. unfold SFeqb. intros H.
    destruct (Prim2SF x) eqn:E; try reflexivity;
      rewrite SFcompare_refl in H by congruence; discriminate H.
  - rewrite FloatAxioms.eqb_spec. unfold SFeqb. intros ->. reflexivity.
Qed.

Lemma not_nan_Prim2SF (x : float) :
  is_nan x = false <-> Prim2SF x <> S754_nan.
Proof.
  pose proof (is_nan_Prim2SF x) as [H1 H2].
  destruct (is_nan x); split; intros H; try congruence.
  - exfalso. apply H, H1. reflexivity.
  - intros E. apply H2 in E. discriminate E.
Qed.

Lemma leb_refl (x : float) : is_nan x = false -> (x <=? x)%float = true.
Proof.
  intros H. rewrite FloatAxioms.leb_spec. unfold SFleb.
  rewrite SFcompare_refl by (apply not_nan_Prim2SF; exact H). reflexivity.
Qed.

Lemma ltb_leb (x y : float) : (x <? y)%float = true -> (x <=? y)%float = true.
Proof.
  rewrite FloatAxioms.ltb_spec, FloatAxioms.leb_spec. unfold SFltb, SFleb.
  destruct (SFcompare (Prim2SF x) (Prim2SF y)) as [[ | | ] | ]; congruence.
Qed.

Lemma SFcompare_Some_l (p q : spec_float) c :
  SFcompare p q = Some c -> p <> S754_nan.
Proof. destruct p; simpl; congruence. Qed.

Lemma SFcompare_Some_r (p q : spec_float) c :
  SFcompare p q = Some c -> q <> S754_nan.
Proof. destruct p, q; simpl; congruence. Qed.

Lemma SFcompare_total (p q : spec_float) :
  p <> S754_nan -> q <> S754_nan -> exists c, SFcompare p q = Some c.
Proof. destruct p, q; simpl; intros; try congruence; eexists; reflexivity. Qed.

Lemma leb_not_nan_l (x y : float) : (x <=? y)%float = true -> is_nan x = false.
Proof.
  rewrite FloatAxioms.leb_spec. unfold SFleb. intros H. apply not_nan_Prim2SF.
  destruct (SFcompare (Prim2SF x) (Prim2SF y)) eqn:E; [ | discriminate H].
  eapply SFcompare_Some_l; exact E.
Qed.

Lemma leb_not_nan_r (x y : float) : (x <=? y)%float = true -> is_nan y = false.
Proof.
  rewrite FloatAxioms.leb_spec. unfold SFleb. intros H. apply not_nan_Prim2SF.
  destruct (SFcompare (Prim2SF x) (Prim2SF y)) eqn:E; [ | discriminate H].
  eapply SFcompare_Some_r; exact E.
Qed.

(** Two non-NaN numbers neither of which is below the other compare equal,
    so each is at most the other. *)
Lemma not_ltb_leb (x y : float) :
  is_nan x = false -> is_nan y = false ->
  (y <? x)%float = false -> (x <=? y)%float = true.
Proof.
  intros Hx Hy. rewrite FloatAxioms.ltb_spec, FloatAxioms.leb_spec. unfold SFltb, SFleb.
  apply not_nan_Prim2SF in Hx. apply not_nan_Prim2SF in Hy.
  destruct (SFcompare_total _ _ Hx Hy) as [c Hc].
  assert (Hsym : SFcompare (Prim2SF y) (Prim2SF x) = Some (CompOpp c)).
  { revert Hc. generalize (Prim2SF x) (Prim2SF y). clear.
    intros p q. destruct p as [s | s | | s m e], q as [s' | s' | | s' m' e'];
      simpl; intros H; inversion H; subst; clear H;
      try (destruct s; reflexivity); try (destruct s'; reflexivity);
      try (destruct s, s'; reflexivity).
    assert (Hm : Pos.compare_cont Eq m' m = CompOpp (Pos.compare_cont Eq m m'))
      by (symmetry; apply (Pos.compare_cont_antisym m m' Eq)).
    rewrite (Z.compare_antisym e e'), Hm.
    destruct s, s'; simpl; try reflexivity;
      destruct (e ?= e')%Z; simpl; try reflexivity;
      destruct (Pos.compare_cont Eq m m'); reflexivity. }
  rewrite Hsym, Hc. destruct c; simpl; congruence.
Qed.

(** Comparing equal is identity, except between the two zeros. *)
Lemma SFcompare_Eq (p q : spec_float) :
  SFcompare p q = Some Eq ->
  p = q \/ exists s s', p = S754_zero s /\ q = S754_zero s'.
Proof.
  destruct p as [s | s | | s m e], q as [s' | s' | | s' m' e']; simpl;
    intros H; try discriminate H.
  - right. eauto.
  - destruct s'; discriminate H.
  - destruct s'; discriminate H.
  - destruct s; discriminate H.
  - left. destruct s, s'; try discriminate H; reflexivity.
  - destruct s; discriminate H.
  - destruct s; discriminate H.
  - destruct s'; discriminate H.
  - left. destruct s, s'; try discriminate H;
      destruct (e ?= e')%Z eqn:Ee; try discriminate H;
      apply Z.compare_eq in Ee; subst e';
      destruct (Pos.compare_cont Eq m m') eqn:Em; try discriminate H;
      apply Pos.compare_eq in Em; subst m'; reflexivity.
Qed.

Lemma Prim2SF_inj (x y : float) : Prim2SF x = Prim2SF y -> x = y.
Proof.
  intros H. rewrite <- (SF2Prim_Prim2SF x), <- (SF2Prim_Prim2SF y), H.
  reflexivity.
Qed.

Lemma is_nan_eq (x : float) : is_nan x = true -> x = nan.
Proof.
  intros H. apply is_nan_Prim2SF in H. apply Prim2SF_inj. rewrite H.
  reflexivity.
Qed.

(** [x === 0] holds of the two zeros only. *)
Lemma eqb_zero (x : float) : (x =? 0)%float = true -> x = 0%float \/ x = neg_zero.
Proof.
  rewrite FloatAxioms.eqb_spec. unfold SFeqb. intros H.
  destruct (SFcompare (Prim2SF x) (Prim2SF 0)) as [[ | | ] | ] eqn:E;
    try discriminate H.
  apply SFcompare_Eq in E. destruct E as [E | (s & s' & E & _)].
  - left. apply Prim2SF_inj, E.
  - destruct s; [right | left]; apply Prim2SF_inj; rewrite E; reflexivity.
Qed.

(** [x === c] for a non-zero [c] holds of [c] only. *)
Lemma eqb_nonzero (x c : float) :
  (c =? 0)%float = false -> (x =? c)%float = true -> x = c.
Proof.
  intros Hc. rewrite FloatAxioms.eqb_spec. unfold SFeqb. intros H.
  destruct (SFcompare (Prim2SF x) (Prim2SF c)) as [[ | | ] | ] eqn:E;
    try discriminate H.
  apply SFcompare_Eq in E. destruct E as [E | (s & s' & _ & E)].
  - apply Prim2SF_inj, E.
  - rewrite FloatAxioms.eqb_spec, E in Hc. discriminate Hc.
Qed.

(** [Math.max] and [Math.min] of two numbers, neither NaN. *)
Lemma Math_max_cases (a b : float) :
  is_nan a = false -> is_nan b = false ->
  Math_max a b = a \/ Math_max a b = b.
Proof.
  intros Ha Hb. unfold Math_max. rewrite Ha, Hb. simpl.
  destruct (a <? b)%float, (b <? a)%float, (get_sign a); auto.
Qed.

Lemma Math_min_cases (a b : float) :
  is_nan a = false -> is_nan b = false ->
  Math_min a b = a \/ Math_min a b = b.
Proof.
  intros Ha Hb. unfold Math_min. rewrite Ha, Hb. simpl.
  destruct (a <? b)%float, (b <? a)%float, (get_sign a); auto.
Qed.

Lemma Math_max_ge_l (a b : float) :
  is_nan a = false -> is_nan b = false -> (a <=? Math_max a b)%float = true.
Proof.
  intros Ha Hb. unfold Math_max. rewrite Ha, Hb. simpl.
  destruct (a <? b)%float eqn:Eab; [apply ltb_leb, Eab | ].
  destruct (b <? a)%float eqn:Eba; [apply leb_refl, Ha | ].
  destruct (get_sign a); [apply not_ltb_leb; assumption | apply leb_refl, Ha].
Qed.

Lemma Math_min_le_r (a b : float) :
  is_nan a = false -> is_nan b = false -> (Math_min a b <=? b)%float = true.
Proof.
  intros Ha Hb. unfold Math_min. rewrite Ha, Hb. simpl.
  destruct (a <? b)%float eqn:Eab; [apply ltb_leb, Eab | ].
  destruct (b <? a)%float eqn:Eba; [apply leb_refl, Hb | ].
  destruct (get_sign a); [apply not_ltb_leb; assumption | apply leb_refl, Hb].
Qed.

Lemma Math_min_ge (c a b : float) :
  (c <=? a)%float = true -> (c <=? b)%float = true ->
  (c <=? Math_min a b)%float = true.
Proof.
  intros Ha Hb.
  destruct (Math_min_cases a b (leb_not_nan_r _ _ Ha) (leb_not_nan_r _ _ Hb))
    as [-> | ->]; assumption.
Qed.

End FloatFacts.

(* ================================================================== *)
(** * Geometry classes of the host library (data only) *)

Module Geom.

Local Open Scope float_scope.

Record Point : Type := mkPoint { px : number; py : number }.

Record Rect : Type := mkRect {
  rx : number; ry : number; rwidth : number; rheight : number }.

Record Spot : Type := mkSpot {
  sx : number; sy : number; soffsetX : number; soffsetY : number }.

Definition Rect_left (r : Rect) : number := rx r.
Definition Rect_top (r : Rect) : number := ry r.
Definition Rect_right (r : Rect) : number := (rx r + rwidth r)%float.
Definition Rect_bottom (r : Rect) : number := (ry r + rheight r)%float.
Definition Rect_centerX (r : Rect) : number := (rx r + rwidth r / 2)%float.
Definition Rect_centerY (r : Rect) : number := (ry r + rheight r / 2)%float.
Definition Rect_center (r : Rect) : Point :=
  mkPoint (Rect_centerX r) (Rect_centerY r).

End Geom.

Import Geom.

(** Values that a caller can pass to a property setter. *)
Inductive value : Type :=
| VUndefined
| VNull
| VBool (b : bool)
| VNumber (n : number)
| VString (s : string)
| VSpot (s : Spot)          (* an instance of go.Spot *)
| VObject (id : nat).       (* any other object, by identity *)

(** [typeof v === 'number'] *)
Definition typeof_number (v : value) : bool :=
  match v with VNumber _ => true | _ => false end.

(** [v instanceof go.Spot] *)
Definition instanceof_Spot (v : value) : bool :=
  match v with VSpot _ => true | _ => false end.

(** [old !== val] for a stored number and an assigned value. *)
Definition differs_number (old : number) (val : value) : bool :=
  match val with
  | VNumber n => strict_neq old n
  | _ => true
  end.

(* ================================================================== *)
(** * extensions/DimensioningLink.js *)

Module DimensioningLink.

Local Open Scope float_scope.

(** Calls that the class makes into its base class [go.Link]. *)
Inductive HostCall : Type :=
| RaiseChangedEvent (prop : string) (old new : value)
| InvalidateRoute
| UpdateTargetBindings.

(** An instance: the four private fields, the inherited ends of the link,
    the route, and the trace of calls into the base class.  The setter of
    [direction] tests its argument with the global [isNaN], which
    converts it to a number first, and stores the argument itself: a
    stored direction can be a value that is not a number. *)
Record t : Type := mk {
  fromNode : option nat;
  fromPort : option nat;
  toNode : option nat;
  toPort : option nat;
  _direction : value;
  _extension : number;
  _inset : number;
  _gap : number;
  points : list Point;
  calls : list HostCall }.

Definition with_direction (v : value) (l : t) : t :=
  mk (fromNode l) (fromPort l) (toNode l) (toPort l)
     v (_extension l) (_inset l) (_gap l) (points l) (calls l).

Definition with_points (ps : list Point) (l : t) : t :=
  mk (fromNode l) (fromPort l) (toNode l) (toPort l)
     (_direction l) (_extension l) (_inset l) (_gap l) ps (calls l).

Definition call (c : HostCall) (l : t) : t :=
  mk (fromNode l) (fromPort l) (toNode l) (toPort l)
     (_direction l) (_extension l) (_inset l) (_gap l) (points l)
     (calls l ++ [c]).

(** The values of the constructor. *)
Definition new (fromNode fromPort toNode toPort : option nat) : t :=
  mk fromNode fromPort toNode toPort (VNumber 0) 30 10 10 [] [].

Definition clearPoints : method t unit := modify (with_points []).

Definition addPointAt (x y : number) : method t unit :=
  modify (fun l => with_points (points l ++ [mkPoint x y]) l).

(** [val === n] for a value and a number. *)
Definition strict_eq_number (val : value) (n : number) : bool :=
  match val with
  | VNumber m => strict_eq m n
  | _ => false
  end.

Section ComputePoints.

(** The conversion of a string and of an object to a number is the
    language's (for an object it runs the object's own [valueOf] or
    [toString], taken here to give the same number every time); the class
    does not determine it. *)
Variable StringToNumber : string -> number.
Variable ObjectToNumber : value -> number.

(** [ToNumber(val)] *)
Definition ToNumber (val : value) : number :=
  match val with
  | VUndefined => nan
  | VNull => 0
  | VBool b => if b then 1 else 0
  | VNumber n => n
  | VString s => StringToNumber s
  | VSpot _ | VObject _ => ObjectToNumber val
  end.

(** [isNaN(val)], the global function *)
Definition global_isNaN (val : value) : bool := isNaN (ToNumber val).

(** [set direction(val)] *)
Definition set_direction (val : value) : method t unit :=
  l <- get ;;
  let old := _direction l in
  if global_isNaN val || strict_eq_number val 0 || strict_eq_number val 90
     || strict_eq_number val 180 || strict_eq_number val 270
  then
    modify (with_direction val) ;;;
    modify (call (RaiseChangedEvent "direction" old val)) ;;;
    modify (call InvalidateRoute)
  else
    throw "DimensioningLink: invalid new direction: ".

(** Methods of [go.Link] and [go.Point] that the route computation reads. *)
Variable computeSpot : t -> bool -> Spot.
Variable getLinkPoint :
  t -> nat -> nat -> Spot -> bool -> bool -> nat -> nat -> Point.
Variable Point_isReal : Point -> bool.
Variable directionPoint : Point -> Point -> number.
Variable rotate : Point -> number -> Point.

(** [computePoints()] *)
Definition computePoints : method t bool :=
  l <- get ;;
  match fromNode l with None => ret false | Some fromnode =>
  match fromPort l with None => ret false | Some fromport =>
  let fromspot := computeSpot l true in
  match toNode l with None => ret false | Some tonode =>
  match toPort l with None => ret false | Some toport =>
  let tospot := computeSpot l false in
  let frompoint :=
    getLinkPoint l fromnode fromport fromspot true true tonode toport in
  if negb (Point_isReal frompoint) then ret false else
  let topoint :=
    getLinkPoint l tonode toport tospot false true fromnode fromport in
  if negb (Point_isReal topoint) then ret false else
  clearPoints ;;;
  let ang := _direction l in
  (if global_isNaN ang then
     let ang := directionPoint frompoint topoint in
     let p := rotate (mkPoint (_extension l) 0) (ang + 90) in
     let q := rotate (mkPoint (_extension l - _inset l) 0) (ang + 90) in
     let g := rotate (mkPoint (_gap l) 0) (ang + 90) in
     addPointAt (px frompoint + px g) (py frompoint + py g) ;;;
     addPointAt (px frompoint + px p) (py frompoint + py p) ;;;
     addPointAt (px frompoint + px q) (py frompoint + py q) ;;;
     addPointAt (px topoint + px q) (py topoint + py q) ;;;
     addPointAt (px topoint + px p) (py topoint + py p) ;;;
     addPointAt (px topoint + px g) (py topoint + py g)
   else if strict_eq_number ang 0 || strict_eq_number ang 180 then
     let '(r, s, t0, t1) :=
       if strict_eq_number ang 0 then
         let r := Math_min (py frompoint) (py topoint) - _extension l in
         (r, r + _inset l, py frompoint - _gap l, py topoint - _gap l)
       else
         let r := Math_max (py frompoint) (py topoint) + _extension l in
         (r, r - _inset l, py frompoint + _gap l, py topoint + _gap l) in
     addPointAt (px frompoint) t0 ;;;
     addPointAt (px frompoint + 0.01) r ;;;
     addPointAt (px frompoint) s ;;;
     addPointAt (px topoint) s ;;;
     addPointAt (px topoint - 0.01) r ;;;
     addPointAt (px topoint) t1
   else if strict_eq_number ang 90 || strict_eq_number ang 270 then
     let '(r, s, t0, t1) :=
       if strict_eq_number ang 90 then
         let r := Math_max (px frompoint) (px topoint) + _extension l in
         (r, r - _inset l, px frompoint + _gap l, px topoint + _gap l)
       else
         let r := Math_min (px frompoint) (px topoint) - _extension l in
         (r, r + _inset l, px frompoint - _gap l, px topoint - _gap l) in
     addPointAt t0 (py frompoint) ;;;
     addPointAt r (py frompoint + 0.01) ;;;
     addPointAt s (py frompoint) ;;;
     addPointAt s (py topoint) ;;;
     addPointAt r (py topoint - 0.01) ;;;
     addPointAt t1 (py topoint)
   else ret tt) ;;;
  modify (call UpdateTargetBindings) ;;;
  ret true
  end end end end.

(** The directions that the documentation of [direction] allows: NaN, 0,
    90, 180 or 270.  The two zeros of IEEE arithmetic are both the number 0
    ([-0 === 0] holds). *)
Definition allowed_direction (v : number) : Prop :=
  v = nan \/ v = 0 \/ v = neg_zero \/ v = 90 \/ v = 180 \/ v = 270.

Lemma allowed_direction_guard (v : number) :
  allowed_direction v <->
  global_isNaN (VNumber v) || strict_eq_number (VNumber v) 0
    || strict_eq_number (VNumber v) 90 || strict_eq_number (VNumber v) 180
    || strict_eq_number (VNumber v) 270 = true.
Proof.
  unfold allowed_direction, global_isNaN, strict_eq_number, ToNumber, isNaN,
    strict_eq. split.
  - intros [H | [H | [H | [H | [H | H]]]]]; subst v; reflexivity.
  - intros H. repeat (apply orb_true_iff in H; destruct H as [H | H]).
    + left. apply FloatFacts.is_nan_eq, H.
    + apply FloatFacts.eqb_zero in H. tauto.
    + apply FloatFacts.eqb_nonzero in H; [tauto | reflexivity].
    + apply FloatFacts.eqb_nonzero in H; [tauto | reflexivity].
    + apply FloatFacts.eqb_nonzero in H; [tauto | reflexivity].
Qed.

(** C2: assigning the number [v] to [direction] succeeds exactly when [v]
    is NaN, 0, 90, 180 or 270.  Then the stored direction is [v], the
    calls made are a 'direction' Changed event with the old and the new
    value followed by the invalidation of the route, and nothing else of
    the link has changed.  For every other number the setter throws and
    the link is left as it was. *)
Theorem set_direction_spec (v : number) (l : t) :
  (allowed_direction v ->
   let r := set_direction (VNumber v) l in
   fst r = Return tt
   /\ _direction (snd r) = VNumber v
   /\ calls (snd r) =
        calls l ++ [RaiseChangedEvent "direction" (_direction l) (VNumber v);
                    InvalidateRoute]
   /\ fromNode (snd r) = fromNode l /\ fromPort (snd r) = fromPort l
   /\ toNode (snd r) = toNode l /\ toPort (snd r) = toPort l
   /\ _extension (snd r) = _extension l /\ _inset (snd r) = _inset l
   /\ _gap (snd r) = _gap l /\ points (snd r) = points l)
  /\ (~ allowed_direction v ->
      exists msg, set_direction (VNumber v) l = (Throw msg, l)).
Proof.
  unfold set_direction, bind, get, modify, throw. split; intros H.
  - apply allowed_direction_guard in H. rewrite H.
    cbn [fst snd call with_direction _direction calls fromNode fromPort
         toNode toPort _extension _inset _gap points].
    rewrite <- app_assoc. repeat split.
  - destruct (global_isNaN (VNumber v) || strict_eq_number (VNumber v) 0
              || strict_eq_number (VNumber v) 90
              || strict_eq_number (VNumber v) 180
              || strict_eq_number (VNumber v) 270) eqn:E.
    + exfalso. apply H, allowed_direction_guard, E.
    + eexists. reflexivity.
Qed.

(** The ends of the link when all four are present. *)
Definition ends (l : t) : option (nat * nat * nat * nat) :=
  match fromNode l, fromPort l, toNode l, toPort l with
  | Some fn, Some fp, Some tn, Some tp => Some (fn, fp, tn, tp)
  | _, _, _, _ => None
  end.

Definition frompoint_of (l : t) (e : nat * nat * nat * nat) : Point :=
  let '(fn, fp, tn, tp) := e in
  getLinkPoint l fn fp (computeSpot l true) true true tn tp.

Definition topoint_of (l : t) (e : nat * nat * nat * nat) : Point :=
  let '(fn, fp, tn, tp) := e in
  getLinkPoint l tn tp (computeSpot l false) false true fn fp.

(** C4: [computePoints] returns false and leaves the link untouched when
    an end of the link is missing or an end point is not real.
    Otherwise, when the direction is one of the numbers NaN, 0, 90, 180
    and 270, it returns true, and then the route consists of exactly six
    points, whatever the route was before; the one call made is
    [updateTargetBindings], and the ends and the private fields of the
    link are as before. *)
Theorem computePoints_spec (l : t) :
  (ends l = None -> computePoints l = (Return false, l))
  /\ (forall e, ends l = Some e ->
        Point_isReal (frompoint_of l e) = false \/
        Point_isReal (topoint_of l e) = false ->
        computePoints l = (Return false, l))
  /\ (forall e d, ends l = Some e ->
        Point_isReal (frompoint_of l e) = true ->
        Point_isReal (topoint_of l e) = true ->
        _direction l = VNumber d -> allowed_direction d ->
        let r := computePoints l in
        fst r = Return true
        /\ (exists p1 p2 p3 p4 p5 p6,
              points (snd r) = [p1; p2; p3; p4; p5; p6])
        /\ calls (snd r) = calls l ++ [UpdateTargetBindings]
        /\ fromNode (snd r) = fromNode l /\ fromPort (snd r) = fromPort l
        /\ toNode (snd r) = toNode l /\ toPort (snd r) = toPort l
        /\ _direction (snd r) = _direction l
        /\ _extension (snd r) = _extension l /\ _inset (snd r) = _inset l
        /\ _gap (snd r) = _gap l).
Proof.
  unfold ends, computePoints, bind, get, ret.
  destruct (fromNode l) as [fn | ] eqn:Efn;
    [ | repeat split; intros; try discriminate; reflexivity].
  destruct (fromPort l) as [fp | ] eqn:Efp;
    [ | repeat split; intros; try discriminate; reflexivity].
  destruct (toNode l) as [tn | ] eqn:Etn;
    [ | repeat split; intros; try discriminate; reflexivity].
  destruct (toPort l) as [tp | ] eqn:Etp;
    [ | repeat split; intros; try discriminate; reflexivity].
  split; [intros H; discriminate H | ].
  split.
  - intros e He; inversion He; subst e; clear He.
    unfold frompoint_of, topoint_of. intros [H | H].
    + rewrite H. reflexivity.
    + destruct (Point_isReal (getLinkPoint l fn fp _ _ _ _ _));
        simpl; [rewrite H | ]; reflexivity.
  - intros e d He; inversion He; subst e; clear He.
    unfold frompoint_of, topoint_of. intros Hf Ht Hv Hd.
    rewrite Hf, Ht, Hv. cbn [negb].
    unfold allowed_direction in Hd.
    destruct Hd as [H | [H | [H | [H | [H | H]]]]]; rewrite H;
      cbn; rewrite ?Hv, ?H;
      (split; [reflexivity | ]);
      (split; [do 6 eexists; reflexivity | ]);
      (split; [reflexivity | ]);
      repeat (split; [assumption || reflexivity | ]);
      assumption || reflexivity.
Qed.

End ComputePoints.

(** A link between ports 1 and 2 of nodes 10 and 20, as constructed. *)
Definition sample_link : t := new (Some 10%nat) (Some 1%nat) (Some 20%nat) (Some 2%nat).

(** Stand-ins for the conversions of the language: every string and
    every object converts to NaN. *)
Definition sample_StringToNumber (_ : string) : number := nan.
Definition sample_ObjectToNumber (_ : value) : number := nan.

Lemma set_direction_witness :
  (_direction
     (snd (set_direction sample_StringToNumber sample_ObjectToNumber
             (VNumber 90) sample_link)) = VNumber 90
   /\ calls
        (snd (set_direction sample_StringToNumber sample_ObjectToNumber
                (VNumber 90) sample_link))
      = [RaiseChangedEvent "direction" (VNumber 0) (VNumber 90);
         InvalidateRoute])
  /\ exists msg,
       set_direction sample_StringToNumber sample_ObjectToNumber
         (VNumber 45) sample_link = (Throw msg, sample_link).
Proof.
  split.
  - destruct (proj1 (set_direction_spec sample_StringToNumber
                       sample_ObjectToNumber 90 sample_link))
      as (_ & D & C & _).
    + right. right. right. left. reflexivity.
    + split; [exact D | exact C].
  - apply (proj2 (set_direction_spec sample_StringToNumber
                    sample_ObjectToNumber 45 sample_link)).
    intros H.
    apply (allowed_direction_guard sample_StringToNumber
             sample_ObjectToNumber) in H.
    vm_compute in H. discriminate H.
Defined.

(** Stand-ins for the host methods, enough to run the route computation:
    the link point of node [n] is [(n, n)]. *)
Definition sample_getLinkPoint
  (_ : t) (n _ : nat) (_ : Spot) (_ _ : bool) (_ _ : nat) : Point :=
  mkPoint (of_uint63 (Uint63.of_nat n)) (of_uint63 (Uint63.of_nat n)).

Definition sample_isReal (p : Point) : bool :=
  isFinite (px p) && isFinite (py p).

(** The sample link with a route of two points left from before. *)
Definition sample_routed : t :=
  with_points [mkPoint 1 2; mkPoint 3 4] sample_link.

Lemma computePoints_witness :
  fst (computePoints sample_StringToNumber sample_ObjectToNumber
         (fun _ _ => mkSpot 0 0 0 0) sample_getLinkPoint
         sample_isReal (fun _ _ => 0) (fun p _ => p) sample_routed)
    = Return true
  /\ exists p1 p2 p3 p4 p5 p6,
       points
         (snd (computePoints sample_StringToNumber sample_ObjectToNumber
                 (fun _ _ => mkSpot 0 0 0 0) sample_getLinkPoint
                 sample_isReal (fun _ _ => 0) (fun p _ => p) sample_routed))
       = [p1; p2; p3; p4; p5; p6].
Proof.
  destruct (proj2 (proj2 (computePoints_spec sample_StringToNumber
                            sample_ObjectToNumber
                            (fun _ _ => mkSpot 0 0 0 0)
                            sample_getLinkPoint sample_isReal
                            (fun _ _ => 0) (fun p _ => p) sample_routed))
              (10, 1, 20, 2)%nat 0 eq_refl eq_refl eq_refl eq_refl
              (or_intror (or_introl eq_refl)))
    as (R & P & _).
  split; [exact R | exact P].
Defined.

End DimensioningLink.

(* ================================================================== *)
(** * extensionsJSM/ZoomSlider.js *)

Module ZoomSlider.

Local Open Scope float_scope.

(** A DOM element, by identity. *)
Definition Elem := nat.

(** The text assigned to a style property: the source builds it from a
    number and a unit, which is kept apart here. *)
Inductive CssValue : Type :=
| Px (n : number)              (* n + 'px' *)
| PxPx (a b : number)          (* a + 'px ' + b + 'px' *)
| Css (s : string)             (* a literal *)
| NumberString (n : number).   (* n.toString() *)

(** The writes that the slider makes to the page. *)
Inductive DomWrite : Type :=
| SetStyle (e : Elem) (prop : string) (v : CssValue)
| InsertFirst (parent child : Elem)   (* parent.insertBefore(child, parent.firstChild) *)
| AppendChild (parent child : Elem).

(** What [realign] reads from the page. *)
Record Page : Type := mkPage {
  parentElement : option Elem;   (* of the diagram's div *)
  diagramTop : number;           (* the div's getBoundingClientRect() *)
  diagramLeft : number;
  parentTop : number;            (* the parent's getBoundingClientRect() *)
  parentLeft : number;
  clientWidth : number;
  clientHeight : number }.

(** The stored fields of a ZoomSlider. *)
Record t : Type := mk {
  _size : number;
  _buttonSize : number;
  _alignment : Spot;
  _alignmentFocus : Spot;
  _orientation : string;
  _opacity : number;
  _diagram : nat;
  _initialScale : number;
  _diagramDiv : option Elem;
  _sliderDiv : option Elem;
  _zoomSliderOut : option Elem;
  _zoomSliderIn : option Elem;
  _zoomSliderRange : option Elem;
  _zoomSliderRangeCtn : option Elem }.

(** A slider on its page: the object, the page, and the writes made. *)
Record World : Type := mkWorld {
  this : t;
  page : Page;
  dom : list DomWrite }.

Definition with_size (v : number) (z : t) : t :=
  mk v (_buttonSize z) (_alignment z) (_alignmentFocus z) (_orientation z)
     (_opacity z) (_diagram z) (_initialScale z) (_diagramDiv z) (_sliderDiv z)
     (_zoomSliderOut z) (_zoomSliderIn z) (_zoomSliderRange z)
     (_zoomSliderRangeCtn z).

Definition with_buttonSize (v : number) (z : t) : t :=
  mk (_size z) v (_alignment z) (_alignmentFocus z) (_orientation z)
     (_opacity z) (_diagram z) (_initialScale z) (_diagramDiv z) (_sliderDiv z)
     (_zoomSliderOut z) (_zoomSliderIn z) (_zoomSliderRange z)
     (_zoomSliderRangeCtn z).

Definition with_alignment (v : Spot) (z : t) : t :=
  mk (_size z) (_buttonSize z) v (_alignmentFocus z) (_orientation z)
     (_opacity z) (_diagram z) (_initialScale z) (_diagramDiv z) (_sliderDiv z)
     (_zoomSliderOut z) (_zoomSliderIn z) (_zoomSliderRange z)
     (_zoomSliderRangeCtn z).

Definition with_alignmentFocus (v : Spot) (z : t) : t :=
  mk (_size z) (_buttonSize z) (_alignment z) v (_orientation z)
     (_opacity z) (_diagram z) (_initialScale z) (_diagramDiv z) (_sliderDiv z)
     (_zoomSliderOut z) (_zoomSliderIn z) (_zoomSliderRange z)
     (_zoomSliderRangeCtn z).

Definition with_orientation (v : string) (z : t) : t :=
  mk (_size z) (_buttonSize z) (_alignment z) (_alignmentFocus z) v
     (_opacity z) (_diagram z) (_initialScale z) (_diagramDiv z) (_sliderDiv z)
     (_zoomSliderOut z) (_zoomSliderIn z) (_zoomSliderRange z)
     (_zoomSliderRangeCtn z).

Definition with_opacity (v : number) (z : t) : t :=
  mk (_size z) (_buttonSize z) (_alignment z) (_alignmentFocus z)
     (_orientation z) v (_diagram z) (_initialScale z) (_diagramDiv z)
     (_sliderDiv z) (_zoomSliderOut z) (_zoomSliderIn z) (_zoomSliderRange z)
     (_zoomSliderRangeCtn z).

(** An assignment to a field of [this]. *)
Definition assign (f : t -> t) : method World unit :=
  modify (fun w => mkWorld (f (this w)) (page w) (dom w)).

Definition write (d : DomWrite) : method World unit :=
  modify (fun w => mkWorld (this w) (page w) (dom w ++ [d])).

Definition setStyle (e : Elem) (prop : string) (v : CssValue) :
  method World unit :=
  write (SetStyle e prop v).

(** [realign()] *)
Definition realign : method World unit :=
  w <- get ;;
  let z := this w in
  match _diagramDiv z, _sliderDiv z with
  | Some diagramDiv, Some sliderDiv =>
      let '(sliderWidth, sliderHeight) :=
        if String.eqb (_orientation z) "horizontal"
        then (_size z, _buttonSize z)
        else (_buttonSize z, _size z) in
      match parentElement (page w) with
      | Some diagramParent =>
          let top :=
            diagramTop (page w) - parentTop (page w)
            + sy (_alignment z) * clientHeight (page w)
            + soffsetY (_alignment z)
            - sy (_alignmentFocus z) * sliderHeight
            + soffsetY (_alignmentFocus z) in
          let left :=
            diagramLeft (page w) - parentLeft (page w)
            + sx (_alignment z) * clientWidth (page w)
            + soffsetX (_alignment z)
            - sx (_alignmentFocus z) * sliderWidth
            + soffsetX (_alignmentFocus z) in
          setStyle sliderDiv "top" (Px top) ;;;
          setStyle sliderDiv "left" (Px left)
      | None => ret tt
      end
  | _, _ => ret tt
  end.

(** [reorient()] *)
Definition reorient : method World unit :=
  w <- get ;;
  let z := this w in
  match _sliderDiv z, _zoomSliderOut z, _zoomSliderIn z, _zoomSliderRange z with
  | Some sliderDiv, Some zoomOutBtn, Some zoomInBtn, Some zoomRangeInput =>
      if String.eqb (_orientation z) "horizontal" then
        setStyle zoomRangeInput "transform" (Css "") ;;;
        write (InsertFirst sliderDiv zoomOutBtn) ;;;
        write (AppendChild sliderDiv zoomInBtn)
      else
        setStyle zoomRangeInput "transform" (Css "rotate(-90deg)") ;;;
        write (InsertFirst sliderDiv zoomInBtn) ;;;
        write (AppendChild sliderDiv zoomOutBtn)
  | _, _, _, _ => ret tt
  end.

(** [resize(reorient)] *)
Definition resize (reorient_ : bool) : method World unit :=
  w <- get ;;
  let z := this w in
  match _sliderDiv z, _zoomSliderOut z, _zoomSliderIn z,
        _zoomSliderRangeCtn z, _zoomSliderRange z with
  | Some sliderDiv, Some zoomOutBtn, Some zoomInBtn,
    Some zoomRangeContainer, Some zoomRangeInput =>
      dims <-
      (if String.eqb (_orientation z) "horizontal" then
         let sliderWidth := _size z in
         let sliderHeight := _buttonSize z in
         let rangeWidth := sliderWidth - sliderHeight * 2 in
         setStyle zoomOutBtn "width" (Px sliderHeight) ;;;
         setStyle zoomOutBtn "height" (Px sliderHeight) ;;;
         setStyle zoomRangeContainer "width" (Px rangeWidth) ;;;
         setStyle zoomRangeContainer "height" (Px sliderHeight) ;;;
         setStyle zoomRangeInput "width" (Px rangeWidth) ;;;
         setStyle zoomRangeInput "height" (Px sliderHeight) ;;;
         setStyle zoomRangeInput "transformOrigin" (Css "") ;;;
         setStyle zoomInBtn "width" (Px sliderHeight) ;;;
         setStyle zoomInBtn "height" (Px sliderHeight) ;;;
         ret (sliderWidth, sliderHeight)
       else
         let sliderHeight := _size z in
         let sliderWidth := _buttonSize z in
         let rangeHeight := sliderHeight - sliderWidth * 2 in
         setStyle zoomInBtn "width" (Px sliderWidth) ;;;
         setStyle zoomInBtn "height" (Px sliderWidth) ;;;
         setStyle zoomRangeContainer "width" (Px sliderWidth) ;;;
         setStyle zoomRangeContainer "height" (Px rangeHeight) ;;;
         setStyle zoomRangeInput "width" (Px rangeHeight) ;;;
         setStyle zoomRangeInput "height" (Px sliderWidth) ;;;
         setStyle zoomRangeInput "transformOrigin"
           (PxPx (rangeHeight / 2) (rangeHeight / 2)) ;;;
         setStyle zoomOutBtn "width" (Px sliderWidth) ;;;
         setStyle zoomOutBtn "height" (Px sliderWidth) ;;;
         ret (sliderWidth, sliderHeight)) ;;
      let '(sliderWidth, sliderHeight) := dims in
      setStyle sliderDiv "width" (Px sliderWidth) ;;;
      setStyle sliderDiv "height" (Px sliderHeight) ;;;
      (if reorient_ then reorient else ret tt) ;;;
      realign
  | _, _, _, _, _ => ret tt
  end.

(** [val !== s] for a string literal [s]. *)
Definition differs_string (val : value) (s : string) : bool :=
  match val with
  | VString s' => negb (String.eqb s' s)
  | _ => true
  end.

(** [set size(val)] *)
Definition set_size (val : value) : method World unit :=
  w <- get ;;
  let old := _size (this w) in
  if differs_number old val then
    match val with
    | VNumber n => assign (with_size n) ;;; resize false
    | _ => throw "new value for ZoomSlider.size must be a number, not: "
    end
  else ret tt.

(** [set buttonSize(val)] *)
Definition set_buttonSize (val : value) : method World unit :=
  w <- get ;;
  let old := _buttonSize (this w) in
  if differs_number old val then
    match val with
    | VNumber n => assign (with_buttonSize n) ;;; resize false
    | _ => throw "new value for ZoomSlider.buttonSize must be a number, not: "
    end
  else ret tt.

(** [set orientation(val)]; the message is the source's without its
    inner quotation marks. *)
Definition set_orientation (val : value) : method World unit :=
  if differs_string val "horizontal" && differs_string val "vertical" then
    throw "Orientation must be horizontal or vertical"
  else
    w <- get ;;
    let old := _orientation (this w) in
    if differs_string val old then
      match val with
      | VString s => assign (with_orientation s) ;;; resize true
      | _ => ret tt  (* not reached: [val] is one of the two strings *)
      end
    else ret tt.

(** [set opacity(val)] *)
Definition set_opacity (val : value) : method World unit :=
  w <- get ;;
  let old := _opacity (this w) in
  if differs_number old val then
    match val with
    | VNumber n =>
        if (n <? 0) || (1 <? n) then
          throw "new value for ZoomSlider.opacity must be a number between 0 and 1 inclusive, not: "
        else
          assign (with_opacity n) ;;;
          match _sliderDiv (this w) with
          | Some sliderDiv => setStyle sliderDiv "opacity" (NumberString n)
          | None => ret tt
          end
    | _ =>
        throw "new value for ZoomSlider.opacity must be a number between 0 and 1 inclusive, not: "
    end
  else ret tt.

Section SpotSetters.

(** [Spot.prototype.equals] of the host library. *)
Variable Spot_equals : Spot -> value -> bool.

(** [set alignment(val)] *)
Definition set_alignment (val : value) : method World unit :=
  w <- get ;;
  let old := _alignment (this w) in
  if negb (Spot_equals old val) then
    match val with
    | VSpot s => assign (with_alignment s) ;;; realign
    | _ => throw "new value for ZoomSlider.alignment must be a Spot, not: "
    end
  else ret tt.

(** [set alignmentFocus(val)] *)
Definition set_alignmentFocus (val : value) : method World unit :=
  w <- get ;;
  let old := _alignmentFocus (this w) in
  if negb (Spot_equals old val) then
    match val with
    | VSpot s =>
        assign (with_alignment s) ;;;
        assign (with_alignmentFocus s) ;;;
        realign
    | _ => throw "new value for ZoomSlider.alignmentFocus must be a Spot, not: "
    end
  else ret tt.

(** The DOM methods return normally and only write to the page. *)
Definition only_writes (m : method World unit) : Prop :=
  forall w, exists w',
    m w = (Return tt, w') /\ this w' = this w /\ page w' = page w.

Lemma write_only_writes (d : DomWrite) : only_writes (write d).
Proof. intros w. eexists. repeat split. Qed.

Lemma ret_only_writes : only_writes (ret tt).
Proof. intros w. eexists. repeat split. Qed.

Lemma seq_only_writes (m k : method World unit) :
  only_writes m -> only_writes k -> only_writes (m ;;; k).
Proof.
  intros Hm Hk w. destruct (Hm w) as (w1 & E1 & T1 & P1).
  destruct (Hk w1) as (w2 & E2 & T2 & P2).
  exists w2. unfold bind. rewrite E1, E2. repeat split; congruence.
Qed.

Ltac only_writes :=
  repeat first
    [ apply seq_only_writes
    | apply write_only_writes
    | apply ret_only_writes ].

Lemma realign_only_writes : only_writes realign.
Proof.
  intros w. unfold realign, bind, get. cbv beta iota.
  destruct (_diagramDiv (this w)), (_sliderDiv (this w));
    try apply ret_only_writes.
  destruct (String.eqb _ _); destruct (parentElement (page w));
    unfold setStyle; only_writes.
Qed.

Lemma reorient_only_writes : only_writes reorient.
Proof.
  intros w. unfold reorient, bind, get. cbv beta iota.
  destruct (_sliderDiv (this w)), (_zoomSliderOut (this w)),
    (_zoomSliderIn (this w)), (_zoomSliderRange (this w));
    try apply ret_only_writes.
  destruct (String.eqb _ _); unfold setStyle; only_writes.
Qed.

Lemma resize_only_writes (b : bool) : only_writes (resize b).
Proof.
  intros w. unfold resize. unfold bind at 1. unfold get at 1. cbv beta iota.
  destruct (_sliderDiv (this w)) as [sd | ]; [ | apply ret_only_writes].
  destruct (_zoomSliderOut (this w)) as [zo | ]; [ | apply ret_only_writes].
  destruct (_zoomSliderIn (this w)) as [zi | ]; [ | apply ret_only_writes].
  destruct (_zoomSliderRangeCtn (this w)) as [zc | ]; [ | apply ret_only_writes].
  destruct (_zoomSliderRange (this w)) as [zr | ]; [ | apply ret_only_writes].
  assert (Htail : forall sw sh,
    only_writes (setStyle sd "width" (Px sw) ;;; setStyle sd "height" (Px sh) ;;;
                 (if b then reorient else ret tt) ;;; realign)).
  { intros sw sh. unfold setStyle. only_writes.
    - destruct b; [apply reorient_only_writes | apply ret_only_writes].
    - apply realign_only_writes. }
  destruct (String.eqb (_orientation (this w)) "horizontal").
  - destruct (Htail (_size (this w)) (_buttonSize (this w))
               (mkWorld (this w) (page w)
                  (dom w ++
                   [SetStyle zo "width" (Px (_buttonSize (this w)));
                    SetStyle zo "height" (Px (_buttonSize (this w)));
                    SetStyle zc "width" (Px (_size (this w) - _buttonSize (this w) * 2));
                    SetStyle zc "height" (Px (_buttonSize (this w)));
                    SetStyle zr "width" (Px (_size (this w) - _buttonSize (this w) * 2));
                    SetStyle zr "height" (Px (_buttonSize (this w)));
                    SetStyle zr "transformOrigin" (Css "");
                    SetStyle zi "width" (Px (_buttonSize (this w)));
                    SetStyle zi "height" (Px (_buttonSize (this w)))])))
      as (w' & E & T & P).
    exists w'. split; [ | split; [exact T | exact P]].
    rewrite <- E. unfold bind, setStyle, write, modify, ret. cbn.
    rewrite <- !app_assoc. reflexivity.
  - destruct (Htail (_buttonSize (this w)) (_size (this w))
               (mkWorld (this w) (page w)
                  (dom w ++
                   [SetStyle zi "width" (Px (_buttonSize (this w)));
                    SetStyle zi "height" (Px (_buttonSize (this w)));
                    SetStyle zc "width" (Px (_buttonSize (this w)));
                    SetStyle zc "height" (Px (_size (this w) - _buttonSize (this w) * 2));
                    SetStyle zr "width" (Px (_size (this w) - _buttonSize (this w) * 2));
                    SetStyle zr "height" (Px (_buttonSize (this w)));
                    SetStyle zr "transformOrigin"
                      (PxPx ((_size (this w) - _buttonSize (this w) * 2) / 2)
                            ((_size (this w) - _buttonSize (this w) * 2) / 2));
                    SetStyle zo "width" (Px (_buttonSize (this w)));
                    SetStyle zo "height" (Px (_buttonSize (this w)))])))
      as (w' & E & T & P).
    exists w'. split; [ | split; [exact T | exact P]].
    rewrite <- E. unfold bind, setStyle, write, modify, ret. cbn.
    rewrite <- !app_assoc. reflexivity.
Qed.

(** [NaN] differs from every stored number. *)
Lemma differs_number_nan (old : number) :
  differs_number old (VNumber nan) = true.
Proof.
  unfold differs_number, strict_neq, strict_eq.
  rewrite FloatAxioms.eqb_spec. unfold SFeqb.
  replace (Prim2SF nan) with S754_nan by reflexivity.
  destruct (Prim2SF old); reflexivity.
Qed.

(** The unit interval of the opacity's documentation: "a number between 0
    and 1 inclusive". *)
Definition in_unit_interval (n : number) : bool := (0 <=? n) && (n <=? 1).

(** The guards of the six setters, where they do reject: a value that is
    not a number for [size] and [buttonSize], a value that is not a Spot
    (and that [equals] tells apart from the stored one) for [alignment]
    and [alignmentFocus], anything but the two orientation strings for
    [orientation], and for [opacity] a value that is not a number or a
    number below 0 or above 1 that differs from the stored one.  The
    setter throws and nothing has changed. *)
Lemma setters_guarded (w : World) (val : value) :
  (typeof_number val = false ->
     (exists m, set_size val w = (Throw m, w)) /\
     (exists m, set_buttonSize val w = (Throw m, w)) /\
     (exists m, set_opacity val w = (Throw m, w)))
  /\ (instanceof_Spot val = false ->
      (Spot_equals (_alignment (this w)) val = false ->
       exists m, set_alignment val w = (Throw m, w)) /\
      (Spot_equals (_alignmentFocus (this w)) val = false ->
       exists m, set_alignmentFocus val w = (Throw m, w)))
  /\ (val <> VString "horizontal" -> val <> VString "vertical" ->
      exists m, set_orientation val w = (Throw m, w))
  /\ (forall n, val = VNumber n -> (n <? 0) || (1 <? n) = true ->
      differs_number (_opacity (this w)) val = true ->
      exists m, set_opacity val w = (Throw m, w)).
Proof.
  repeat split.
  - unfold set_size, bind, get, throw.
    destruct val; try discriminate H; simpl; eexists; reflexivity.
  - unfold set_buttonSize, bind, get, throw.
    destruct val; try discriminate H; simpl; eexists; reflexivity.
  - unfold set_opacity, bind, get, throw.
    destruct val; try discriminate H; simpl; eexists; reflexivity.
  - intros E. unfold set_alignment, bind, get, throw. rewrite E.
    destruct val; try discriminate H; simpl; eexists; reflexivity.
  - intros E. unfold set_alignmentFocus, bind, get, throw. rewrite E.
    destruct val; try discriminate H; simpl; eexists; reflexivity.
  - intros Hh Hv. unfold set_orientation, throw.
    assert (E : differs_string val "horizontal"
                && differs_string val "vertical" = true).
    { destruct val as [ | | | | s | | ]; try reflexivity. simpl.
      destruct (String.eqb_spec s "horizontal") as [-> | _]; [congruence | ].
      destruct (String.eqb_spec s "vertical") as [-> | _]; [congruence | ].
      reflexivity. }
    rewrite E. eexists. reflexivity.
  - intros n -> Hn Hd. unfold set_opacity, bind, get, throw.
    rewrite Hd, Hn. eexists. reflexivity.
Qed.

(** C3: the guard of [opacity] misses NaN.  NaN is a number that is not
    between 0 and 1 and that differs from every stored opacity, yet
    assigning it does not throw: it is stored. *)
Theorem set_opacity_NaN_stored (w : World) :
  in_unit_interval nan = false
  /\ differs_number (_opacity (this w)) (VNumber nan) = true
  /\ exists w',
       set_opacity (VNumber nan) w = (Return tt, w')
       /\ this w' = with_opacity nan (this w).
Proof.
  split; [reflexivity | ]. split; [apply differs_number_nan | ].
  unfold set_opacity, bind, get. rewrite differs_number_nan.
  cbn. destruct (_sliderDiv (this w)); eexists; split; reflexivity.
Qed.

(** C8: assigning to [alignmentFocus] a Spot that is not equal to the
    stored one stores it in both [_alignment] and [_alignmentFocus] (and
    realigns); no other field changes. *)
Theorem set_alignmentFocus_assigns_both (w : World) (v : Spot) :
  Spot_equals (_alignmentFocus (this w)) (VSpot v) = false ->
  exists w',
    set_alignmentFocus (VSpot v) w = (Return tt, w')
    /\ _alignment (this w') = v
    /\ _alignmentFocus (this w') = v
    /\ this w' = with_alignmentFocus v (with_alignment v (this w)).
Proof.
  intros E. unfold set_alignmentFocus. unfold bind at 1. unfold get at 1.
  cbv beta iota. rewrite E. cbn [negb].
  destruct (realign_only_writes
              (mkWorld (with_alignmentFocus v (with_alignment v (this w)))
                 (page w) (dom w))) as (w' & Er & Tr & _).
  exists w'. unfold bind, assign, modify. cbn. cbn in Er. rewrite Er.
  rewrite Tr. repeat split.
Qed.

End SpotSetters.

(** [Spot.equals] as a field-wise comparison of two Spots. *)
Definition fieldwise_equals (a : Spot) (val : value) : bool :=
  match val with
  | VSpot b =>
      strict_eq (sx a) (sx b) && strict_eq (sy a) (sy b)
      && strict_eq (soffsetX a) (soffsetX b)
      && strict_eq (soffsetY a) (soffsetY b)
  | _ => false
  end.

Definition BottomRight : Spot := mkSpot 1 1 0 0.
Definition TopLeft : Spot := mkSpot 0 0 0 0.

(** A slider as the constructor leaves it when no options are given. *)
Definition sample_slider : World :=
  mkWorld
    (mk 125 25 BottomRight BottomRight "vertical" 0.75 0%nat 1
        (Some 0%nat) (Some 1%nat) (Some 2%nat) (Some 5%nat) (Some 4%nat)
        (Some 3%nat))
    (mkPage (Some 6%nat) 0 0 0 0 400 300)
    [].

Lemma set_alignmentFocus_witness :
  _alignment (this sample_slider) = BottomRight
  /\ exists w',
       set_alignmentFocus fieldwise_equals (VSpot TopLeft) sample_slider = (Return tt, w')
       /\ _alignment (this w') = TopLeft
       /\ _alignmentFocus (this w') = TopLeft
       /\ this w' = with_alignmentFocus TopLeft (with_alignment TopLeft (this sample_slider)).
Proof.
  split; [reflexivity | ].
  apply (set_alignmentFocus_assigns_both fieldwise_equals sample_slider TopLeft).
  reflexivity.
Defined.

End ZoomSlider.

(* ================================================================== *)
(** * Parts of a diagram and the host library's [go.Set] *)

Module Parts.

(** A Part is a Node (Groups included), a Link, or a Part that is neither;
    each kind of object is referred to by its identity. *)
Inductive Part : Type :=
| Node (id : nat)
| Link (id : nat)
| Plain (id : nat).

Lemma Part_eq_dec (p q : Part) : {p = q} + {p <> q}.
Proof. decide equality; apply Nat.eq_dec. Defined.

(** [p instanceof go.Link] and [p instanceof go.Node] *)
Definition instanceof_Link (p : Part) : bool :=
  match p with Link _ => true | _ => false end.

Definition instanceof_Node (p : Part) : bool :=
  match p with Node _ => true | _ => false end.

(** A [go.Set] keeps its elements in insertion order, each once. *)
Definition GoSet := list Part.

Definition Set_has (s : GoSet) (p : Part) : bool :=
  if in_dec Part_eq_dec p s then true else false.

Definition Set_add (p : Part) (s : GoSet) : GoSet :=
  if Set_has s p then s else s ++ [p].

Definition Set_addAll (ps : list Part) (s : GoSet) : GoSet :=
  fold_left (fun acc p => Set_add p acc) ps s.

Definition Set_first (s : GoSet) : option Part := hd_error s.

Lemma Set_has_In (s : GoSet) (p : Part) : Set_has s p = true <-> In p s.
Proof.
  unfold Set_has. destruct (in_dec Part_eq_dec p s); split; intros;
    congruence || assumption || reflexivity || contradiction.
Qed.

Lemma Set_add_In (p x : Part) (s : GoSet) :
  In x (Set_add p s) <-> x = p \/ In x s.
Proof.
  unfold Set_add. destruct (Set_has s p) eqn:E.
  - apply Set_has_In in E. split; [auto | intros [-> | H]; assumption].
  - rewrite in_app_iff. simpl. intuition congruence.
Qed.

Lemma Set_addAll_In (ps : list Part) (x : Part) (s : GoSet) :
  In x (Set_addAll ps s) <-> In x ps \/ In x s.
Proof.
  unfold Set_addAll. revert s. induction ps as [ | p ps IH]; intros s; simpl.
  - tauto.
  - rewrite IH, Set_add_In. intuition congruence.
Qed.

Lemma Set_add_NoDup (p : Part) (s : GoSet) : NoDup s -> NoDup (Set_add p s).
Proof.
  intros H. unfold Set_add. destruct (Set_has s p) eqn:E; [exact H | ].
  apply NoDup_app; [exact H | repeat constructor; simpl; tauto | ].
  intros x Hx [<- | []]. apply Set_has_In in Hx. congruence.
Qed.

End Parts.

(* ================================================================== *)
(** * extensionsJSM/ArrangingLayout.ts *)

Module ArrangingLayout.

Import Parts.

Section SplitParts.

(** What [splitParts] reads of the Parts: the number of links connected
    to a Node, and the two ends of a Link. *)
Variable linksConnected_count : nat -> nat.
Variable fromNode : nat -> option nat.
Variable toNode : nat -> option nat.

(** The layout's [filter] property. *)
Variable filter : option (Part -> bool).

(** The body of the first [coll.each]: Links are skipped, any other Part
    goes to one of the two collections. *)
Definition assign_nonlink (acc : GoSet * GoSet) (p : Part) : GoSet * GoSet :=
  let '(maincoll, sidecoll) := acc in
  if instanceof_Link p then acc
  else
    let main :=
      match filter with
      | Some pred => pred p
      | None =>
          match p with
          | Node n => (0 <? linksConnected_count n)%nat
          | _ => instanceof_Link p
          end
      end in
    if main then (Set_add p maincoll, sidecoll)
    else (maincoll, Set_add p sidecoll).

(** The body of the second [coll.each]. *)
Definition assign_link (acc : GoSet * GoSet) (p : Part) : GoSet * GoSet :=
  let '(maincoll, sidecoll) := acc in
  match p with
  | Link l =>
      match fromNode l, toNode l with
      | Some f, Some t =>
          if Set_has maincoll (Node f) && Set_has maincoll (Node t)
          then (Set_add p maincoll, sidecoll)
          else if Set_has sidecoll (Node f) && Set_has sidecoll (Node t)
          then (maincoll, Set_add p sidecoll)
          else acc
      | _, _ => acc
      end
  | _ => acc
  end.

(** [splitParts(coll, maincoll, sidecoll)]: the two collections after the
    call. *)
Definition splitParts (coll maincoll sidecoll : GoSet) : GoSet * GoSet :=
  fold_left assign_link coll
    (fold_left assign_nonlink coll (maincoll, sidecoll)).

(** Both ends of link [l] are present and members of [c]. *)
Definition both_ends_in (c : GoSet) (l : nat) : Prop :=
  exists f t, fromNode l = Some f /\ toNode l = Some t
              /\ In (Node f) c /\ In (Node t) c.

Lemma both_ends_in_has (c : GoSet) (l f t : nat) :
  fromNode l = Some f -> toNode l = Some t ->
  (Set_has c (Node f) && Set_has c (Node t) = true <-> both_ends_in c l).
Proof.
  intros Hf Ht. rewrite andb_true_iff, !Set_has_In. unfold both_ends_in.
  split.
  - intros [H1 H2]. exists f, t. auto.
  - intros (f' & t' & Hf' & Ht' & H1 & H2). split; congruence.
Qed.

Lemma both_ends_in_ext (c c' : GoSet) (l : nat) :
  (forall n, In (Node n) c' <-> In (Node n) c) ->
  (both_ends_in c' l <-> both_ends_in c l).
Proof.
  intros H. unfold both_ends_in.
  split; intros (f & t & Hf & Ht & H1 & H2); exists f, t;
    repeat split; try assumption; apply H; assumption.
Qed.

(** Where a Part that is not a Link goes when there is no filter. *)
Definition to_main (x : Part) : Prop :=
  exists n, x = Node n /\ 0 < linksConnected_count n.

Definition to_side (x : Part) : Prop :=
  (exists n, x = Node n /\ linksConnected_count n = 0) \/ exists i, x = Plain i.

(** One step of the first pass. *)
Lemma assign_nonlink_step (m s : GoSet) (p x : Part) :
  filter = None ->
  (In x (fst (assign_nonlink (m, s) p)) <-> In x m \/ (x = p /\ to_main x))
  /\ (In x (snd (assign_nonlink (m, s) p)) <-> In x s \/ (x = p /\ to_side x)).
Proof.
  intros Hfilter. unfold assign_nonlink, to_main, to_side. rewrite Hfilter.
  destruct p as [n | l | i]; simpl.
  - destruct (Nat.ltb_spec 0 (linksConnected_count n)) as [Hn | Hn]; simpl;
      rewrite Set_add_In; split; split.
    + intros [-> | H]; eauto.
    + intros [H | [-> _]]; auto.
    + auto.
    + intros [H | [-> [(n' & E & Hz) | (i & E)]]];
        [assumption | inversion E; subst n'; lia | discriminate E].
    + auto.
    + intros [H | [-> (n' & E & Hz)]];
        [assumption | inversion E; subst n'; lia].
    + intros [-> | H]; [right; split; [reflexivity | left; exists n; split; [reflexivity | lia]] | auto].
    + intros [H | [-> _]]; auto.
  - split; split; auto.
    + intros [H | [-> (n' & E & _)]]; [assumption | discriminate E].
    + intros [H | [-> [(n' & E & _) | (i & E)]]];
        [assumption | discriminate E | discriminate E].
  - rewrite Set_add_In. split; split; auto.
    + intros [H | [-> (n' & E & _)]]; [assumption | discriminate E].
    + intros [-> | H]; [right; split; [reflexivity | right; eauto] | auto].
    + intros [H | [-> _]]; auto.
Qed.

(** What the first pass adds when there is no filter. *)
Lemma assign_nonlink_fold (coll m s : GoSet) (x : Part) :
  filter = None ->
  (In x (fst (fold_left assign_nonlink coll (m, s))) <->
     In x m \/ (In x coll /\ to_main x))
  /\ (In x (snd (fold_left assign_nonlink coll (m, s))) <->
     In x s \/ (In x coll /\ to_side x)).
Proof.
  intros Hfilter. revert m s.
  induction coll as [ | p coll IH]; intros m s; cbn [fold_left].
  - simpl. tauto.
  - pose proof (assign_nonlink_step m s p x Hfilter) as [S1 S2].
    destruct (assign_nonlink (m, s) p) as [m1 s1]. simpl in S1, S2.
    destruct (IH m1 s1) as [IH1 IH2]. rewrite IH1, IH2, S1, S2.
    cbn [In]. split; split; intros H; intuition (subst; auto).
Qed.

(** One step of the second pass. *)
Lemma assign_link_step (m s : GoSet) (p : Part) :
  (forall x, instanceof_Link x = false ->
     (In x (fst (assign_link (m, s) p)) <-> In x m)
     /\ (In x (snd (assign_link (m, s) p)) <-> In x s))
  /\ (forall l, In (Link l) (fst (assign_link (m, s) p)) <->
        In (Link l) m \/ (p = Link l /\ both_ends_in m l))
  /\ (forall l, In (Link l) (snd (assign_link (m, s) p)) <->
        In (Link l) s \/ (p = Link l /\ ~ both_ends_in m l /\ both_ends_in s l)).
Proof.
  assert (Hinv : forall l l0 : nat, Link l0 = Link l -> l0 = l)
    by (intros l l0 E; inversion E; reflexivity).
  unfold assign_link.
  destruct p as [n | l0 | i];
    try (split; [intros x Hx; cbn [fst snd]; tauto
               | split; intros l;
                 (split; [cbn [fst snd]; tauto
                         | intros [H | [E _]]; [exact H | discriminate E]])]).
  destruct (fromNode l0) as [f | ] eqn:Ef;
    [destruct (toNode l0) as [t | ] eqn:Et | ].
  - pose proof (both_ends_in_has m l0 f t Ef Et) as Bm.
    pose proof (both_ends_in_has s l0 f t Ef Et) as Bs.
    destruct (Set_has m (Node f) && Set_has m (Node t));
      [ | destruct (Set_has s (Node f) && Set_has s (Node t)) ];
      cbn [fst snd].
    + assert (Hm : both_ends_in m l0) by (apply Bm; reflexivity).
      split; [intros x Hx; rewrite Set_add_In; split; [ | tauto];
              split; [intros [E | H]; [subst x; discriminate Hx | exact H] | auto]
             | split; intros l; [rewrite Set_add_In | ]; split ].
      * intros [E | H]; [apply Hinv in E; subst l0; auto | auto].
      * intros [H | [E H]]; [auto | left; congruence].
      * auto.
      * intros [H | [E [H _]]]; [exact H | ].
        apply Hinv in E; subst l0; contradiction.
    + assert (Hm : ~ both_ends_in m l0)
        by (intros H; apply Bm in H; discriminate H).
      assert (Hs : both_ends_in s l0) by (apply Bs; reflexivity).
      split; [intros x Hx; rewrite Set_add_In; split; [tauto | ];
              split; [intros [E | H]; [subst x; discriminate Hx | exact H] | auto]
             | split; intros l; [ | rewrite Set_add_In]; split ].
      * auto.
      * intros [H | [E H]]; [exact H | ].
        apply Hinv in E; subst l0; contradiction.
      * intros [E | H]; [apply Hinv in E; subst l0; auto | auto].
      * intros [H | [E H]]; [auto | left; congruence].
    + assert (Hm : ~ both_ends_in m l0)
        by (intros H; apply Bm in H; discriminate H).
      assert (Hs : ~ both_ends_in s l0)
        by (intros H; apply Bs in H; discriminate H).
      split; [intros x Hx; tauto | split; intros l; split ].
      * auto.
      * intros [H | [E H]]; [exact H | ].
        apply Hinv in E; subst l0; contradiction.
      * auto.
      * intros [H | [E [_ H]]]; [exact H | ].
        apply Hinv in E; subst l0; contradiction.
  - cbn [fst snd].
    split; [intros x Hx; tauto | split; intros l; split ].
    + auto.
    + intros [H | [E (f' & t' & _ & H' & _)]]; [exact H | ].
      apply Hinv in E; subst l0; congruence.
    + auto.
    + intros [H | [E [_ (f' & t' & _ & H' & _)]]]; [exact H | ].
      apply Hinv in E; subst l0; congruence.
  - cbn [fst snd].
    split; [intros x Hx; tauto | split; intros l; split ].
    + auto.
    + intros [H | [E (f' & t' & H' & _)]]; [exact H | ].
      apply Hinv in E; subst l0; congruence.
    + auto.
    + intros [H | [E [_ (f' & t' & H' & _)]]]; [exact H | ].
      apply Hinv in E; subst l0; congruence.
Qed.

(** What the second pass adds: Links only, decided by where the first
    pass has put their two Nodes. *)
Lemma assign_link_fold (coll m s : GoSet) :
  (forall x, instanceof_Link x = false ->
     (In x (fst (fold_left assign_link coll (m, s))) <-> In x m)
     /\ (In x (snd (fold_left assign_link coll (m, s))) <-> In x s))
  /\ (forall l, In (Link l) (fst (fold_left assign_link coll (m, s))) <->
        In (Link l) m \/ (In (Link l) coll /\ both_ends_in m l))
  /\ (forall l, In (Link l) (snd (fold_left assign_link coll (m, s))) <->
        In (Link l) s
        \/ (In (Link l) coll /\ ~ both_ends_in m l /\ both_ends_in s l)).
Proof.
  revert m s. induction coll as [ | p coll IH]; intros m s; cbn [fold_left].
  - cbn [fst snd In]. repeat split; tauto.
  - pose proof (assign_link_step m s p) as (S1 & S2 & S3).
    destruct (assign_link (m, s) p) as [m1 s1]. cbn [fst snd] in S1, S2, S3.
    destruct (IH m1 s1) as (I1 & I2 & I3).
    assert (Em : forall l, both_ends_in m1 l <-> both_ends_in m l).
    { intros l. apply both_ends_in_ext. intros n. apply (S1 (Node n)).
      reflexivity. }
    assert (Es : forall l, both_ends_in s1 l <-> both_ends_in s l).
    { intros l. apply both_ends_in_ext. intros n. apply (S1 (Node n)).
      reflexivity. }
    split; [ | split].
    + intros x Hx. destruct (I1 x Hx) as [A B]. destruct (S1 x Hx) as [C D].
      rewrite A, B, C, D. tauto.
    + intros l. rewrite I2, S2, Em. cbn [In]. tauto.
    + intros l. rewrite I3, S3, Em, Es. cbn [In]. tauto.
Qed.

(** No Part is put in both collections by the first pass. *)
Lemma to_main_not_to_side (x : Part) : to_main x -> to_side x -> False.
Proof.
  intros (n & -> & Hn) [(n' & E & Hz) | (i & E)];
    [inversion E; subst n'; lia | discriminate E].
Qed.

(** C9: [splitParts] with no filter, from two empty collections.  A Part
    of the collection that is not a Link is in the main collection exactly
    when it is a Node with at least one connected link, and in the side
    collection exactly when it is not in the main one.  A Link of the
    collection is in the main collection exactly when both its ends are
    present and in the main collection, in the side collection exactly
    when both are present and in the side collection, and in neither when
    an end is missing or the two ends are in different collections. *)
Theorem splitParts_null_filter (coll : GoSet) :
  filter = None ->
  let maincoll := fst (splitParts coll [] []) in
  let sidecoll := snd (splitParts coll [] []) in
  (forall p, In p coll -> instanceof_Link p = false ->
     (In p maincoll <-> exists n, p = Node n /\ 0 < linksConnected_count n)
     /\ (In p sidecoll <-> ~ In p maincoll))
  /\ (forall l, In (Link l) coll ->
      (In (Link l) maincoll <-> both_ends_in maincoll l)
      /\ (In (Link l) sidecoll <-> both_ends_in sidecoll l)
      /\ (fromNode l = None \/ toNode l = None ->
          ~ In (Link l) maincoll /\ ~ In (Link l) sidecoll)
      /\ (forall f t, fromNode l = Some f -> toNode l = Some t ->
          (In (Node f) maincoll /\ In (Node t) sidecoll)
          \/ (In (Node f) sidecoll /\ In (Node t) maincoll) ->
          ~ In (Link l) maincoll /\ ~ In (Link l) sidecoll)).
Proof.
  intros Hfilter maincoll sidecoll. subst maincoll sidecoll.
  unfold splitParts.
  pose proof (fun x => assign_nonlink_fold coll [] [] x Hfilter) as P1.
  set (r1 := fold_left assign_nonlink coll _) in *. clearbody r1.
  destruct r1 as [m1 s1]. cbn [fst snd In] in P1.
  pose proof (assign_link_fold coll m1 s1) as (Q1 & Q2 & Q3).
  set (r2 := fold_left assign_link coll _) in *. clearbody r2.
  destruct r2 as [m2 s2]. cbn [fst snd] in *.
  assert (Em : forall l, both_ends_in m2 l <-> both_ends_in m1 l).
  { intros l. apply both_ends_in_ext. intros n. apply (Q1 (Node n)).
    reflexivity. }
  assert (Es : forall l, both_ends_in s2 l <-> both_ends_in s1 l).
  { intros l. apply both_ends_in_ext. intros n. apply (Q1 (Node n)).
    reflexivity. }
  assert (Hdisj : forall x, In x m1 -> In x s1 -> False).
  { intros x Hm Hs. apply P1 in Hm. apply P1 in Hs.
    destruct Hm as [[] | [_ Hm]]. destruct Hs as [[] | [_ Hs]].
    exact (to_main_not_to_side x Hm Hs). }
  assert (Hlink1 : forall l, ~ In (Link l) m1 /\ ~ In (Link l) s1).
  { intros l. split; intros H; apply P1 in H.
    - destruct H as [[] | [_ (n & E & _)]]. discriminate E.
    - destruct H as [[] | [_ [(n & E & _) | (i & E)]]]; discriminate E. }
  assert (Hexcl : forall l, both_ends_in s1 l -> ~ both_ends_in m1 l).
  { intros l (f & t & Hf & Ht & H1 & _) (f' & t' & Hf' & _ & H1' & _).
    assert (f' = f) by congruence. subst f'. exact (Hdisj _ H1' H1). }
  split.
  - intros p Hp Hnl. destruct (Q1 p Hnl) as [A B]. rewrite A, B.
    destruct (P1 p) as [M S]. rewrite M, S. unfold to_main. split.
    + split; [intros [[] | [_ H]]; exact H | intros H; right; auto].
    + split.
      * intros [[] | [_ H]] [[] | [_ H']].
        exact (to_main_not_to_side p H' H).
      * intros H. right. split; [exact Hp | ].
        destruct p as [n | l | i]; [ | discriminate Hnl | right; eauto].
        left. exists n. split; [reflexivity | ].
        destruct (Nat.eq_dec (linksConnected_count n) 0) as [Hz | Hz];
          [exact Hz | ].
        exfalso. apply H. right. split; [exact Hp | ].
        exists n. split; [reflexivity | lia].
  - intros l Hl. destruct (Hlink1 l) as [Nm Ns].
    assert (Hmain : In (Link l) m2 <-> both_ends_in m2 l).
    { rewrite Q2, Em. tauto. }
    assert (Hside : In (Link l) s2 <-> both_ends_in s2 l).
    { rewrite Q3, Es. specialize (Hexcl l). tauto. }
    split; [exact Hmain | ]. split; [exact Hside | ]. split.
    + intros Hmiss. rewrite Hmain, Hside. unfold both_ends_in.
      split; intros (f & t & Hf & Ht & _); destruct Hmiss; congruence.
    + intros f t Hf Ht Hsplit. rewrite Hmain, Hside, Em, Es.
      assert (Nf : forall n, In (Node n) m2 <-> In (Node n) m1)
        by (intros n; apply (Q1 (Node n)); reflexivity).
      assert (Ng : forall n, In (Node n) s2 <-> In (Node n) s1)
        by (intros n; apply (Q1 (Node n)); reflexivity).
      rewrite !Nf, !Ng in Hsplit.
      split; intros (f' & t' & Hf' & Ht' & H1 & H2);
        assert (f' = f) by congruence; assert (t' = t) by congruence;
        subst f' t'; destruct Hsplit as [[A B] | [A B]];
        eauto using Hdisj.
Qed.

End SplitParts.

(** Three nodes, of which 1 and 2 are connected by link 7 and node 3 has
    no links, a plain Part 4, and link 8 from node 3 whose other end is
    missing. *)
Definition sample_diagram : GoSet :=
  [Link 7; Node 1; Plain 4; Node 2; Node 3; Link 8].

Definition sample_count (n : nat) : nat :=
  match n with 1 | 2 => 1 | _ => 0 end.

Definition sample_from (l : nat) : option nat :=
  match l with 7 => Some 1 | 8 => Some 3 | _ => None end.

Definition sample_to (l : nat) : option nat :=
  match l with 7 => Some 2 | _ => None end.

Example splitParts_sample :
  splitParts sample_count sample_from sample_to None sample_diagram [] [] =
    ([Node 1; Node 2; Link 7], [Plain 4; Node 3]).
Proof. reflexivity. Qed.

Lemma splitParts_null_filter_witness :
  In (Link 7)
    (fst (splitParts sample_count sample_from sample_to None sample_diagram [] []))
  <-> both_ends_in sample_from sample_to
        (fst (splitParts sample_count sample_from sample_to None sample_diagram [] []))
        7.
Proof.
  apply (proj2 (splitParts_null_filter sample_count sample_from sample_to
                  None sample_diagram eq_refl) 7).
  simpl. auto.
Defined.

End ArrangingLayout.

(* ================================================================== *)
(** * extensionsJSM/BalloonLink.js *)

Module BalloonLink.

Local Open Scope float_scope.

(** The path primitives of the host library, as the method builds them. *)
Inductive PathSegment : Type :=
| Line (x y : number)
| Arc (startAngle sweepAngle centerX centerY radiusX radiusY : number).

Record PathFigure : Type := mkFigure {
  startX : number;
  startY : number;
  segments : list PathSegment;
  isClosed : bool }.         (* the last segment has been closed *)

(** A Geometry: its figures and the offsets applied to it. *)
Record Geometry : Type := mkGeometry {
  figures : list PathFigure;
  offsets : list Point }.

(** [new go.Geometry()] *)
Definition new_Geometry : Geometry := mkGeometry [] [].

Record Margin : Type := mkMargin {
  mtop : number; mright : number; mbottom : number; mleft : number }.

(** What the method reads of a connected Node. *)
Record NodeInfo : Type := mkNode {
  actualBounds : Rect;
  margin : Margin }.

Inductive HostCall : Type :=
| RaiseChangedEvent (prop : string) (old new : number).

(** A BalloonLink: the private [_base], the inherited [corner], the two
    ends, the route and its bounds, and the calls made to the base class. *)
Record t : Type := mk {
  _base : number;
  corner : number;
  fromNode : option NodeInfo;
  toNode : option NodeInfo;
  points : list Point;
  routeBounds : Rect;
  calls : list HostCall }.

(** [set base(value)] *)
Definition set_base (val : value) : method t unit :=
  l <- get ;;
  let old := _base l in
  if differs_number old val then
    match val with
    | VNumber n =>
        modify (fun l => mk n (corner l) (fromNode l) (toNode l) (points l)
                           (routeBounds l)
                           (calls l ++ [RaiseChangedEvent "base" old n]))
    | _ => throw "BalloonLink.base must be a number"
    end
  else ret tt.

(** The link with another stored base. *)
Definition with_base (b : number) (l : t) : t :=
  mk b (corner l) (fromNode l) (toNode l) (points l) (routeBounds l) (calls l).

(** The figure under construction and the pen position [prevx], [prevy]
    shared by the three local helper functions. *)
Record Pen : Type := mkPen {
  fig_startX : number;
  fig_startY : number;
  fig_segments : list PathSegment;
  prevx : number;
  prevy : number }.

Definition new_Pen : Pen := mkPen 0 0 [] 0 0.

Definition start (x y : number) (p : Pen) : Pen :=
  mkPen x y (fig_segments p) x y.

Definition point (x y v w : number) (p : Pen) : Pen :=
  mkPen (fig_startX p) (fig_startY p)
        (fig_segments p ++ [Line x y; Line v w]) v w.

Definition turn (corner x y : number) (p : Pen) : Pen :=
  let added :=
    if strict_eq (prevx p) x && (y <? prevy p) then
      (* top left *)
      [Line x (y + corner);
       Arc 180 90 (x + corner) (y + corner) corner corner]
    else if (prevx p <? x) && strict_eq (prevy p) y then
      (* top right *)
      [Line (x - corner) y;
       Arc 270 90 (x - corner) (y + corner) corner corner]
    else if strict_eq (prevx p) x && (prevy p <? y) then
      (* bottom right *)
      [Line x (y - corner);
       Arc 0 90 (x - corner) (y - corner) corner corner]
    else if (x <? prevx p) && strict_eq (prevy p) y then
      (* bottom left *)
      [Line (x + corner) y;
       Arc 90 90 (x + corner) (y - corner) corner corner]
    else [] in
  mkPen (fig_startX p) (fig_startY p) (fig_segments p ++ added) x y.

(** The base of the triangle and the corner radius that the method works
    with (its local constants [base] and [corner]). *)
Definition used_base (l : t) : number := Math_max 0 (_base l).

Definition used_corner (l : t) (bb : Rect) : number :=
  Math_min (Math_max 0 (corner l))
           (Math_min (rwidth bb / 2) (rheight bb / 2)).

Section MakeGeometry.

(** Methods of [go.Rect] that the method calls. *)
Variable addMargin : Rect -> Margin -> Rect.
Variable intersectsRect : Rect -> Rect -> bool.

(** The bounds of the from node, grown by its margin. *)
Definition balloon_bounds (n : NodeInfo) : Rect :=
  addMargin (actualBounds n) (margin n).

(** The far point [pn] of the balloon's triangle. *)
Definition far_point (l : t) (bb : Rect) : Point :=
  let pn :=
    match points l with
    | [] => Rect_center bb
    | _ :: _ => last (points l) (Rect_center bb)
    end in
  match toNode l, points l with
  | Some tn, _ =>
      if intersectsRect bb (actualBounds tn)
      then Rect_center (actualBounds tn) else pn
  | None, [] => mkPoint (Rect_centerX bb) (Rect_bottom bb + 50)
  | None, _ :: _ => pn
  end.

(** The outline, drawn with the pen. *)
Definition outline (l : t) (bb : Rect) : Pen :=
  let pn := far_point l bb in
  let base := used_base l in
  let corner := used_corner l bb in
  let cornerext := Math_min base (corner + base / 2) in
  let left := Rect_left bb in
  let right := Rect_right bb in
  let top := Rect_top bb in
  let bottom := Rect_bottom bb in
  let turn := turn corner in
  if px pn <? left then
    if py pn <? top then
      turn left bottom (turn right bottom (turn right top
        (point (px pn) (py pn)
               (Math_min (left + cornerext) (right - corner)) top
           (start left (Math_min (top + cornerext) (bottom - corner))
              new_Pen))))
    else if bottom <? py pn then
      turn right bottom (turn right top (turn left top
        (point (px pn) (py pn)
               left (Math_max (bottom - cornerext) (top + corner))
           (start (Math_min (left + cornerext) (right - corner)) bottom
              new_Pen))))
    else
      let y := Math_min (Math_max (py pn + base / 3) (top + corner + base))
                        (bottom - corner) in
      turn left bottom (turn right bottom (turn right top (turn left top
        (point (px pn) (py pn) left (Math_max (y - base) (top + corner))
           (start left y new_Pen)))))
  else if right <? px pn then
    if py pn <? top then
      turn left top (turn left bottom (turn right bottom
        (point (px pn) (py pn)
               right (Math_min (top + cornerext) (bottom - corner))
           (start (Math_max (right - cornerext) (left + corner)) top
              new_Pen))))
    else if bottom <? py pn then
      turn right top (turn left top (turn left bottom
        (point (px pn) (py pn)
               (Math_max (right - cornerext) (left + corner)) bottom
           (start right (Math_max (bottom - cornerext) (top + corner))
              new_Pen))))
    else
      let y := Math_min (Math_max (py pn + base / 3) (top + corner + base))
                        (bottom - corner) in
      turn right top (turn left top (turn left bottom (turn right bottom
        (point (px pn) (py pn) right y
           (start right (Math_max (y - base) (top + corner)) new_Pen)))))
  else
    let x := Math_min (Math_max (px pn + base / 3) (left + corner + base))
                      (right - corner) in
    if py pn <? top then
      turn left top (turn left bottom (turn right bottom (turn right top
        (point (px pn) (py pn) x top
           (start (Math_max (x - base) (left + corner)) top new_Pen)))))
    else if bottom <? py pn then
      turn right bottom (turn right top (turn left top (turn left bottom
        (point (px pn) (py pn) (Math_max (x - base) (left + corner)) bottom
           (start x bottom new_Pen)))))
    else
      (* inside *)
      turn left bottom (turn right bottom (turn right top (turn left top
        (start left (top + rheight bb / 2) new_Pen)))).

(** [makeGeometry()].  Closing the last segment of a figure that has no
    segment is a TypeError ([last()] returns null). *)
Definition makeGeometry (l : t) : completion Geometry :=
  match fromNode l with
  | None => Return new_Geometry
  | Some n =>
      let bb := balloon_bounds n in
      let pen := outline l bb in
      match fig_segments pen with
      | [] => Throw "TypeError: fig.segments.last() is null"
      | _ :: _ =>
          Return
            (mkGeometry
               [mkFigure (fig_startX pen) (fig_startY pen)
                         (fig_segments pen) true]
               [mkPoint (- rx (routeBounds l)) (- ry (routeBounds l))])
      end
  end.

(** Every arc of the figure has radius [r] in both directions. *)
Definition arc_radius_is (r : number) (s : PathSegment) : Prop :=
  match s with
  | Arc _ _ _ _ a b => a = r /\ b = r
  | Line _ _ => True
  end.

Lemma start_arcs (r x y : number) (p : Pen) :
  Forall (arc_radius_is r) (fig_segments p) ->
  Forall (arc_radius_is r) (fig_segments (start x y p)).
Proof. intros H. exact H. Qed.

Lemma point_arcs (r x y v w : number) (p : Pen) :
  Forall (arc_radius_is r) (fig_segments p) ->
  Forall (arc_radius_is r) (fig_segments (point x y v w p)).
Proof.
  intros H. unfold point. simpl. apply Forall_app. split; [exact H | ].
  repeat constructor.
Qed.

Lemma turn_arcs (r x y : number) (p : Pen) :
  Forall (arc_radius_is r) (fig_segments p) ->
  Forall (arc_radius_is r) (fig_segments (turn r x y p)).
Proof.
  intros H. unfold turn. cbn [fig_segments]. apply Forall_app.
  split; [exact H | ].
  repeat match goal with |- context [if ?c then _ else _] => destruct c end;
    repeat constructor.
Qed.

Lemma outline_arcs (l : t) (bb : Rect) :
  Forall (arc_radius_is (used_corner l bb)) (fig_segments (outline l bb)).
Proof.
  unfold outline. cbv zeta.
  repeat match goal with
         | |- context [if (?a <? ?b) then _ else _] => destruct (a <? b)
         end;
    repeat first [apply turn_arcs | apply point_arcs | apply start_arcs];
    constructor.
Qed.

(** ** Clamping 0 from below and a bound from above *)

Lemma SFcompare_opp (p q : spec_float) (c : comparison) :
  SFcompare p q = Some c -> SFcompare q p = Some (CompOpp c).
Proof.
  destruct p as [s | s | | s m e], q as [s' | s' | | s' m' e'];
    simpl; intros H; inversion H; subst; clear H;
    try (destruct s; reflexivity); try (destruct s'; reflexivity);
    try (destruct s, s'; reflexivity).
  assert (Hm : Pos.compare_cont Eq m' m = CompOpp (Pos.compare_cont Eq m m'))
    by (symmetry; apply (Pos.compare_cont_antisym m m' Eq)).
  rewrite (Z.compare_antisym e e'), Hm.
  destruct s, s'; simpl; try reflexivity;
    destruct (e ?= e')%Z; simpl; try reflexivity;
    destruct (Pos.compare_cont Eq m m'); reflexivity.
Qed.

Lemma ltb_asym (x y : float) : (x <? y) = true -> (y <? x) = false.
Proof.
  rewrite !FloatAxioms.ltb_spec. unfold SFltb.
  destruct (SFcompare (Prim2SF x) (Prim2SF y)) as [c | ] eqn:E;
    [ | discriminate].
  rewrite (SFcompare_opp _ _ _ E). destruct c; simpl; congruence.
Qed.

Lemma ltb_not_nan (x y : float) :
  (x <? y) = true -> is_nan x = false /\ is_nan y = false.
Proof.
  intros H. apply FloatFacts.ltb_leb in H. split.
  - exact (FloatFacts.leb_not_nan_l _ _ H).
  - exact (FloatFacts.leb_not_nan_r _ _ H).
Qed.

Lemma Math_max_lt (a b : float) : (a <? b) = true -> Math_max a b = b.
Proof.
  intros H. destruct (ltb_not_nan _ _ H) as [Ha Hb].
  unfold Math_max. rewrite Ha, Hb, H. reflexivity.
Qed.

Lemma Math_max_gt (a b : float) : (b <? a) = true -> Math_max a b = a.
Proof.
  intros H. destruct (ltb_not_nan _ _ H) as [Hb Ha].
  unfold Math_max. rewrite Ha, Hb, (ltb_asym _ _ H), H. reflexivity.
Qed.

Lemma Math_min_lt (a b : float) : (a <? b) = true -> Math_min a b = a.
Proof.
  intros H. destruct (ltb_not_nan _ _ H) as [Ha Hb].
  unfold Math_min. rewrite Ha, Hb, H. reflexivity.
Qed.

Lemma Math_min_gt (a b : float) : (b <? a) = true -> Math_min a b = b.
Proof.
  intros H. destruct (ltb_not_nan _ _ H) as [Hb Ha].
  unfold Math_min. rewrite Ha, Hb, (ltb_asym _ _ H), H. reflexivity.
Qed.

(** Clamping at 0 a second time changes nothing, NaN included. *)
Lemma Math_max_0_idem (b : float) : Math_max 0 (Math_max 0 b) = Math_max 0 b.
Proof.
  assert (H : Math_max 0 b = nan \/ Math_max 0 b = 0
              \/ ((0 <? b) = true /\ Math_max 0 b = b)).
  { unfold Math_max. destruct (is_nan b) eqn:Hb.
    - rewrite orb_true_r. left. reflexivity.
    - change (is_nan 0 || false) with false. cbv iota. right.
      destruct (0 <? b) eqn:E1; [right; split; reflexivity | left].
      destruct (b <? 0); [reflexivity | ].
      change (get_sign 0) with false. reflexivity. }
  destruct H as [H | [H | [E H]]]; rewrite H; try reflexivity.
  exact (Math_max_lt _ _ E).
Qed.

(** ** The triangle on a side of the rectangle *)

(** The side of the bounds that the far point lies at, when it lies
    straight above, below, left or right of them. *)
Inductive Side : Type := Above | Below | LeftOf | RightOf.

Definition side_of (pn : Point) (bb : Rect) : option Side :=
  if px pn <? Rect_left bb then
    if (py pn <? Rect_top bb) || (Rect_bottom bb <? py pn) then None
    else Some LeftOf
  else if Rect_right bb <? px pn then
    if (py pn <? Rect_top bb) || (Rect_bottom bb <? py pn) then None
    else Some RightOf
  else if py pn <? Rect_top bb then Some Above
  else if Rect_bottom bb <? py pn then Some Below
  else None.

(** The two ends of the triangle's base, the start [(sx, sy)] of the
    figure and the end [(v, w)] of its second line, lie on that side of
    the bounds, and the one that is drawn first along the side is at most
    the base [b] before the other, short of the corner [r]. *)
Definition triangle_base (side : Side) (bb : Rect) (b r sx sy v w : number)
  : Prop :=
  match side with
  | Above =>
      sy = Rect_top bb /\ w = Rect_top bb
      /\ sx = Math_max (v - b) (Rect_left bb + r)
  | Below =>
      sy = Rect_bottom bb /\ w = Rect_bottom bb
      /\ v = Math_max (sx - b) (Rect_left bb + r)
  | LeftOf =>
      sx = Rect_left bb /\ v = Rect_left bb
      /\ w = Math_max (sy - b) (Rect_top bb + r)
  | RightOf =>
      sx = Rect_right bb /\ v = Rect_right bb
      /\ sy = Math_max (w - b) (Rect_top bb + r)
  end.

(** The figure starts at [(sx, sy)] and begins with a line to [pn] and a
    line to [(v, w)]. *)
Definition begins (pn : Point) (sx sy v w : number) (p : Pen) : Prop :=
  fig_startX p = sx /\ fig_startY p = sy
  /\ exists rest, fig_segments p = Line (px pn) (py pn) :: Line v w :: rest.

Lemma point_begins (pn : Point) (sx sy v w : number) :
  begins pn sx sy v w (point (px pn) (py pn) v w (start sx sy new_Pen)).
Proof. unfold begins. cbn. repeat split. exists []. reflexivity. Qed.

Lemma turn_begins (pn : Point) (sx sy v w c x y : number) (p : Pen) :
  begins pn sx sy v w p -> begins pn sx sy v w (turn c x y p).
Proof.
  intros (A & B & rest & E). unfold begins, turn.
  cbn [fig_startX fig_startY fig_segments]. rewrite E.
  split; [exact A | ]. split; [exact B | ].
  eexists. cbn [app]. reflexivity.
Qed.

Lemma outline_triangle_base (l : t) (bb : Rect) (side : Side) :
  side_of (far_point l bb) bb = Some side ->
  exists sx sy v w,
    begins (far_point l bb) sx sy v w (outline l bb)
    /\ triangle_base side bb (Math_max 0 (_base l))
         (Math_min (Math_max 0 (corner l))
            (Math_min (rwidth bb / 2) (rheight bb / 2)))
         sx sy v w.
Proof.
  unfold side_of, outline. cbv zeta. fold (used_base l) (used_corner l bb).
  set (pn := far_point l bb).
  destruct (px pn <? Rect_left bb);
    [ destruct (py pn <? Rect_top bb); cbn [orb];
      [discriminate | destruct (Rect_bottom bb <? py pn); [discriminate | ]]
    | destruct (Rect_right bb <? px pn);
      [ destruct (py pn <? Rect_top bb); cbn [orb];
        [discriminate | destruct (Rect_bottom bb <? py pn); [discriminate | ]]
      | destruct (py pn <? Rect_top bb);
        [ | destruct (Rect_bottom bb <? py pn); [ | discriminate]] ] ];
    intros H; inversion H; subst side; clear H;
    do 4 eexists;
    (split; [repeat apply turn_begins; apply point_begins | ]);
    cbn [triangle_base]; repeat split.
Qed.

Lemma outline_with_base (l : t) (bb : Rect) :
  outline (with_base (Math_max 0 (_base l)) l) bb = outline l bb.
Proof.
  unfold outline, used_base, used_corner, far_point, with_base.
  cbn [_base corner toNode points]. rewrite Math_max_0_idem. reflexivity.
Qed.

(** C10 (as amended): with no from node the method returns a fresh empty
    Geometry and does not throw.  With a from node and margin-expanded
    bounds [bb]:
    - every arc of the Geometry has the radius
      [r = min(max(0, corner), min(width/2, height/2))], which is the stored
      corner when that lies strictly between 0 and the smaller half, the
      smaller half when the corner exceeds it, 0 when the corner is
      negative, and which lies between 0 and the smaller half whenever the
      stored corner is not NaN (the halves being at least 0);
    - the Geometry is the one that the link gives with [max(0, base)]
      stored as its base, so a negative base acts as the base 0, and
      [max(0, base)] is at least 0 whenever the stored base is not NaN;
    - when the far point is straight above, below, left or right of the
      bounds, the method returns a Geometry whose triangle has its base on
      that side, [max(0, base)] wide unless the corner cuts it short. *)
Theorem makeGeometry_clamps (l : t) :
  (fromNode l = None -> makeGeometry l = Return new_Geometry)
  /\ (forall n, fromNode l = Some n ->
      let bb := balloon_bounds n in
      let half := Math_min (rwidth bb / 2) (rheight bb / 2) in
      let r := Math_min (Math_max 0 (corner l)) half in
      let b := Math_max 0 (_base l) in
      (forall g f s, makeGeometry l = Return g ->
         In f (figures g) -> In s (segments f) -> arc_radius_is r s)
      /\ (is_nan (corner l) = false ->
          (0 <=? rwidth bb / 2) = true -> (0 <=? rheight bb / 2) = true ->
          (0 <=? r) = true /\ (r <=? half) = true)
      /\ ((0 <? corner l) = true -> (corner l <? half) = true -> r = corner l)
      /\ ((0 <? corner l) = true -> (half <? corner l) = true -> r = half)
      /\ ((corner l <? 0) = true -> (0 <? half) = true -> r = 0)
      /\ makeGeometry l = makeGeometry (with_base b l)
      /\ ((_base l <? 0) = true ->
          makeGeometry l = makeGeometry (with_base 0 l))
      /\ (is_nan (_base l) = false -> (0 <=? b) = true)
      /\ (forall side, side_of (far_point l bb) bb = Some side ->
          exists sx sy x y v w rest,
            makeGeometry l =
              Return
                (mkGeometry
                   [mkFigure sx sy (Line x y :: Line v w :: rest) true]
                   [mkPoint (- rx (routeBounds l)) (- ry (routeBounds l))])
            /\ triangle_base side bb b r sx sy v w)).
Proof.
  split; [intros H; unfold makeGeometry; rewrite H; reflexivity | ].
  intros n Hn bb half r b.
  assert (Hbase : makeGeometry l = makeGeometry (with_base b l)).
  { unfold makeGeometry. cbn [with_base fromNode routeBounds]. rewrite Hn.
    fold bb. unfold b. rewrite outline_with_base. reflexivity. }
  split; [ | split; [ | split; [ | split; [ | split;
    [ | split; [ | split; [ | split]]]]]]].
  - intros g f s Hg Hf Hs. unfold makeGeometry in Hg. rewrite Hn in Hg.
    fold bb in Hg. pose proof (outline_arcs l bb) as Harcs.
    destruct (fig_segments (outline l bb)) as [ | s0 segs] eqn:E;
      [discriminate Hg | ].
    inversion Hg; subst g; clear Hg. simpl in Hf.
    destruct Hf as [<- | []]. simpl in Hs.
    rewrite Forall_forall in Harcs. apply Harcs, Hs.
  - intros Hc Hw Hh. unfold r, half.
    assert (H0 : is_nan 0 = false) by reflexivity.
    pose proof (FloatFacts.Math_max_ge_l 0 (corner l) H0 Hc) as Hmax.
    pose proof (FloatFacts.Math_min_ge 0 _ _ Hw Hh) as Hmin.
    split.
    + apply FloatFacts.Math_min_ge; assumption.
    + apply FloatFacts.Math_min_le_r.
      * exact (FloatFacts.leb_not_nan_r _ _ Hmax).
      * exact (FloatFacts.leb_not_nan_r _ _ Hmin).
  - intros H0 H1. unfold r. rewrite (Math_max_lt _ _ H0).
    exact (Math_min_lt _ _ H1).
  - intros H0 H1. unfold r. rewrite (Math_max_lt _ _ H0).
    exact (Math_min_gt _ _ H1).
  - intros H0 H1. unfold r. rewrite (Math_max_gt _ _ H0).
    exact (Math_min_lt _ _ H1).
  - exact Hbase.
  - intros H0. rewrite Hbase. unfold b. rewrite (Math_max_gt _ _ H0).
    reflexivity.
  - intros Hb. unfold b.
    apply FloatFacts.Math_max_ge_l; [reflexivity | exact Hb].
  - intros side Hside.
    destruct (outline_triangle_base l bb side Hside)
      as (sx & sy & v & w & (A & B & rest & E) & T).
    exists sx, sy, (px (far_point l bb)), (py (far_point l bb)), v, w, rest.
    split; [ | exact T].
    unfold makeGeometry. rewrite Hn. fold bb. rewrite E, A, B. reflexivity.
Qed.

End MakeGeometry.

(** [Rect.addMargin] as plain arithmetic on the four sides. *)
Definition plain_addMargin (r : Rect) (m : Margin) : Rect :=
  mkRect (rx r - mleft m) (ry r - mtop m)
         (rwidth r + mleft m + mright m) (rheight r + mtop m + mbottom m).

(** A balloon around a 100 by 50 comment, pointing at (200, 200). *)
Definition sample_balloon : t :=
  mk 15 10 (Some (mkNode (mkRect 0 0 100 50) (mkMargin 0 0 0 0))) None
     [mkPoint 50 25; mkPoint 200 200] (mkRect 0 0 200 200) [].

Example makeGeometry_sample :
  makeGeometry plain_addMargin (fun _ _ => false) sample_balloon =
    Return
      (mkGeometry
         [mkFigure 100 35
            [Line 200 200; Line 85 50; Line 10 50; Arc 90 90 10 40 10 10;
             Line 0 10; Arc 180 90 10 10 10 10; Line 90 0;
             Arc 270 90 90 10 10 10]
            true]
         [mkPoint (-0) (-0)]).
Proof. vm_compute. reflexivity. Qed.

(** The same balloon with a negative base stored. *)
Definition sample_negative_base : t := with_base (-5) sample_balloon.

Lemma makeGeometry_clamps_witness :
  ((0 <=? Math_min (Math_max 0 10) (Math_min (100 / 2) (50 / 2))) = true
   /\ (Math_min (Math_max 0 10) (Math_min (100 / 2) (50 / 2))
       <=? Math_min (100 / 2) (50 / 2)) = true)
  /\ makeGeometry plain_addMargin (fun _ _ => false) sample_negative_base
     = makeGeometry plain_addMargin (fun _ _ => false)
         (with_base 0 sample_negative_base).
Proof.
  destruct (proj2 (makeGeometry_clamps plain_addMargin (fun _ _ => false)
                     sample_negative_base)
              (mkNode (mkRect 0 0 100 50) (mkMargin 0 0 0 0)) eq_refl)
    as (_ & R & _ & _ & _ & _ & B & _).
  split.
  - apply R; vm_compute; reflexivity.
  - apply B. vm_compute. reflexivity.
Defined.

(** With the negative base the triangle has no width: both of its sides
    end at the bottom right corner of the bounds. *)
Example makeGeometry_negative_base :
  makeGeometry plain_addMargin (fun _ _ => false) sample_negative_base =
    Return
      (mkGeometry
         [mkFigure 100 50
            [Line 200 200; Line 100 50; Line 10 50; Arc 90 90 10 40 10 10;
             Line 0 10; Arc 180 90 10 10 10 10; Line 90 0;
             Arc 270 90 90 10 10 10]
            true]
         [mkPoint (-0) (-0)]).
Proof. vm_compute. reflexivity. Qed.

(** The sample_balloon after [base = NaN], which the setter accepts. *)
Definition sample_NaN_base : t :=
  mk nan 10 (fromNode sample_balloon) (toNode sample_balloon) (points sample_balloon)
     (routeBounds sample_balloon) [RaiseChangedEvent "base" 15 nan].

(** C10 (as stated) fails: a stored base of NaN, which [set base] stores
    without complaint, is not clamped.  The working base is NaN, not a
    number that is at least 0, and NaN coordinates reach the Geometry. *)
Lemma makeGeometry_NaN_base_not_clamped :
  set_base (VNumber nan) sample_balloon = (Return tt, sample_NaN_base)
  /\ (exists n, fromNode sample_NaN_base = Some n)
  /\ used_base sample_NaN_base = nan
  /\ (0 <=? used_base sample_NaN_base) = false
  /\ makeGeometry plain_addMargin (fun _ _ => false) sample_NaN_base =
       Return
         (mkGeometry
            [mkFigure 100 nan
               [Line 200 200; Line nan 50; Line 0 10;
                Arc 180 90 10 10 10 10; Line 90 0; Arc 270 90 90 10 10 10]
               true]
            [mkPoint (-0) (-0)]).
Proof.
  split; [vm_compute; reflexivity | ].
  split; [eexists; reflexivity | ].
  split; [vm_compute; reflexivity | ].
  split; vm_compute; reflexivity.
Qed.

End BalloonLink.

(* ================================================================== *)
(** * extensionsJSM/DoubleTreeLayout.ts *)

Module DoubleTreeLayout.

Import Parts.

(** The two properties of the layout that the separation reads: the
    direction function and, when the layout belongs to a diagram, that
    diagram's [isTreePathToChildren].  [None] for the direction function
    is the value for which [isPositiveDirection] throws; the constructor
    stores a function and the setter rejects what is not one, so a layout
    has it only if the field has been written by other means. *)
Record Layout : Type := mkLayout {
  directionFunction : option (nat -> bool);
  diagram : option bool }.

Section Separate.

(** The diagram's graph of Nodes and Links is the host library's.  Its
    state is abstract; these are the methods of [go.Node] and [go.Link]
    that the layout calls, reading or changing that state. *)
Variable Graph : Type.
Variable findTreeParentNode : Graph -> nat -> option nat.
Variable findTreeChildrenNodes : Graph -> nat -> list nat.
Variable findTreeParts : Graph -> nat -> list Part.
Variable findTreeParentLink : Graph -> nat -> option nat.
Variable new_Node : Graph -> nat * Graph.
Variable new_Link : Graph -> nat * Graph.
Variable set_location : nat -> Point -> Graph -> Graph.
Variable set_fromNode : nat -> nat -> Graph -> Graph.
Variable set_toNode : nat -> nat -> Graph -> Graph.

(** The graph and the two collections that the method fills. *)
Record World : Type := mkWorld {
  graph : Graph;
  leftParts : GoSet;
  rightParts : GoSet }.

Variable lay : Layout.

(** [roots]: the Nodes of the collection without a tree parent. *)
Definition find_roots (g : Graph) (coll : GoSet) : GoSet :=
  fold_left
    (fun roots p =>
       match p with
       | Node n =>
           match findTreeParentNode g n with
           | None => Set_add (Node n) roots
           | Some _ => roots
           end
       | _ => roots
       end)
    coll [].

(** The first Node of the collection, if any. *)
Fixpoint first_Node (coll : GoSet) : option nat :=
  match coll with
  | [] => None
  | Node n :: _ => Some n
  | _ :: rest => first_Node rest
  end.

(** A dummy link between the dummy root and one of the roots. *)
Definition add_dummy_link (forwards : bool) (root : nat) (g : Graph) (child : Part)
  : Graph :=
  match child with
  | Node c =>
      let '(link, g1) := new_Link g in
      if forwards
      then set_toNode link c (set_fromNode link root g1)
      else set_toNode link root (set_fromNode link c g1)
  | _ => g
  end.

(** The choice of the one root, and the graph after it. *)
Definition choose_root (g : Graph) (coll : GoSet) : option nat * Graph :=
  match find_roots g coll with
  | [] => (first_Node coll, g)
  | [Node r] => (Some r, g)
  | [_] => (None, g)     (* not reached: [roots] holds Nodes only *)
  | roots =>
      let '(root, g1) := new_Node g in
      let g2 := set_location root (mkPoint 0%float 0%float) g1 in
      let forwards :=
        match diagram lay with Some d => d | None => true end in
      (Some root, fold_left (add_dummy_link forwards root) roots g2)
  end.

(** [isPositiveDirection(child)] *)
Definition isPositiveDirection (child : nat) : method World bool :=
  match directionFunction lay with
  | None => throw "No DoubleTreeLayout.directionFunction supplied on the layout"
  | Some f => ret (f child)
  end.

Definition add_to (bottomright : bool) (ps : list Part) : method World unit :=
  modify (fun w =>
    if bottomright
    then mkWorld (graph w) (leftParts w) (Set_addAll ps (rightParts w))
    else mkWorld (graph w) (Set_addAll ps (leftParts w)) (rightParts w)).

(** The body of the loop over the children of the root. *)
Definition place_child (child : nat) : method World unit :=
  bottomright <- isPositiveDirection child ;;
  w <- get ;;
  add_to bottomright (findTreeParts (graph w) child) ;;;
  match findTreeParentLink (graph w) child with
  | Some plink => add_to bottomright [Link plink]
  | None => ret tt
  end.

Fixpoint each (children : list nat) : method World unit :=
  match children with
  | [] => ret tt
  | child :: rest => place_child child ;;; each rest
  end.

(** [separatePartsForLayout(coll, leftParts, rightParts)] *)
Definition separatePartsForLayout (coll : GoSet) : method World unit :=
  w <- get ;;
  let '(root, g) := choose_root (graph w) coll in
  modify (fun w => mkWorld g (leftParts w) (rightParts w)) ;;;
  match root with
  | None => ret tt
  | Some root =>
      add_to false [Node root] ;;;
      add_to true [Node root] ;;;
      each (findTreeChildrenNodes g root)
  end.

(** What a child of the root brings along: the Parts of its subtree and
    its tree-parent link. *)
Definition brings (g : Graph) (child : nat) (x : Part) : Prop :=
  In x (findTreeParts g child)
  \/ exists l, findTreeParentLink g child = Some l /\ x = Link l.

Lemma find_roots_In (g : Graph) (coll : GoSet) (x : Part) :
  In x (find_roots g coll) <->
  exists n, x = Node n /\ In (Node n) coll /\ findTreeParentNode g n = None.
Proof.
  unfold find_roots.
  assert (G : forall acc,
    In x (fold_left
            (fun roots p =>
               match p with
               | Node n =>
                   match findTreeParentNode g n with
                   | None => Set_add (Node n) roots
                   | Some _ => roots
                   end
               | _ => roots
               end) coll acc) <->
    In x acc \/ exists n, x = Node n /\ In (Node n) coll
                          /\ findTreeParentNode g n = None).
  { induction coll as [ | p coll IH]; intros acc; cbn [fold_left In].
    - split; [auto | intros [H | (n & _ & [] & _)]; exact H].
    - rewrite IH.
      assert (Hinv : forall a b : nat, Node a = Node b -> a = b)
        by (intros a b H; inversion H; reflexivity).
      destruct p as [n | l | i];
        [destruct (findTreeParentNode g n) eqn:E; [ | rewrite Set_add_In] | | ];
        (split;
         [ intros [H | (n' & -> & H1 & H2)]; [ | eauto 7]
         | intros [H | (n' & -> & [H1 | H1] & H2)]; [ | | eauto 7] ]);
        try discriminate H1; try (left; exact H);
        try (apply Hinv in H1; subst n'); try congruence; auto.
      destruct H as [-> | H]; eauto 7. }
  rewrite G. cbn [In]. tauto.
Qed.

Lemma add_to_run (b : bool) (ps : list Part) (w : World) :
  add_to b ps w =
    (Return tt,
     if b then mkWorld (graph w) (leftParts w) (Set_addAll ps (rightParts w))
     else mkWorld (graph w) (Set_addAll ps (leftParts w)) (rightParts w)).
Proof. reflexivity. Qed.

(** One child: its subtree and parent link go to the side that the
    direction function names, and nothing else changes. *)
Lemma place_child_spec (f : nat -> bool) (child : nat) (w : World) :
  directionFunction lay = Some f ->
  exists w',
    place_child child w = (Return tt, w')
    /\ graph w' = graph w
    /\ (forall x, In x (leftParts w') <->
          In x (leftParts w) \/ (f child = false /\ brings (graph w) child x))
    /\ (forall x, In x (rightParts w') <->
          In x (rightParts w) \/ (f child = true /\ brings (graph w) child x)).
Proof.
  intros Hf. unfold place_child, isPositiveDirection, brings. rewrite Hf.
  unfold bind, ret, get. rewrite add_to_run.
  destruct (f child); destruct (findTreeParentLink (graph w) child) as [l | ];
    cbn [graph leftParts rightParts]; try rewrite add_to_run;
    cbn [graph leftParts rightParts];
    eexists; (split; [reflexivity | ]); (split; [reflexivity | ]);
    cbn [graph leftParts rightParts]; split; intros x;
    repeat rewrite Set_addAll_In; cbn [In]; split; intros H;
    try tauto.
  all: try (destruct H as [H | [E _]]; [exact H | discriminate E]).
  all: try (destruct H as [[<- | []] | [H | H]]; eauto 8; tauto).
  all: try (destruct H as [H | [_ [H | (l' & E & ->)]]]; auto;
            inversion E; subst l'; auto).
  all: try (destruct H as [H | [_ [H | (l' & E & _)]]]; auto; discriminate E).
Qed.

Lemma each_spec (f : nat -> bool) (children : list nat) (w : World) :
  directionFunction lay = Some f ->
  exists w',
    each children w = (Return tt, w')
    /\ graph w' = graph w
    /\ (forall x, In x (leftParts w') <->
          In x (leftParts w)
          \/ exists c, In c children /\ f c = false /\ brings (graph w) c x)
    /\ (forall x, In x (rightParts w') <->
          In x (rightParts w)
          \/ exists c, In c children /\ f c = true /\ brings (graph w) c x).
Proof.
  intros Hf. revert w. induction children as [ | c rest IH]; intros w.
  - exists w. cbn [each In]. unfold ret.
    repeat split; auto; intros [H | (c & [] & _)]; exact H.
  - destruct (place_child_spec f c w Hf) as (w1 & E1 & G1 & L1 & R1).
    destruct (IH w1) as (w2 & E2 & G2 & L2 & R2).
    exists w2. cbn [each]. unfold bind. rewrite E1, E2.
    split; [reflexivity | ]. split; [congruence | ].
    rewrite G1 in L2, R2. split; intros x.
    + rewrite L2, L1. cbn [In]. split.
      * intros [[H | [H1 H2]] | (c' & H1 & H2 & H3)]; eauto 8.
      * intros [H | (c' & [<- | H1] & H2 & H3)]; eauto 8.
    + rewrite R2, R1. cbn [In]. split.
      * intros [[H | [H1 H2]] | (c' & H1 & H2 & H3)]; eauto 8.
      * intros [H | (c' & [<- | H1] & H2 & H3)]; eauto 8.
Qed.

(** [first_Node] finds the Node that no other Node precedes. *)
Lemma first_Node_spec (coll : GoSet) (n : nat) :
  first_Node coll = Some n <->
  exists pre post,
    coll = pre ++ Node n :: post
    /\ forall p, In p pre -> instanceof_Node p = false.
Proof.
  induction coll as [ | p coll IH]; cbn [first_Node].
  - split; [discriminate | ]. intros (pre & post & E & _).
    destruct pre; discriminate E.
  - destruct p as [m | l | i].
    + split.
      * intros E. inversion E; subst m. exists [], coll. split; [reflexivity | ].
        intros p [].
      * intros (pre & post & E & Hpre). destruct pre as [ | q pre].
        -- inversion E. reflexivity.
        -- inversion E; subst q. specialize (Hpre (Node m) (or_introl eq_refl)).
           discriminate Hpre.
    + rewrite IH. split.
      * intros (pre & post & -> & Hpre). exists (Link l :: pre), post.
        split; [reflexivity | ]. intros p [<- | H]; [reflexivity | auto].
      * intros (pre & post & E & Hpre). destruct pre as [ | q pre];
          [discriminate E | ].
        inversion E; subst. exists pre, post. split; [reflexivity | ].
        intros p H. apply Hpre. right. exact H.
    + rewrite IH. split.
      * intros (pre & post & -> & Hpre). exists (Plain i :: pre), post.
        split; [reflexivity | ]. intros p [<- | H]; [reflexivity | auto].
      * intros (pre & post & E & Hpre). destruct pre as [ | q pre];
          [discriminate E | ].
        inversion E; subst. exists pre, post. split; [reflexivity | ].
        intros p H. apply Hpre. right. exact H.
Qed.

(** ** The root, as the description of the method has it *)

(** [n] is the first Node of the collection. *)
Definition is_first_Node (coll : GoSet) (n : nat) : Prop :=
  exists pre post,
    coll = pre ++ Node n :: post
    /\ forall p, In p pre -> instanceof_Node p = false.

(** One new Link for each of the roots in turn, between the dummy root
    and that root: from the dummy root when the tree path goes to the
    children, and towards it otherwise. *)
Inductive linked (forwards : bool) (dummy : nat)
  : list Part -> Graph -> Graph -> Prop :=
| linked_nil (g : Graph) : linked forwards dummy [] g g
| linked_cons (c : nat) (rest : list Part) (g g1 g' : Graph) (lk : nat) :
    new_Link g = (lk, g1) ->
    linked forwards dummy rest
      (if forwards
       then set_toNode lk c (set_fromNode lk dummy g1)
       else set_toNode lk dummy (set_fromNode lk c g1))
      g' ->
    linked forwards dummy (Node c :: rest) g g'.

Lemma first_Node_None (coll : GoSet) :
  first_Node coll = None -> forall p, In p coll -> instanceof_Node p = false.
Proof.
  induction coll as [ | q coll IH]; intros H p Hp; [destruct Hp | ].
  destruct q as [m | k | i]; cbn [first_Node] in H; try discriminate H;
    (destruct Hp as [<- | Hp]; [reflexivity | exact (IH H p Hp)]).
Qed.

Lemma fold_linked (forwards : bool) (dummy : nat) (roots : list Part) :
  forall g,
  (forall x, In x roots -> exists n, x = Node n) ->
  linked forwards dummy roots g
    (fold_left (add_dummy_link forwards dummy) roots g).
Proof.
  induction roots as [ | x roots IH]; intros g Hn; [constructor | ].
  destruct (Hn x (or_introl eq_refl)) as [c ->].
  cbn [fold_left]. unfold add_dummy_link at 2.
  destruct (new_Link g) as [lk g1] eqn:E.
  apply (linked_cons forwards dummy c roots g g1 _ lk E).
  apply IH. intros y Hy. apply Hn. right. exact Hy.
Qed.

Lemma find_roots_NoDup (g : Graph) (coll : GoSet) :
  NoDup (find_roots g coll).
Proof.
  unfold find_roots.
  assert (G : forall acc, NoDup acc ->
    NoDup (fold_left
             (fun roots p =>
                match p with
                | Node n =>
                    match findTreeParentNode g n with
                    | None => Set_add (Node n) roots
                    | Some _ => roots
                    end
                | _ => roots
                end) coll acc)).
  { induction coll as [ | p coll IH]; intros acc Hacc; [exact Hacc | ].
    cbn [fold_left]. apply IH. destruct p as [n | l | i]; try exact Hacc.
    destruct (findTreeParentNode g n); [exact Hacc | ].
    apply Set_add_NoDup, Hacc. }
  apply G. constructor.
Qed.

(** The root and the graph that the choice of the root leaves: with no
    root among the Nodes, the first Node of the collection (none if the
    collection has no Node) and the graph as it was; with one root, that
    root and the graph as it was; with several, a new Node, placed at the
    origin and linked to each of the roots. *)
Definition chosen (coll roots : GoSet) (g0 : Graph) (root : option nat)
  (g : Graph) : Prop :=
  (roots = [] ->
   g = g0
   /\ match root with
      | Some n => is_first_Node coll n
      | None => forall p, In p coll -> instanceof_Node p = false
      end)
  /\ (forall r, roots = [Node r] -> root = Some r /\ g = g0)
  /\ (2 <= List.length roots ->
      exists dummy g1,
        new_Node g0 = (dummy, g1)
        /\ root = Some dummy
        /\ linked (match diagram lay with Some d => d | None => true end)
             dummy roots (set_location dummy (mkPoint 0%float 0%float) g1) g).

Lemma choose_root_chosen (g0 : Graph) (coll : GoSet) :
  chosen coll (find_roots g0 coll) g0
    (fst (choose_root g0 coll)) (snd (choose_root g0 coll)).
Proof.
  assert (Hnodes : forall x, In x (find_roots g0 coll) -> exists n, x = Node n).
  { intros x Hx. apply find_roots_In in Hx. destruct Hx as (n & -> & _).
    exists n. reflexivity. }
  unfold chosen, choose_root.
  destruct (find_roots g0 coll) as [ | r1 [ | r2 rest]] eqn:E.
  - split; [ | split; [intros r H; discriminate H
                       | cbn [List.length]; lia]].
    intros _. cbn [fst snd]. split; [reflexivity | ].
    destruct (first_Node coll) as [n | ] eqn:F.
    + apply first_Node_spec, F.
    + apply first_Node_None, F.
  - split; [intros H; discriminate H | ].
    split; [ | cbn [List.length]; lia].
    intros r H. inversion H; subst r1. split; reflexivity.
  - split; [intros H; discriminate H | ].
    split; [intros r H; discriminate H | ].
    intros _.
    destruct (new_Node g0) as [d g1] eqn:En.
    exists d, g1. split; [reflexivity | ].
    destruct r1 as [n1 | l1 | i1]; cbn [fst snd];
      (split; [reflexivity | ]); apply fold_linked; exact Hnodes.
Qed.

(** C5: [separatePartsForLayout] with a direction function [f] returns
    normally.  The roots are the Nodes of the collection without a tree
    parent, each once.  With no root, the first Node of the collection is
    the root; with one, that one is; with several, the root is a new Node,
    placed at the origin and joined by a new Link to each of the roots
    (from the new Node when the tree path goes to the children, towards it
    otherwise).  The root is added to both collections, and every child
    of the root brings the Parts of its subtree and its tree-parent link
    to the right collection when [f] is true of it and to the left
    collection when it is false; nothing else is added. *)
Theorem separatePartsForLayout_spec
  (f : nat -> bool) (coll : GoSet) (w : World) :
  directionFunction lay = Some f ->
  let roots := find_roots (graph w) coll in
  (forall x, In x roots <->
     exists n, x = Node n /\ In (Node n) coll
               /\ findTreeParentNode (graph w) n = None)
  /\ NoDup roots
  /\ exists root g w',
       separatePartsForLayout coll w = (Return tt, w')
       /\ graph w' = g
       /\ chosen coll roots (graph w) root g
       /\ match root with
          | None =>
              leftParts w' = leftParts w /\ rightParts w' = rightParts w
          | Some r =>
              (forall x, In x (leftParts w') <->
                 In x (leftParts w) \/ x = Node r
                 \/ exists c, In c (findTreeChildrenNodes g r)
                              /\ f c = false /\ brings g c x)
              /\ (forall x, In x (rightParts w') <->
                 In x (rightParts w) \/ x = Node r
                 \/ exists c, In c (findTreeChildrenNodes g r)
                              /\ f c = true /\ brings g c x)
          end.
Proof.
  intros Hf roots.
  split; [intros x; apply find_roots_In | ].
  split; [apply find_roots_NoDup | ].
  pose proof (choose_root_chosen (graph w) coll) as Hch. fold roots in Hch.
  exists (fst (choose_root (graph w) coll)), (snd (choose_root (graph w) coll)).
  revert Hch.
  unfold separatePartsForLayout. unfold bind at 1. unfold get at 1.
  cbv beta iota.
  destruct (choose_root (graph w) coll) as [[r | ] g]; cbn [fst snd];
    intros Hch.
  - unfold bind at 1. unfold modify at 1. cbv beta iota.
    unfold bind at 1. rewrite add_to_run. cbv beta iota.
    unfold bind at 1. rewrite add_to_run. cbv beta iota.
    cbn [graph leftParts rightParts].
    destruct (each_spec f (findTreeChildrenNodes g r)
                (mkWorld g (Set_addAll [Node r] (leftParts w))
                   (Set_addAll [Node r] (rightParts w))) Hf)
      as (w' & E & G & L & R).
    exists w'. rewrite E. cbn [graph leftParts rightParts] in G, L, R.
    split; [reflexivity | ]. split; [exact G | ]. split; [exact Hch | ].
    split; intros x.
    + rewrite L, Set_addAll_In. cbn [In]. intuition (subst; auto).
    + rewrite R, Set_addAll_In. cbn [In]. intuition (subst; auto).
  - eexists. unfold bind, modify, ret.
    split; [reflexivity | ]. split; [reflexivity | ]. split; [exact Hch | ].
    split; reflexivity.
Qed.

End Separate.

(** A tree with root 1 and children 2 and 3, the links named after the
    child they lead to.  The graph's state plays no part in it. *)
Definition sample_parent (_ : unit) (n : nat) : option nat :=
  match n with 2 | 3 => Some 1 | _ => None end.

Definition sample_children (_ : unit) (n : nat) : list nat :=
  match n with 1 => [2; 3] | _ => [] end.

Definition sample_parts (_ : unit) (n : nat) : list Part := [Node n].

Definition sample_parentLink (_ : unit) (n : nat) : option nat :=
  match n with 2 | 3 => Some (10 + n) | _ => None end.

Definition sample_layout : Layout :=
  mkLayout (Some (fun n => Nat.eqb n 2)) None.

Definition sample_tree : GoSet := [Link 12; Node 1; Node 2; Node 3; Link 13].

Example separatePartsForLayout_sample :
  separatePartsForLayout unit sample_parent sample_children sample_parts
    sample_parentLink (fun g => (100, g)) (fun g => (200, g))
    (fun _ _ g => g) (fun _ _ g => g) (fun _ _ g => g)
    sample_layout sample_tree (mkWorld unit tt [] []) =
  (Return tt,
   mkWorld unit tt [Node 1; Node 3; Link 13] [Node 1; Node 2; Link 12]).
Proof. reflexivity. Qed.

(** A forest of two trees: root 1 with children 2 and 3, and root 4 with
    child 5.  The graph's state is the list of what has been done to it:
    the dummy root is node 100, the new Links are numbered from 200, and
    the children of the dummy root and their parent links are the ones
    that the dummy links make so. *)
Inductive Change : Type :=
| NewNode (n : nat)
| NewLink (l : nat)
| SetLocation (n : nat) (p : Point)
| SetFromNode (l n : nat)
| SetToNode (l n : nat).

Definition forest_parent (_ : list Change) (n : nat) : option nat :=
  match n with 2 | 3 => Some 1 | 5 => Some 4 | _ => None end.

Definition forest_children (g : list Change) (n : nat) : list nat :=
  match n with
  | 1 => [2; 3]
  | 4 => [5]
  | 100 =>
      flat_map (fun c => match c with
                         | SetToNode _ m => [m]
                         | _ => []
                         end) g
  | _ => []
  end.

Definition forest_parts (_ : list Change) (n : nat) : list Part :=
  match n with
  | 1 => [Node 1; Node 2; Node 3; Link 12; Link 13]
  | 4 => [Node 4; Node 5; Link 45]
  | _ => [Node n]
  end.

Definition forest_parentLink (g : list Change) (n : nat) : option nat :=
  match n with
  | 2 | 3 | 5 => Some (10 + n)
  | _ =>
      hd_error
        (flat_map (fun c => match c with
                            | SetToNode l m => if Nat.eqb m n then [l] else []
                            | _ => []
                            end) g)
  end.

Definition forest_new_Node (g : list Change) : nat * list Change :=
  (100, g ++ [NewNode 100]).

Definition forest_new_Link (g : list Change) : nat * list Change :=
  (200 + List.length g, g ++ [NewLink (200 + List.length g)]).

Definition forest_set_location (n : nat) (p : Point) (g : list Change)
  : list Change := g ++ [SetLocation n p].

Definition forest_set_fromNode (l n : nat) (g : list Change) : list Change :=
  g ++ [SetFromNode l n].

Definition forest_set_toNode (l n : nat) (g : list Change) : list Change :=
  g ++ [SetToNode l n].

(** The first tree grows to the left, the second to the right. *)
Definition forest_layout : Layout :=
  mkLayout (Some (fun n => Nat.eqb n 4)) None.

Definition forest : GoSet :=
  [Node 1; Node 2; Link 12; Node 3; Link 13; Node 4; Node 5; Link 45].

Example separatePartsForLayout_forest :
  separatePartsForLayout (list Change) forest_parent forest_children
    forest_parts forest_parentLink forest_new_Node forest_new_Link
    forest_set_location forest_set_fromNode forest_set_toNode
    forest_layout forest (mkWorld (list Change) [] [] []) =
  (Return tt,
   mkWorld (list Change)
     [NewNode 100; SetLocation 100 (mkPoint 0%float 0%float);
      NewLink 202; SetFromNode 202 100; SetToNode 202 1;
      NewLink 205; SetFromNode 205 100; SetToNode 205 4]
     [Node 100; Node 1; Node 2; Node 3; Link 12; Link 13; Link 202]
     [Node 100; Node 4; Node 5; Link 45; Link 205]).
Proof. reflexivity. Qed.

Lemma separatePartsForLayout_witness :
  exists dummy g1 w',
    forest_new_Node [] = (dummy, g1)
    /\ separatePartsForLayout (list Change) forest_parent forest_children
         forest_parts forest_parentLink forest_new_Node forest_new_Link
         forest_set_location forest_set_fromNode forest_set_toNode
         forest_layout forest (mkWorld (list Change) [] [] [])
       = (Return tt, w')
    /\ linked (list Change) forest_new_Link forest_set_fromNode
         forest_set_toNode true dummy [Node 1; Node 4]
         (forest_set_location dummy (mkPoint 0%float 0%float) g1) (graph _ w')
    /\ In (Node dummy) (leftParts _ w')
    /\ In (Node dummy) (rightParts _ w').
Proof.
  destruct (separatePartsForLayout_spec (list Change) forest_parent
              forest_children forest_parts forest_parentLink
              forest_new_Node forest_new_Link forest_set_location
              forest_set_fromNode forest_set_toNode forest_layout
              (fun n => Nat.eqb n 4) forest
              (mkWorld (list Change) [] [] []) eq_refl)
    as (_ & _ & root & g & w' & E & G & (_ & _ & Hmany) & Hparts).
  destruct (Hmany ltac:(cbn; lia)) as (dummy & g1 & En & Hroot & Hlinked).
  subst root. exists dummy, g1, w'.
  split; [exact En | ]. split; [exact E | ].
  split; [rewrite G; exact Hlinked | ].
  destruct Hparts as [L R]. split.
  - apply L. right. left. reflexivity.
  - apply R. right. left. reflexivity.
Defined.

End DoubleTreeLayout.

(* ================================================================== *)
(** * extensions/SpiralLayout.js *)

Module SpiralLayout.

Local Open Scope float_scope.

(** The layout network of the host library, as the layout reads and
    writes it.  Vertexes, edges, links and nodes are objects; a reference
    to one is its index in the network's store, and the vertexes are
    iterated in the order of their store. *)
Record LayoutVertex : Type := mkVertex {
  bounds_width : number;
  bounds_height : number;
  sourceEdges_count : nat;
  destinationEdges : list nat;
  node : option nat;
  centerX : number;
  centerY : number }.

Record LayoutEdge : Type := mkEdge {
  link : option nat;
  toVertex : option nat }.

Record LinkObj : Type := mkLink {
  curviness : number;
  toNode : option nat }.

Record NodeObj : Type := mkNode {
  isGroup : bool;
  location : Point }.

Record Network : Type := mkNetwork {
  vertexes : list LayoutVertex;
  edges : list LayoutEdge;
  links : list LinkObj;
  nodes : list NodeObj }.

(** The properties of the layout. *)
Record t : Type := mk {
  _radius : number;
  _spacing : number;
  _clockwise : bool;
  isRouting : bool;
  arrangementOrigin : Point }.

(** The values of the constructor. *)
Definition new (origin : Point) : t := mk nan 10 true true origin.

Fixpoint list_set {A : Type} (i : nat) (f : A -> A) (l : list A) : list A :=
  match l, i with
  | [], _ => []
  | a :: rest, O => f a :: rest
  | a :: rest, S j => a :: list_set j f rest
  end.

(** [v.centerX = x; v.centerY = y] *)
Definition set_center (v : nat) (x y : number) (net : Network) : Network :=
  mkNetwork
    (list_set v
       (fun vx => mkVertex (bounds_width vx) (bounds_height vx)
                    (sourceEdges_count vx) (destinationEdges vx) (node vx) x y)
       (vertexes net))
    (edges net) (links net) (nodes net).

(** [link.curviness = c] *)
Definition set_curviness (lk : nat) (c : number) (net : Network) : Network :=
  mkNetwork (vertexes net) (edges net)
    (list_set lk (fun l => mkLink c (toNode l)) (links net))
    (nodes net).

(** [v.destinationEdges.first()] *)
Definition first_destination (net : Network) (v : nat) : option nat :=
  match nth_error (vertexes net) v with
  | Some vx => hd_error (destinationEdges vx)
  | None => None
  end.

(** [edge !== null ? edge.toVertex : null] *)
Definition toVertex_of (net : Network) (edge : option nat) : option nat :=
  match edge with
  | Some e =>
      match nth_error (edges net) e with
      | Some ed => toVertex ed
      | None => None
      end
  | None => None
  end.

(** [edge !== null ? edge.link : null] *)
Definition link_of (net : Network) (edge : option nat) : option nat :=
  match edge with
  | Some e =>
      match nth_error (edges net) e with
      | Some ed => link ed
      | None => None
      end
  | None => None
  end.

(** The root vertex: the first vertex without incoming edges, or else the
    first vertex. *)
Fixpoint find_root (vs : list LayoutVertex) (i : nat) (root : option nat)
  : option nat :=
  match vs with
  | [] => root
  | v :: rest =>
      let root := match root with None => Some i | Some r => Some r end in
      if Nat.eqb (sourceEdges_count v) 0 then Some i
      else find_root rest (S i) root
  end.

Section DoLayout.

(** The functions of [Math] that are not operations of IEEE arithmetic,
    and the inherited [initialOrigin]. *)
Variable Math_PI : number.
Variable Math_cos : number -> number.
Variable Math_sin : number -> number.
Variable Math_atan : number -> number.
Variable Math_sqrt : number -> number.
Variable initialOrigin : Point -> Point.

(** [diameter(v)] *)
Definition diameter (net : Network) (v : option nat) : number :=
  match v with
  | None => 0
  | Some i =>
      match nth_error (vertexes net) i with
      | Some vx =>
          Math_sqrt (bounds_width vx * bounds_width vx
                     + bounds_height vx * bounds_height vx)
      | None => 0
      end
  end.

(** The point of the involute spiral at [angle]. *)
Definition involute (rad angle : number) : number * number :=
  let cos := Math_cos angle in
  let sin := Math_sin angle in
  (rad * (cos + angle * sin), rad * (sin - angle * cos)).

(** The shift for a link that connects to a member of a group: applied
    when [link] is not null, the vertex's node is a Group, and the link's
    [toNode] is another node. *)
Definition group_offset (net : Network) (link : option nat) (vert : nat)
  : option Point :=
  match link with
  | None => None
  | Some lk =>
      match nth_error (vertexes net) vert with
      | Some vx =>
          match node vx with
          | Some vn =>
              match nth_error (nodes net) vn with
              | Some vnode =>
                  if isGroup vnode then
                    match nth_error (links net) lk with
                    | Some l =>
                        match toNode l with
                        | Some tn =>
                            if negb (Nat.eqb tn vn) then
                              match nth_error (nodes net) tn with
                              | Some tnode =>
                                  Some (mkPoint
                                          (px (location tnode) - px (location vnode))
                                          (py (location tnode) - py (location vnode)))
                              | None => None
                              end
                            else None
                        | None => None
                        end
                    | None => None
                    end
                  else None
              | None => None
              end
          | None => None
          end
      | None => None
      end
  end.

(** The loop over the chain.  [link] is the constant of that name, set
    before the loop; [fuel] bounds the number of iterations, and the
    result is [None] when it runs out. *)
Fixpoint place (fuel : nat) (lay : t) (origin : Point) (rad cw : number)
  (link : option nat) (net : Network) (angle : number) (vert : option nat)
  : option Network :=
  match vert with
  | None => Some net
  | Some v =>
      match fuel with
      | O => None
      | S fuel' =>
          let '(x, y) := involute rad angle in
          let '(x, y) :=
            match group_offset net link v with
            | Some offset => (x - px offset, y - py offset)
            | None => (x, y)
            end in
          let net := set_center v (x + px origin) (y + py origin) net in
          let nextedge := first_destination net v in
          let nextvert := toVertex_of net nextedge in
          match nextvert with
          | Some _ =>
              let net :=
                if isRouting lay then
                  match link_of net nextedge with
                  | Some nl =>
                      match nth_error (links net) nl with
                      | Some l =>
                          if negb (isNaN (curviness l))
                          then set_curviness nl (cw * Math_abs (curviness l)) net
                          else net
                      | None => net
                      end
                  | None => net
                  end
                else net in
              let dia := diameter net (Some v) / 2 + diameter net nextvert / 2 in
              let angle :=
                angle + cw * Math_atan ((dia + _spacing lay)
                                        / Math_sqrt (x * x + y * y)) in
              place fuel' lay origin rad cw link net angle nextvert
          | None => Some net
          end
      end
  end.

(** [doLayout(coll)] on the network made for [coll], from the search for
    the root to the end of the loop: the network with the vertexes
    placed, or [None] when the loop does not end within [fuel] iterations.
    What the method does around it (the write to [arrangementOrigin], the
    call of [updateParts()] and the reset of [network]) is in
    [SpiralLayoutRun.doLayout_method]. *)
Definition doLayout (fuel : nat) (lay : t) (net : Network) : option Network :=
  let origin := initialOrigin (arrangementOrigin lay) in
  match find_root (vertexes net) 0 None with
  | None => Some net
  | Some root =>
      let space := _spacing lay in
      let cw := if _clockwise lay then 1 else -1 in
      let rad := _radius lay in
      let rad :=
        if (rad <=? 0) || isNaN rad || negb (isFinite rad)
        then diameter net (Some root) / 4 else rad in
      let angle := cw * Math_PI in
      let net := set_center root (px origin) (py origin) net in
      let edge := first_destination net root in
      let link := link_of net edge in
      let net :=
        match link with
        | Some lk => set_curviness lk (cw * rad) net
        | None => net
        end in
      let vert := toVertex_of net edge in
      place fuel lay origin rad cw link net angle vert
  end.

(** The loop as its description has it: a vertex is shifted by the
    group-member offset when the link that leads to it, the link of the
    edge by which the loop reached the vertex, ends at a member of the
    vertex's Group.  It differs from [place] in the link it looks at and
    in nothing else. *)
Fixpoint place_by_own_link (fuel : nat) (lay : t) (origin : Point)
  (rad cw : number) (edge : option nat) (net : Network) (angle : number)
  (vert : option nat) : option Network :=
  match vert with
  | None => Some net
  | Some v =>
      match fuel with
      | O => None
      | S fuel' =>
          let '(x, y) := involute rad angle in
          let '(x, y) :=
            match group_offset net (link_of net edge) v with
            | Some offset => (x - px offset, y - py offset)
            | None => (x, y)
            end in
          let net := set_center v (x + px origin) (y + py origin) net in
          let nextedge := first_destination net v in
          let nextvert := toVertex_of net nextedge in
          match nextvert with
          | Some _ =>
              let net :=
                if isRouting lay then
                  match link_of net nextedge with
                  | Some nl =>
                      match nth_error (links net) nl with
                      | Some l =>
                          if negb (isNaN (curviness l))
                          then set_curviness nl (cw * Math_abs (curviness l)) net
                          else net
                      | None => net
                      end
                  | None => net
                  end
                else net in
              let dia := diameter net (Some v) / 2 + diameter net nextvert / 2 in
              let angle :=
                angle + cw * Math_atan ((dia + _spacing lay)
                                        / Math_sqrt (x * x + y * y)) in
              place_by_own_link fuel' lay origin rad cw nextedge net angle
                nextvert
          | None => Some net
          end
      end
  end.

Definition doLayout_by_own_link (fuel : nat) (lay : t) (net : Network)
  : option Network :=
  let origin := initialOrigin (arrangementOrigin lay) in
  match find_root (vertexes net) 0 None with
  | None => Some net
  | Some root =>
      let space := _spacing lay in
      let cw := if _clockwise lay then 1 else -1 in
      let rad := _radius lay in
      let rad :=
        if (rad <=? 0) || isNaN rad || negb (isFinite rad)
        then diameter net (Some root) / 4 else rad in
      let angle := cw * Math_PI in
      let net := set_center root (px origin) (py origin) net in
      let edge := first_destination net root in
      let link := link_of net edge in
      let net :=
        match link with
        | Some lk => set_curviness lk (cw * rad) net
        | None => net
        end in
      let vert := toVertex_of net edge in
      place_by_own_link fuel lay origin rad cw edge net angle vert
  end.

(** No node of the network is a Group. *)
Definition no_groups (net : Network) : Prop :=
  forall n nd, nth_error (nodes net) n = Some nd -> isGroup nd = false.

Lemma group_offset_no_groups (net : Network) (link : option nat) (v : nat) :
  no_groups net -> group_offset net link v = None.
Proof.
  intros H. unfold group_offset.
  destruct link as [lk | ]; [ | reflexivity].
  destruct (nth_error (vertexes net) v) as [vx | ]; [ | reflexivity].
  destruct (node vx) as [vn | ]; [ | reflexivity].
  destruct (nth_error (nodes net) vn) as [vnode | ] eqn:E; [ | reflexivity].
  rewrite (H vn vnode E). reflexivity.
Qed.

(** Without Groups the link that the loop looks at does not matter: the
    code places every chain as its description says. *)
Lemma place_no_groups (fuel : nat) (lay : t) (origin : Point) (rad cw : number)
  (link edge : option nat) (net : Network) (angle : number) (vert : option nat) :
  no_groups net ->
  place fuel lay origin rad cw link net angle vert =
  place_by_own_link fuel lay origin rad cw edge net angle vert.
Proof.
  revert link edge net angle vert.
  induction fuel as [ | fuel IH]; intros link edge net angle vert Hng;
    destruct vert as [v | ]; cbn [place place_by_own_link]; try reflexivity.
  rewrite !group_offset_no_groups by exact Hng.
  destruct (involute rad angle) as [x y].
  destruct (toVertex_of _ _) as [nv | ]; [ | reflexivity].
  apply IH.
  destruct (isRouting lay); [ | exact Hng].
  destruct (link_of _ _) as [nl | ]; [ | exact Hng].
  destruct (nth_error _ nl) as [l | ]; [ | exact Hng].
  destruct (negb _); exact Hng.
Qed.

Lemma doLayout_no_groups (fuel : nat) (lay : t) (net : Network) :
  no_groups net ->
  doLayout fuel lay net = doLayout_by_own_link fuel lay net.
Proof.
  intros Hng. unfold doLayout, doLayout_by_own_link.
  destruct (find_root (vertexes net) 0 None) as [root | ]; [ | reflexivity].
  cbv zeta. apply place_no_groups.
  destruct (link_of _ _); exact Hng.
Qed.

(** The root goes to the arrangement origin, and the radius in use is the
    [radius] property when that is a positive finite number and a
    quarter of the root's diameter otherwise. *)
Definition radius_in_use (lay : t) (net : Network) (root : nat) : number :=
  if (_radius lay <=? 0) || isNaN (_radius lay) || negb (isFinite (_radius lay))
  then diameter net (Some root) / 4 else _radius lay.

Lemma doLayout_unfold (fuel : nat) (lay : t) (net : Network) (root : nat) :
  find_root (vertexes net) 0 None = Some root ->
  let origin := initialOrigin (arrangementOrigin lay) in
  let cw := if _clockwise lay then 1 else -1 in
  let rad := radius_in_use lay net root in
  let net0 := set_center root (px origin) (py origin) net in
  let edge := first_destination net0 root in
  let net1 :=
    match link_of net0 edge with
    | Some lk => set_curviness lk (cw * rad) net0
    | None => net0
    end in
  doLayout fuel lay net =
    place fuel lay origin rad cw (link_of net0 edge) net1 (cw * Math_PI)
      (toVertex_of net1 edge).
Proof. intros H. unfold doLayout. rewrite H. reflexivity. Qed.

(** ** Placement of a chain without Groups *)

Lemma nth_error_list_set {A : Type} (i j : nat) (f : A -> A) (l : list A) :
  nth_error (list_set i f l) j =
    if Nat.eqb j i then option_map f (nth_error l j) else nth_error l j.
Proof.
  revert i j. induction l as [ | a l IH]; intros i j.
  - destruct i, j; cbn; try reflexivity; destruct (Nat.eqb _ _); reflexivity.
  - destruct i as [ | i], j as [ | j]; cbn; try reflexivity. apply IH.
Qed.

(** The center of a vertex of the network. *)
Definition center_of (net : Network) (v : nat) : option (number * number) :=
  option_map (fun vx => (centerX vx, centerY vx)) (nth_error (vertexes net) v).

(** Two networks with the same vertexes, edges and nodes, up to the
    centers of the vertexes and the curviness of the links. *)
Definition same_shape (net net' : Network) : Prop :=
  (forall u, first_destination net' u = first_destination net u)
  /\ (forall e, toVertex_of net' e = toVertex_of net e)
  /\ (forall u, diameter net' u = diameter net u)
  /\ (forall u, nth_error (vertexes net') u = None <->
                nth_error (vertexes net) u = None)
  /\ nodes net' = nodes net.

Lemma same_shape_refl (net : Network) : same_shape net net.
Proof. unfold same_shape. repeat split; auto. Qed.

Lemma same_shape_trans (n1 n2 n3 : Network) :
  same_shape n1 n2 -> same_shape n2 n3 -> same_shape n1 n3.
Proof.
  intros (A1 & A2 & A3 & A4 & A5) (B1 & B2 & B3 & B4 & B5).
  unfold same_shape. repeat split; intros; try congruence.
  - apply A4, B4. assumption.
  - apply B4, A4. assumption.
Qed.

Lemma set_center_shape (v : nat) (x y : number) (net : Network) :
  same_shape net (set_center v x y net).
Proof.
  unfold same_shape, first_destination, diameter, set_center.
  cbn [vertexes edges nodes links].
  repeat split; try reflexivity.
  - intros u. rewrite nth_error_list_set.
    destruct (Nat.eqb u v); [ | reflexivity].
    destruct (nth_error (vertexes net) u); reflexivity.
  - intros [u | ]; [ | reflexivity]. rewrite nth_error_list_set.
    destruct (Nat.eqb u v); [ | reflexivity].
    destruct (nth_error (vertexes net) u); reflexivity.
  - rewrite nth_error_list_set. destruct (Nat.eqb u v); [ | auto].
    destruct (nth_error (vertexes net) u); [discriminate | auto].
  - rewrite nth_error_list_set. destruct (Nat.eqb u v); [ | auto].
    intros ->. reflexivity.
Qed.

Lemma set_curviness_shape (lk : nat) (c : number) (net : Network) :
  same_shape net (set_curviness lk c net).
Proof. unfold same_shape. repeat split; auto. Qed.

Lemma set_center_center_of (v u : nat) (x y : number) (net : Network) :
  center_of (set_center v x y net) u =
    if Nat.eqb u v
    then option_map (fun _ => (x, y)) (nth_error (vertexes net) u)
    else center_of net u.
Proof.
  unfold center_of, set_center. cbn [vertexes]. rewrite nth_error_list_set.
  destruct (Nat.eqb u v); [ | reflexivity].
  destruct (nth_error (vertexes net) u); reflexivity.
Qed.

(** [v :: rest] is the chain that starts at vertex [v]: each vertex leads
    to the next by its first destination edge, and the last leads
    nowhere. *)
Fixpoint chain_from (net : Network) (v : nat) (rest : list nat) : Prop :=
  nth_error (vertexes net) v <> None
  /\ match rest with
     | [] => toVertex_of net (first_destination net v) = None
     | u :: rest' =>
         toVertex_of net (first_destination net v) = Some u
         /\ chain_from net u rest'
     end.

Lemma chain_from_head (net : Network) (v : nat) (rest : list nat) :
  chain_from net v rest -> nth_error (vertexes net) v <> None.
Proof. destruct rest; cbn [chain_from]; tauto. Qed.

Lemma chain_from_shape (net net' : Network) (v : nat) (rest : list nat) :
  same_shape net net' -> chain_from net v rest -> chain_from net' v rest.
Proof.
  intros (S1 & S2 & _ & S4 & _). revert v.
  induction rest as [ | u rest IH]; intros v; cbn [chain_from];
    rewrite S1, S2, S4; [tauto | ].
  intros (A & B & C). auto.
Qed.

(** The centers along a chain, as the layout's description gives them:
    the vertex at [angle] is at the point of the involute plus the origin,
    and the angle of its successor is greater by
    [cw * atan((diameter/2 + diameter'/2 + spacing) / sqrt(x*x + y*y))]. *)
Fixpoint placed (lay : t) (origin : Point) (rad cw : number)
  (net net' : Network) (chain : list nat) (angle : number) : Prop :=
  match chain with
  | [] => True
  | v :: rest =>
      let x := rad * (Math_cos angle + angle * Math_sin angle) in
      let y := rad * (Math_sin angle - angle * Math_cos angle) in
      center_of net' v = Some (x + px origin, y + py origin)
      /\ match rest with
         | [] => True
         | u :: _ =>
             placed lay origin rad cw net net' rest
               (angle
                + cw * Math_atan
                         ((diameter net (Some v) / 2 + diameter net (Some u) / 2
                           + _spacing lay)
                          / Math_sqrt (x * x + y * y)))
         end
  end.

Lemma placed_ext (lay : t) (origin : Point) (rad cw : number)
  (n1 n2 net' net'' : Network) (chain : list nat) (angle : number) :
  (forall u, diameter n2 u = diameter n1 u) ->
  (forall u, In u chain -> center_of net'' u = center_of net' u) ->
  placed lay origin rad cw n1 net' chain angle ->
  placed lay origin rad cw n2 net'' chain angle.
Proof.
  intros Hd. revert angle.
  induction chain as [ | v rest IH]; intros angle Hc; cbn [placed];
    [auto | ].
  intros [A B]. split.
  - rewrite Hc; [exact A | left; reflexivity].
  - destruct rest as [ | u rest']; [exact I | ].
    rewrite !Hd. apply IH; [ | exact B].
    intros w Hw. apply Hc. right. exact Hw.
Qed.

(** The loop places a chain without Groups as described, within as many
    iterations as the chain is long, and moves no other vertex. *)
Lemma place_chain (lay : t) (origin : Point) (rad cw : number)
  (link : option nat) (rest : list nat) :
  forall (v fuel : nat) (net : Network) (angle : number),
  no_groups net -> chain_from net v rest -> NoDup (v :: rest) ->
  List.length rest < fuel ->
  exists net',
    place fuel lay origin rad cw link net angle (Some v) = Some net'
    /\ same_shape net net'
    /\ placed lay origin rad cw net net' (v :: rest) angle
    /\ (forall u, ~ In u (v :: rest) -> center_of net' u = center_of net u).
Proof.
  induction rest as [ | u rest IH]; intros v fuel net angle Hng Hch Hnd Hfuel;
    (destruct fuel as [ | fuel]; [cbn [List.length] in Hfuel; lia | ]);
    cbn [place]; rewrite (group_offset_no_groups net link v Hng);
    unfold involute;
    set (x := rad * (Math_cos angle + angle * Math_sin angle));
    set (y := rad * (Math_sin angle - angle * Math_cos angle));
    set (net1 := set_center v (x + px origin) (y + py origin) net);
    pose proof (set_center_shape v (x + px origin) (y + py origin) net)
      as Hs1; fold net1 in Hs1;
    destruct Hs1 as (S1 & S2 & S3 & S4 & S5);
    cbn [chain_from] in Hch.
  - destruct Hch as [Hv Hend]. rewrite S1, S2, Hend.
    exists net1. split; [reflexivity | ].
    split; [exact (set_center_shape _ _ _ _) | ].
    split.
    + cbn [placed]. split; [ | exact I]. fold x y. unfold net1.
      rewrite set_center_center_of, Nat.eqb_refl.
      destruct (nth_error (vertexes net) v); [reflexivity | contradiction].
    + intros w Hw. unfold net1. rewrite set_center_center_of.
      destruct (Nat.eqb_spec w v) as [-> | _]; [ | reflexivity].
      exfalso. apply Hw. left. reflexivity.
  - destruct Hch as (Hv & Hnext & Hch). rewrite S1, S2, Hnext.
    set (net2 :=
           if isRouting lay then
             match link_of net1 (first_destination net v) with
             | Some nl =>
                 match nth_error (links net1) nl with
                 | Some l =>
                     if negb (isNaN (curviness l))
                     then set_curviness nl (cw * Math_abs (curviness l)) net1
                     else net1
                 | None => net1
                 end
             | None => net1
             end
           else net1).
    assert (Hs12 : same_shape net1 net2 /\ vertexes net2 = vertexes net1).
    { unfold net2. destruct (isRouting lay);
        [ | split; [apply same_shape_refl | reflexivity]].
      destruct (link_of _ _) as [nl | ];
        [ | split; [apply same_shape_refl | reflexivity]].
      destruct (nth_error _ nl) as [l | ];
        [ | split; [apply same_shape_refl | reflexivity]].
      destruct (negb _); split;
        try apply same_shape_refl; try apply set_curviness_shape;
        reflexivity. }
    destruct Hs12 as [Hs12 Hvx].
    assert (Hs02 : same_shape net net2).
    { apply (same_shape_trans net net1 net2); [ | exact Hs12].
      exact (set_center_shape v (x + px origin) (y + py origin) net). }
    destruct Hs02 as (T1 & T2 & T3 & T4 & T5).
    assert (Hng2 : no_groups net2).
    { unfold no_groups. rewrite T5. exact Hng. }
    assert (Hch2 : chain_from net2 u rest).
    { apply (chain_from_shape net); [ | exact Hch].
      unfold same_shape. auto. }
    inversion Hnd as [ | ? ? Hnotin Hnd']; subst.
    rewrite !T3.
    destruct (IH u fuel net2
                (angle
                 + cw * Math_atan
                          ((diameter net (Some v) / 2 + diameter net (Some u) / 2
                            + _spacing lay)
                           / Math_sqrt (x * x + y * y)))
                Hng2 Hch2 Hnd' ltac:(cbn [List.length] in Hfuel; lia))
      as (net' & E & Hs & Hp & Hframe).
    exists net'. split; [exact E | ].
    split.
    { eapply same_shape_trans; [ | exact Hs]. unfold same_shape. auto. }
    assert (Hcv : center_of net2 v = Some (x + px origin, y + py origin)).
    { unfold center_of. rewrite Hvx. fold (center_of net1 v). unfold net1.
      rewrite set_center_center_of, Nat.eqb_refl.
      destruct (nth_error (vertexes net) v); [reflexivity | contradiction]. }
    split.
    + assert (Hgoal :
        center_of net' v = Some (x + px origin, y + py origin)
        /\ placed lay origin rad cw net net' (u :: rest)
             (angle
              + cw * Math_atan
                       ((diameter net (Some v) / 2 + diameter net (Some u) / 2
                         + _spacing lay)
                        / Math_sqrt (x * x + y * y)))).
      { split.
        - rewrite Hframe; [exact Hcv | exact Hnotin].
        - apply (placed_ext lay origin rad cw net2 net net' net');
            [intros w; symmetry; apply T3 | intros; reflexivity | exact Hp]. }
      exact Hgoal.
    + intros w Hw. rewrite Hframe.
      * unfold center_of. rewrite Hvx. fold (center_of net1 w). unfold net1.
        rewrite set_center_center_of.
        destruct (Nat.eqb_spec w v) as [-> | _]; [ | reflexivity].
        exfalso. apply Hw. left. reflexivity.
      * intros Hin. apply Hw. right. exact Hin.
Qed.

(** [doLayout] on a chain without Groups: the root goes to the
    arrangement origin, the angle starts at [cw * PI], and the vertexes
    that follow are placed along the involute as described, with the
    radius in use.  The loop ends within as many iterations as vertexes
    follow the root. *)
Lemma doLayout_places_chain (fuel : nat) (lay : t) (net : Network)
  (root : nat) (rest : list nat) :
  find_root (vertexes net) 0 None = Some root ->
  no_groups net -> chain_from net root rest -> NoDup (root :: rest) ->
  List.length rest <= fuel ->
  let origin := initialOrigin (arrangementOrigin lay) in
  let cw := if _clockwise lay then 1 else -1 in
  exists net',
    doLayout fuel lay net = Some net'
    /\ center_of net' root = Some (px origin, py origin)
    /\ placed lay origin (radius_in_use lay net root) cw net net' rest
         (cw * Math_PI).
Proof.
  intros Hroot Hng Hch Hnd Hfuel origin cw.
  rewrite (doLayout_unfold fuel lay net root Hroot). cbv zeta.
  fold origin cw.
  set (rad := radius_in_use lay net root).
  set (net0 := set_center root (px origin) (py origin) net).
  set (edge := first_destination net0 root).
  set (net1 := match link_of net0 edge with
               | Some lk => set_curviness lk (cw * rad) net0
               | None => net0
               end).
  assert (Hs01 : same_shape net0 net1 /\ vertexes net1 = vertexes net0).
  { unfold net1. destruct (link_of net0 edge); split;
      try apply same_shape_refl; try apply set_curviness_shape; reflexivity. }
  destruct Hs01 as [Hs01 Hvx].
  assert (Hs : same_shape net net1).
  { apply (same_shape_trans net net0 net1); [ | exact Hs01].
    exact (set_center_shape root (px origin) (py origin) net). }
  assert (Hc1 : center_of net1 root = Some (px origin, py origin)).
  { unfold center_of. rewrite Hvx. fold (center_of net0 root). unfold net0.
    rewrite set_center_center_of, Nat.eqb_refl.
    pose proof (chain_from_head net root rest Hch) as Hv.
    destruct (nth_error (vertexes net) root); [reflexivity | contradiction]. }
  pose proof Hs as (S1 & S2 & S3 & S4 & S5).
  assert (Hedge : toVertex_of net1 edge
                  = toVertex_of net (first_destination net root)).
  { unfold edge. rewrite S2.
    destruct (set_center_shape root (px origin) (py origin) net) as (A & _).
    fold net0 in A. rewrite A. reflexivity. }
  rewrite Hedge.
  destruct rest as [ | u rest]; cbn [chain_from] in Hch.
  - destruct Hch as [_ Hend]. rewrite Hend.
    exists net1. destruct fuel; cbn [place placed]; auto.
  - destruct Hch as (_ & Hnext & Hch). rewrite Hnext.
    inversion Hnd as [ | ? ? Hnotin Hnd']; subst.
    assert (Hng1 : no_groups net1) by (unfold no_groups; rewrite S5; exact Hng).
    destruct (place_chain lay origin rad cw (link_of net0 edge) rest u fuel
                net1 (cw * Math_PI) Hng1
                (chain_from_shape net net1 u rest Hs Hch) Hnd'
                ltac:(cbn [List.length] in Hfuel; lia))
      as (net' & E & _ & Hp & Hframe).
    exists net'. split; [exact E | ]. split.
    + rewrite Hframe; [exact Hc1 | exact Hnotin].
    + apply (placed_ext lay origin rad cw net1 net net' net');
        [intros w; symmetry; apply S3 | intros; reflexivity | exact Hp].
Qed.

End DoLayout.

(** A chain of three vertexes, root first, each 40 by 30.  The last
    vertex stands for a Group, node 2, and the link that leads to it,
    link 1, ends at the Group itself; the first link ends at node 1. *)
Definition chain : Network :=
  mkNetwork
    [mkVertex 40 30 0 [0%nat] (Some 0%nat) 0 0;
     mkVertex 40 30 1 [1%nat] (Some 1%nat) 0 0;
     mkVertex 40 30 1 [] (Some 2%nat) 0 0]
    [mkEdge (Some 0%nat) (Some 1%nat); mkEdge (Some 1%nat) (Some 2%nat)]
    [mkLink 0 (Some 1%nat); mkLink 0 (Some 2%nat)]
    [mkNode false (mkPoint 0 0); mkNode false (mkPoint 100 0);
     mkNode true (mkPoint 300 50)].

(** C1: on [chain], whatever the functions of [Math] are, the code shifts
    the last vertex by the offset between the end of the FIRST link
    (node 1, at (100, 0)) and the vertex's Group (at (300, 50)), although
    the link that leads to that vertex ends at the Group itself.  Placed
    by its own link the vertex is at the point [(x2, y2)] of the spiral
    plus the origin; the code puts it at [(x2 - (100 - 300), y2 - (0 - 50))]
    plus the origin. *)
Theorem doLayout_shifts_by_first_link
  (Math_PI : number) (Math_cos Math_sin Math_atan Math_sqrt : number -> number) :
  exists net net' v2 v2' angle2 x2 y2,
    doLayout Math_PI Math_cos Math_sin Math_atan Math_sqrt (fun p => p)
      3 (new (mkPoint 0 0)) chain = Some net
    /\ doLayout_by_own_link Math_PI Math_cos Math_sin Math_atan Math_sqrt
         (fun p => p) 3 (new (mkPoint 0 0)) chain = Some net'
    /\ nth_error (vertexes net') 2 = Some v2'
    /\ nth_error (vertexes net) 2 = Some v2
    /\ involute Math_cos Math_sin (Math_sqrt (40 * 40 + 30 * 30) / 4) angle2
       = (x2, y2)
    /\ centerX v2' = x2 + 0 /\ centerY v2' = y2 + 0
    /\ centerX v2 = x2 - (100 - 300) + 0
    /\ centerY v2 = y2 - (0 - 50) + 0.
Proof.
  do 7 eexists.
  split; [cbv; reflexivity | ].
  split; [cbv; reflexivity | ].
  split; [cbv; reflexivity | ].
  split; [cbv; reflexivity | ].
  split; [unfold involute; reflexivity | ].
  split; [cbv; reflexivity | ].
  split; [cbv; reflexivity | ].
  split; cbv; reflexivity.
Qed.

(** The same run with numbers: with the stand-ins [cos = 1], [sin = 0],
    [atan x = x], [PI = 3] and the IEEE square root, the code puts the
    last vertex at x = 212.5, and its own link puts it at x = 12.5. *)
Example doLayout_chain_numbers :
  option_map (fun net => map centerX (vertexes net))
    (doLayout 3 (fun _ => 1) (fun _ => 0) (fun x => x) PrimFloat.sqrt
       (fun p => p) 3 (new (mkPoint 0 0)) chain)
    = Some [0; 12.5; 212.5]
  /\ option_map (fun net => map centerX (vertexes net))
       (doLayout_by_own_link 3 (fun _ => 1) (fun _ => 0) (fun x => x)
          PrimFloat.sqrt (fun p => p) 3 (new (mkPoint 0 0)) chain)
     = Some [0; 12.5; 12.5].
Proof. split; vm_compute; reflexivity. Qed.

(** The chain without its Group: the code and the description agree. *)
Definition plain_chain : Network :=
  mkNetwork (vertexes chain) (edges chain) (links chain)
    [mkNode false (mkPoint 0 0); mkNode false (mkPoint 100 0);
     mkNode false (mkPoint 300 50)].

Example doLayout_plain_chain
  (Math_PI : number) (Math_cos Math_sin Math_atan Math_sqrt : number -> number) :
  doLayout Math_PI Math_cos Math_sin Math_atan Math_sqrt (fun p => p)
    3 (new (mkPoint 0 0)) plain_chain =
  doLayout_by_own_link Math_PI Math_cos Math_sin Math_atan Math_sqrt
    (fun p => p) 3 (new (mkPoint 0 0)) plain_chain.
Proof.
  apply doLayout_no_groups. intros n nd H.
  destruct n as [ | [ | [ | n]]]; cbn in H;
    try (inversion H; reflexivity).
  destruct n; discriminate H.
Qed.

(** The plain chain satisfies what [doLayout_places_chain] asks for. *)
Example doLayout_places_plain_chain
  (Math_PI : number) (Math_cos Math_sin Math_atan Math_sqrt : number -> number) :
  exists net',
    doLayout Math_PI Math_cos Math_sin Math_atan Math_sqrt (fun p => p)
      2 (new (mkPoint 5 7)) plain_chain = Some net'
    /\ center_of net' 0 = Some (5, 7)
    /\ placed Math_cos Math_sin Math_atan Math_sqrt (new (mkPoint 5 7))
         (mkPoint 5 7)
         (radius_in_use Math_sqrt (new (mkPoint 5 7)) plain_chain 0) 1
         plain_chain net' [1%nat; 2%nat] (1 * Math_PI).
Proof.
  apply (doLayout_places_chain Math_PI Math_cos Math_sin Math_atan Math_sqrt
           (fun p => p) 2 (new (mkPoint 5 7)) plain_chain 0 [1%nat; 2%nat]).
  - reflexivity.
  - intros n nd H. destruct n as [ | [ | [ | n]]]; cbn in H;
      try (inversion H; reflexivity).
    destruct n; discriminate H.
  - cbn. repeat split; discriminate.
  - repeat constructor; cbn; intuition discriminate.
  - cbn. lia.
Qed.

End SpiralLayout.

(* ================================================================== *)
(** * The classes of the repository and their source files *)

Module Repository.

Inductive Component : Type :=
| ZoomSlider
| BalloonLink
| DoubleTreeLayout
| LinkShiftingTool
| ArrangingLayout
| DimensioningLink
| SpiralLayout.

(** The base classes of the host library. *)
Inductive BaseClass : Type := Link | Layout | Tool.

(** The [extends] clause of each class declaration. *)
Definition extends (c : Component) : option BaseClass :=
  match c with
  | ZoomSlider => None                  (* export class ZoomSlider { *)
  | BalloonLink => Some Link            (* extends go.Link *)
  | DoubleTreeLayout => Some Layout     (* extends go.Layout *)
  | LinkShiftingTool => Some Tool       (* extends go.Tool *)
  | ArrangingLayout => Some Layout      (* extends go.Layout *)
  | DimensioningLink => Some Link       (* extends go.Link *)
  | SpiralLayout => Some Layout         (* extends go.Layout *)
  end.

(** The number of lines of each source file. *)
Definition lines (c : Component) : nat :=
  match c with
  | ZoomSlider => 437
  | BalloonLink => 206
  | DoubleTreeLayout => 252
  | LinkShiftingTool => 303
  | ArrangingLayout => 448
  | DimensioningLink => 227
  | SpiralLayout => 179
  end.

(** Of these, the lines that hold code: not blank and not comment only. *)
Definition code_lines (c : Component) : nat :=
  match c with
  | ZoomSlider => 308
  | BalloonLink => 157
  | DoubleTreeLayout => 141
  | LinkShiftingTool => 231
  | ArrangingLayout => 259
  | DimensioningLink => 161
  | SpiralLayout => 122
  end.

(** C6 (as stated) fails: ZoomSlider is declared without a base class. *)
Lemma ZoomSlider_extends_nothing :
  ~ (forall c, exists b, extends c = Some b).
Proof. intros H. destruct (H ZoomSlider) as [b Hb]. discriminate Hb. Qed.

(** C6 (as amended): every component class other than ZoomSlider extends
    Link, Layout or Tool; ZoomSlider extends nothing. *)
Theorem extends_base_class (c : Component) :
  (c <> ZoomSlider -> exists b, extends c = Some b)
  /\ (c = ZoomSlider -> extends c = None).
Proof.
  split.
  - intros H. destruct c; try (eexists; reflexivity). contradiction.
  - intros ->. reflexivity.
Qed.

Lemma extends_base_class_witness :
  exists b, extends LinkShiftingTool = Some b.
Proof.
  apply (proj1 (extends_base_class LinkShiftingTool)). discriminate.
Defined.

(** C7 (as stated) fails: the file of ZoomSlider has 437 lines, 308 of
    them code. *)
Lemma ZoomSlider_not_under_300 :
  ~ (forall c, lines c < 300) /\ ~ (forall c, code_lines c < 300).
Proof.
  split; intros H; specialize (H ZoomSlider); simpl in H; lia.
Qed.

(** C7 (as amended): every source file is under 450 lines; those of
    BalloonLink, DoubleTreeLayout, DimensioningLink and SpiralLayout are
    under 300 lines; those of LinkShiftingTool and ArrangingLayout are
    not, but hold under 300 lines of code; that of ZoomSlider is under 300
    by neither count. *)
Theorem lines_bounds (c : Component) :
  lines c < 450
  /\ (lines c < 300 <->
      c = BalloonLink \/ c = DoubleTreeLayout \/ c = DimensioningLink
      \/ c = SpiralLayout)
  /\ (code_lines c < 300 <-> c <> ZoomSlider).
Proof.
  destruct c; simpl; repeat split; intros; try lia; try discriminate;
    try tauto; try congruence;
    repeat match goal with
           | H : _ \/ _ |- _ => destruct H as [H | H]
           end; try discriminate.
Qed.

End Repository.

(* ================================================================== *)
(** * Further facts on IEEE doubles *)

Module FloatFactsMore.

Lemma eqb_not_nan_l (x y : float) : (x =? y)%float = true -> is_nan x = false.
Proof.
  rewrite FloatAxioms.eqb_spec. unfold SFeqb. intros H.
  apply FloatFacts.not_nan_Prim2SF.
  destruct (SFcompare (Prim2SF x) (Prim2SF y)) eqn:E; [ | discriminate H].
  eapply FloatFacts.SFcompare_Some_l; exact E.
Qed.

Lemma ltb_not_nan_l (x y : float) : (x <? y)%float = true -> is_nan x = false.
Proof.
  intros H. exact (FloatFacts.leb_not_nan_l _ _ (FloatFacts.ltb_leb _ _ H)).
Qed.

Lemma ltb_not_nan_r (x y : float) : (x <? y)%float = true -> is_nan y = false.
Proof.
  intros H. exact (FloatFacts.leb_not_nan_r _ _ (FloatFacts.ltb_leb _ _ H)).
Qed.

Lemma Math_min_le_l (a b : float) :
  is_nan a = false -> is_nan b = false -> (Math_min a b <=? a)%float = true.
Proof.
  intros Ha Hb. unfold Math_min. rewrite Ha, Hb. simpl.
  destruct (a <? b)%float eqn:Eab; [apply FloatFacts.leb_refl, Ha | ].
  destruct (b <? a)%float eqn:Eba; [apply FloatFacts.ltb_leb, Eba | ].
  destruct (get_sign a);
    [apply FloatFacts.leb_refl, Ha | apply FloatFacts.not_ltb_leb; assumption].
Qed.

Lemma Math_max_le (a b c : float) :
  (a <=? c)%float = true -> (b <=? c)%float = true ->
  (Math_max a b <=? c)%float = true.
Proof.
  intros Ha Hb.
  destruct (FloatFacts.Math_max_cases a b
              (FloatFacts.leb_not_nan_l _ _ Ha) (FloatFacts.leb_not_nan_l _ _ Hb))
    as [-> | ->]; assumption.
Qed.

(** [Math.max(0, Math.min(1, r))] lies between 0 and 1 unless [r] is NaN. *)
Lemma clamp01 (r : float) :
  is_nan r = false ->
  (0 <=? Math_max 0 (Math_min 1 r))%float = true
  /\ (Math_max 0 (Math_min 1 r) <=? 1)%float = true.
Proof.
  intros Hr.
  assert (H1 : is_nan 1%float = false) by reflexivity.
  assert (H0 : is_nan 0%float = false) by reflexivity.
  pose proof (Math_min_le_l 1 r H1 Hr) as Hle.
  pose proof (FloatFacts.leb_not_nan_l _ _ Hle) as Hm.
  split.
  - apply FloatFacts.Math_max_ge_l; assumption.
  - apply Math_max_le; [reflexivity | exact Hle].
Qed.

End FloatFactsMore.

(* ================================================================== *)
(** * extensions/DimensioningLink.js: the other setters and the states
      that the class can reach *)

Module DimensioningLinkStates.

Import DimensioningLink.

Local Open Scope float_scope.

Definition with_extension (v : number) (l : t) : t :=
  mk (fromNode l) (fromPort l) (toNode l) (toPort l)
     (_direction l) v (_inset l) (_gap l) (points l) (calls l).

Definition with_inset (v : number) (l : t) : t :=
  mk (fromNode l) (fromPort l) (toNode l) (toPort l)
     (_direction l) (_extension l) v (_gap l) (points l) (calls l).

Definition with_gap (v : number) (l : t) : t :=
  mk (fromNode l) (fromPort l) (toNode l) (toPort l)
     (_direction l) (_extension l) (_inset l) v (points l) (calls l).

(** [set extension(val)] *)
Definition set_extension (val : value) : method t unit :=
  l <- get ;;
  let old := _extension l in
  if differs_number old val then
    match val with
    | VNumber n =>
        modify (with_extension n) ;;;
        modify (call (RaiseChangedEvent "extension" (VNumber old) val)) ;;;
        modify (call InvalidateRoute)
    | _ => throw "DimensioningLink.extension must be a number"
    end
  else ret tt.

(** [set inset(val)] *)
Definition set_inset (val : value) : method t unit :=
  l <- get ;;
  let old := _inset l in
  if differs_number old val then
    match val with
    | VNumber n =>
        if n <? 0 then
          throw "DimensioningLink.inset must be a non-negative number"
        else
          modify (with_inset n) ;;;
          modify (call (RaiseChangedEvent "inset" (VNumber old) val)) ;;;
          modify (call InvalidateRoute)
    | _ => throw "DimensioningLink.inset must be a non-negative number"
    end
  else ret tt.

(** [set gap(val)] *)
Definition set_gap (val : value) : method t unit :=
  l <- get ;;
  let old := _gap l in
  if differs_number old val then
    match val with
    | VNumber n =>
        if n <? 0 then
          throw "DimensioningLink.gap must be a non-negative number"
        else
          modify (with_gap n) ;;;
          modify (call (RaiseChangedEvent "gap" (VNumber old) val)) ;;;
          modify (call InvalidateRoute)
    | _ => throw "DimensioningLink.gap must be a non-negative number"
    end
  else ret tt.

(** [cloneProtected(copy)]: the copy with the four private fields of
    [this]. *)
Definition cloneProtected (this copy : t) : t :=
  mk (fromNode copy) (fromPort copy) (toNode copy) (toPort copy)
     (_direction this) (_extension this) (_inset this) (_gap this)
     (points copy) (calls copy).

Section Reachable.

Variable StringToNumber : string -> number.
Variable ObjectToNumber : value -> number.
Variable computeSpot : t -> bool -> Spot.
Variable getLinkPoint :
  t -> nat -> nat -> Spot -> bool -> bool -> nat -> nat -> Point.
Variable Point_isReal : Point -> bool.
Variable directionPoint : Point -> Point -> number.
Variable rotate : Point -> number -> Point.

Local Notation "'global_isNaN'" :=
  (DimensioningLink.global_isNaN StringToNumber ObjectToNumber).
Local Notation "'set_direction'" :=
  (DimensioningLink.set_direction StringToNumber ObjectToNumber).
Local Notation "'computePoints'" :=
  (DimensioningLink.computePoints StringToNumber ObjectToNumber
     computeSpot getLinkPoint Point_isReal directionPoint rotate).

(** The directions that the setter lets through: a value that the global
    [isNaN] takes for NaN (NaN itself, [undefined], or a string or an
    object that converts to NaN), or one of the numbers 0, 90, 180, 270. *)
Definition accepted_direction (d : value) : Prop :=
  global_isNaN d = true
  \/ exists n, d = VNumber n
               /\ (n = 0 \/ n = neg_zero \/ n = 90 \/ n = 180 \/ n = 270).

(** What the setters keep true of the private fields: the direction is
    an accepted one, and neither the inset nor the gap is below 0. *)
Definition well_formed (l : t) : Prop :=
  accepted_direction (_direction l)
  /\ (_inset l <? 0) = false
  /\ (_gap l <? 0) = false.

(** One step in the life of a link: a call of a setter with any value or
    of [computePoints], whether it returns or throws; a clone; or a
    change by the base class, which leaves the private fields alone. *)
Inductive step : t -> t -> Prop :=
| step_direction (v : value) (l : t) : step l (snd (set_direction v l))
| step_extension (v : value) (l : t) : step l (snd (set_extension v l))
| step_inset (v : value) (l : t) : step l (snd (set_inset v l))
| step_gap (v : value) (l : t) : step l (snd (set_gap v l))
| step_computePoints (l : t) : step l (snd (computePoints l))
| step_clone (l copy : t) : step l (cloneProtected l copy)
| step_base (l l' : t) :
    _direction l' = _direction l -> _extension l' = _extension l ->
    _inset l' = _inset l -> _gap l' = _gap l -> step l l'.

(** The links that a program can hold: constructed, then stepped. *)
Inductive reachable : t -> Prop :=
| reach_new (fn fp tn tp : option nat) : reachable (new fn fp tn tp)
| reach_step (l l' : t) : reachable l -> step l l' -> reachable l'.

Lemma computePoints_private (l : t) :
  _direction (snd (computePoints l)) = _direction l
  /\ _extension (snd (computePoints l)) = _extension l
  /\ _inset (snd (computePoints l)) = _inset l
  /\ _gap (snd (computePoints l)) = _gap l.
Proof.
  unfold DimensioningLink.computePoints, bind, get, ret.
  destruct (fromNode l); [ | repeat split].
  destruct (fromPort l); [ | repeat split].
  destruct (toNode l); [ | repeat split].
  destruct (toPort l); [ | repeat split].
  repeat match goal with
         | |- context [if ?c then _ else _] => destruct c
         end; cbn; repeat split.
Qed.

Lemma guard_accepted (v : value) :
  global_isNaN v || strict_eq_number v 0 || strict_eq_number v 90
    || strict_eq_number v 180 || strict_eq_number v 270 = true ->
  accepted_direction v.
Proof.
  intros H. unfold accepted_direction.
  destruct (global_isNaN v) eqn:En; [left; reflexivity | right].
  cbn [orb] in H. destruct v as [ | | b | n | s | s | i];
    try discriminate H.
  exists n. split; [reflexivity | ].
  unfold strict_eq_number, strict_eq in H.
  repeat (apply orb_true_iff in H; destruct H as [H | H]).
  - apply FloatFacts.eqb_zero in H. tauto.
  - apply FloatFacts.eqb_nonzero in H; [tauto | reflexivity].
  - apply FloatFacts.eqb_nonzero in H; [tauto | reflexivity].
  - apply FloatFacts.eqb_nonzero in H; [tauto | reflexivity].
Qed.

Lemma step_well_formed (l l' : t) :
  step l l' -> well_formed l -> well_formed l'.
Proof.
  intros Hstep (Hd & Hi & Hg). unfold well_formed.
  destruct Hstep as [v l | v l | v l | v l | l | l copy | l l' E1 E2 E3 E4].
  - unfold DimensioningLink.set_direction, bind, get, modify, throw.
    destruct (global_isNaN v || strict_eq_number v 0 || strict_eq_number v 90
              || strict_eq_number v 180 || strict_eq_number v 270) eqn:E;
      cbn; auto.
    split; [ | auto]. apply guard_accepted, E.
  - unfold set_extension, bind, get, modify, throw, ret.
    destruct (differs_number (_extension l) v); [ | cbn; auto].
    destruct v; cbn; auto.
  - unfold set_inset, bind, get, modify, throw, ret.
    destruct (differs_number (_inset l) v); [ | cbn; auto].
    destruct v as [ | | | n | | | ]; cbn; auto.
    destruct (n <? 0) eqn:En; cbn; auto.
  - unfold set_gap, bind, get, modify, throw, ret.
    destruct (differs_number (_gap l) v); [ | cbn; auto].
    destruct v as [ | | | n | | | ]; cbn; auto.
    destruct (n <? 0) eqn:En; cbn; auto.
  - destruct (computePoints_private l) as (A & _ & C & D).
    rewrite A, C, D. auto.
  - cbn. auto.
  - rewrite E1, E3, E4. auto.
Qed.

Lemma new_well_formed (fn fp tn tp : option nat) :
  well_formed (new fn fp tn tp).
Proof.
  unfold well_formed. cbn. split; [ | split; reflexivity].
  right. exists 0. split; [reflexivity | left; reflexivity].
Qed.

(** X1: whatever setters are called with whatever values, a link's
    direction stays a value that the global [isNaN] takes for NaN or one
    of the numbers 0, 90, 180, 270, and its inset and gap are never below
    0. *)
Theorem reachable_well_formed (l : t) : reachable l -> well_formed l.
Proof.
  induction 1 as [fn fp tn tp | l l' _ IH Hstep].
  - apply new_well_formed.
  - exact (step_well_formed l l' Hstep IH).
Qed.



(** X3: for the directions 0 and 180 the route is laid out along the
    x axis: its first and third points are at the x of the from point, its
    fourth and sixth at the x of the to point, and the dimension line
    between the third and the fourth point is horizontal, as is the pair
    of the second and fifth.  For 90 and 270 the same holds with x and y
    exchanged. *)
Theorem orthogonal_route_aligned (l : t) (e : nat * nat * nat * nat) :
  ends l = Some e ->
  Point_isReal (frompoint_of computeSpot getLinkPoint l e) = true ->
  Point_isReal (topoint_of computeSpot getLinkPoint l e) = true ->
  let f := frompoint_of computeSpot getLinkPoint l e in
  let t := topoint_of computeSpot getLinkPoint l e in
  (strict_eq_number (_direction l) 0 || strict_eq_number (_direction l) 180
     = true ->
   exists p1 p2 p3 p4 p5 p6,
     points (snd (computePoints l)) = [p1; p2; p3; p4; p5; p6]
     /\ px p1 = px f /\ px p3 = px f /\ px p4 = px t /\ px p6 = px t
     /\ py p3 = py p4 /\ py p2 = py p5)
  /\ (strict_eq_number (_direction l) 90 || strict_eq_number (_direction l) 270
        = true ->
      exists p1 p2 p3 p4 p5 p6,
        points (snd (computePoints l)) = [p1; p2; p3; p4; p5; p6]
        /\ py p1 = py f /\ py p3 = py f /\ py p4 = py t /\ py p6 = py t
        /\ px p3 = px p4 /\ px p2 = px p5).
Proof.
  intros He Hf Ht f t. subst f t. revert Hf Ht.
  unfold ends in He. unfold DimensioningLink.computePoints, bind, get, ret.
  destruct (fromNode l) as [fn | ]; [ | discriminate He].
  destruct (fromPort l) as [fp | ]; [ | discriminate He].
  destruct (toNode l) as [tn | ]; [ | discriminate He].
  destruct (toPort l) as [tp | ]; [ | discriminate He].
  inversion He; subst e; clear He. unfold frompoint_of, topoint_of.
  intros Hf Ht. rewrite Hf, Ht. cbn [negb].
  destruct (_direction l) as [ | | b | d | s | s | i];
    try (split; intros Hd; discriminate Hd).
  unfold DimensioningLink.global_isNaN, ToNumber, strict_eq_number.
  assert (Hnan : forall c, strict_eq d c = true -> isNaN d = false)
    by (intros c; apply FloatFactsMore.eqb_not_nan_l).
  split; intros Hd.
  - assert (Hn : isNaN d = false)
      by (apply orb_true_iff in Hd; destruct Hd as [H | H]; exact (Hnan _ H)).
    rewrite Hn, Hd.
    destruct (strict_eq d 0); cbn; repeat eexists.
  - assert (Hn : isNaN d = false)
      by (apply orb_true_iff in Hd; destruct Hd as [H | H]; exact (Hnan _ H)).
    rewrite Hn, Hd.
    destruct (strict_eq d 0 || strict_eq d 180) eqn:E0.
    + (* a direction cannot be both *)
      exfalso. apply orb_true_iff in E0. apply orb_true_iff in Hd.
      assert (Hz : forall a b : float,
                 strict_eq d a = true ->
                 strict_eq d b = true ->
                 (a =? 0)%float = false -> (b =? 0)%float = false ->
                 a = b).
      { intros a b Ha Hb Za Zb.
        rewrite <- (FloatFacts.eqb_nonzero _ a Za Ha).
        exact (FloatFacts.eqb_nonzero _ b Zb Hb). }
      destruct Hd as [H9 | H27]; destruct E0 as [H0 | H18].
      * apply (FloatFacts.eqb_nonzero _ 90) in H9; [ | reflexivity].
        rewrite H9 in H0. vm_compute in H0. discriminate H0.
      * pose proof (Hz 90 180 H9 H18 eq_refl eq_refl) as E.
        apply (f_equal (fun x => (x =? 90)%float)) in E.
        vm_compute in E. discriminate E.
      * apply (FloatFacts.eqb_nonzero _ 270) in H27; [ | reflexivity].
        rewrite H27 in H0. vm_compute in H0. discriminate H0.
      * pose proof (Hz 270 180 H27 H18 eq_refl eq_refl) as E.
        apply (f_equal (fun x => (x =? 270)%float)) in E.
        vm_compute in E. discriminate E.
    + destruct (strict_eq d 90); cbn; repeat eexists.
Qed.

End Reachable.

(** A link with both ends, after an accepted assignment of a number, a
    rejected one, and an accepted assignment of a string. *)
Definition sample_steps : t :=
  snd (set_inset (VNumber (-3))
         (snd (set_direction sample_StringToNumber sample_ObjectToNumber
                 (VNumber 90) sample_link))).

Definition sample_text_direction : t :=
  snd (set_direction sample_StringToNumber sample_ObjectToNumber
         (VString "abc") sample_steps).

Lemma sample_steps_reachable
  (computeSpot : t -> bool -> Spot)
  (getLinkPoint : t -> nat -> nat -> Spot -> bool -> bool -> nat -> nat -> Point)
  (Point_isReal : Point -> bool) (directionPoint : Point -> Point -> number)
  (rotate : Point -> number -> Point) :
  reachable sample_StringToNumber sample_ObjectToNumber computeSpot
    getLinkPoint Point_isReal directionPoint rotate sample_steps.
Proof.
  unfold sample_steps.
  eapply reach_step; [ | apply step_inset].
  eapply reach_step; [ | apply step_direction].
  apply reach_new.
Defined.

Lemma sample_text_direction_reachable
  (computeSpot : t -> bool -> Spot)
  (getLinkPoint : t -> nat -> nat -> Spot -> bool -> bool -> nat -> nat -> Point)
  (Point_isReal : Point -> bool) (directionPoint : Point -> Point -> number)
  (rotate : Point -> number -> Point) :
  reachable sample_StringToNumber sample_ObjectToNumber computeSpot
    getLinkPoint Point_isReal directionPoint rotate sample_text_direction.
Proof.
  unfold sample_text_direction.
  eapply reach_step; [apply sample_steps_reachable | apply step_direction].
Defined.

(** The string has been stored as the direction. *)
Example sample_text_direction_stored :
  _direction sample_text_direction = VString "abc"
  /\ _inset sample_text_direction = 10.
Proof. split; reflexivity. Qed.

Lemma reachable_well_formed_witness :
  well_formed sample_StringToNumber sample_ObjectToNumber
    sample_text_direction.
Proof.
  apply (reachable_well_formed sample_StringToNumber sample_ObjectToNumber
           (fun _ _ => mkSpot 0 0 0 0) sample_getLinkPoint
           sample_isReal (fun _ _ => 0) (fun p _ => p) sample_text_direction).
  apply sample_text_direction_reachable.
Defined.


Lemma orthogonal_route_aligned_witness :
  exists p1 p2 p3 p4 p5 p6,
    points (snd (DimensioningLink.computePoints sample_StringToNumber
                   sample_ObjectToNumber (fun _ _ => mkSpot 0 0 0 0)
                   sample_getLinkPoint sample_isReal (fun _ _ => 0)
                   (fun p _ => p) sample_steps))
      = [p1; p2; p3; p4; p5; p6]
    /\ py p1 = 10 /\ py p3 = 10 /\ py p4 = 20 /\ py p6 = 20
    /\ px p3 = px p4 /\ px p2 = px p5.
Proof.
  apply (proj2 (orthogonal_route_aligned sample_StringToNumber
                  sample_ObjectToNumber (fun _ _ => mkSpot 0 0 0 0)
                  sample_getLinkPoint sample_isReal (fun _ _ => 0)
                  (fun p _ => p) sample_steps (10, 1, 20, 2)%nat
                  eq_refl eq_refl eq_refl)).
  reflexivity.
Defined.

End DimensioningLinkStates.

(* ================================================================== *)
(** * extensionsJSM/ZoomSlider.js: what the setters and [resize] keep *)

Module ZoomSliderFrame.

Import ZoomSlider.

Local Open Scope float_scope.

(** A method that returns normally and whose only effect is to add writes
    to the page. *)
Definition appends (m : method World unit) : Prop :=
  forall w, exists added,
    m w = (Return tt, mkWorld (this w) (page w) (dom w ++ added)).

Lemma write_appends (d : DomWrite) : appends (write d).
Proof. intros w. exists [d]. reflexivity. Qed.

Lemma ret_appends : appends (ret tt).
Proof.
  intros [z p d]. exists []. unfold ret. cbn. rewrite app_nil_r. reflexivity.
Qed.

Lemma seq_appends (m k : method World unit) :
  appends m -> appends k -> appends (m ;;; k).
Proof.
  intros Hm Hk w. destruct (Hm w) as (a1 & E1).
  destruct (Hk (mkWorld (this w) (page w) (dom w ++ a1))) as (a2 & E2).
  exists (a1 ++ a2). unfold bind. rewrite E1, E2. cbn.
  rewrite app_assoc. reflexivity.
Qed.

Ltac appends :=
  repeat first
    [ apply seq_appends
    | apply write_appends
    | apply ret_appends ].

Lemma realign_appends : appends realign.
Proof.
  intros w. unfold realign, bind, get. cbv beta iota.
  destruct (_diagramDiv (this w)), (_sliderDiv (this w));
    try apply ret_appends.
  destruct (String.eqb _ _); destruct (parentElement (page w));
    unfold setStyle; appends.
Qed.

Lemma reorient_appends : appends reorient.
Proof.
  intros w. unfold reorient, bind, get. cbv beta iota.
  destruct (_sliderDiv (this w)), (_zoomSliderOut (this w)),
    (_zoomSliderIn (this w)), (_zoomSliderRange (this w));
    try apply ret_appends.
  destruct (String.eqb _ _); unfold setStyle; appends.
Qed.

Lemma resize_appends (b : bool) : appends (resize b).
Proof.
  intros w. unfold resize. unfold bind at 1. unfold get at 1. cbv beta iota.
  destruct (_sliderDiv (this w)) as [sd | ]; [ | apply ret_appends].
  destruct (_zoomSliderOut (this w)) as [zo | ]; [ | apply ret_appends].
  destruct (_zoomSliderIn (this w)) as [zi | ]; [ | apply ret_appends].
  destruct (_zoomSliderRangeCtn (this w)) as [zc | ]; [ | apply ret_appends].
  destruct (_zoomSliderRange (this w)) as [zr | ]; [ | apply ret_appends].
  assert (Htail : forall sw sh,
    appends (setStyle sd "width" (Px sw) ;;; setStyle sd "height" (Px sh) ;;;
             (if b then reorient else ret tt) ;;; realign)).
  { intros sw sh. unfold setStyle. appends.
    - destruct b; [apply reorient_appends | apply ret_appends].
    - apply realign_appends. }
  destruct (String.eqb (_orientation (this w)) "horizontal").
  - set (nine :=
           [SetStyle zo "width" (Px (_buttonSize (this w)));
            SetStyle zo "height" (Px (_buttonSize (this w)));
            SetStyle zc "width" (Px (_size (this w) - _buttonSize (this w) * 2));
            SetStyle zc "height" (Px (_buttonSize (this w)));
            SetStyle zr "width" (Px (_size (this w) - _buttonSize (this w) * 2));
            SetStyle zr "height" (Px (_buttonSize (this w)));
            SetStyle zr "transformOrigin" (Css "");
            SetStyle zi "width" (Px (_buttonSize (this w)));
            SetStyle zi "height" (Px (_buttonSize (this w)))]).
    destruct (Htail (_size (this w)) (_buttonSize (this w))
                (mkWorld (this w) (page w) (dom w ++ nine))) as (added & E).
    exists (nine ++ added). cbn [this page dom] in E.
    rewrite app_assoc, <- E. subst nine.
    unfold bind, setStyle, write, modify, ret. cbn.
    rewrite <- !app_assoc. reflexivity.
  - set (nine :=
           [SetStyle zi "width" (Px (_buttonSize (this w)));
            SetStyle zi "height" (Px (_buttonSize (this w)));
            SetStyle zc "width" (Px (_buttonSize (this w)));
            SetStyle zc "height" (Px (_size (this w) - _buttonSize (this w) * 2));
            SetStyle zr "width" (Px (_size (this w) - _buttonSize (this w) * 2));
            SetStyle zr "height" (Px (_buttonSize (this w)));
            SetStyle zr "transformOrigin"
              (PxPx ((_size (this w) - _buttonSize (this w) * 2) / 2)
                    ((_size (this w) - _buttonSize (this w) * 2) / 2));
            SetStyle zo "width" (Px (_buttonSize (this w)));
            SetStyle zo "height" (Px (_buttonSize (this w)))]).
    destruct (Htail (_buttonSize (this w)) (_size (this w))
                (mkWorld (this w) (page w) (dom w ++ nine))) as (added & E).
    exists (nine ++ added). cbn [this page dom] in E.
    rewrite app_assoc, <- E. subst nine.
    unfold bind, setStyle, write, modify, ret. cbn.
    rewrite <- !app_assoc. reflexivity.
Qed.

(** Running an appending method after an assignment to [this]. *)
Lemma assign_then (f : t -> t) (m : method World unit) (w : World) :
  appends m ->
  exists added,
    (assign f ;;; m) w =
      (Return tt, mkWorld (f (this w)) (page w) (dom w ++ added)).
Proof.
  intros Hm. destruct (Hm (mkWorld (f (this w)) (page w) (dom w))) as (a & E).
  exists a. unfold bind, assign, modify. cbn. cbn in E. rewrite E. reflexivity.
Qed.

(** The outcome [r] of a setter run on [w]: of the stored fields it has
    changed only what [only] allows; it has not changed what the page
    reports; it has only added to the writes; and if it threw, nothing at
    all has changed. *)
Definition frame (only : t -> t -> Prop) (w : World)
  (r : completion unit * World) : Prop :=
  only (this w) (this (snd r))
  /\ page (snd r) = page w
  /\ (exists added, dom (snd r) = dom w ++ added)
  /\ (threw (fst r) = true -> snd r = w).

Lemma frame_unchanged (only : t -> t -> Prop) (w : World)
  (c : completion unit) :
  only (this w) (this w) -> frame only w (c, w).
Proof.
  intros H. unfold frame. cbn. repeat split; auto.
  exists []. rewrite app_nil_r. reflexivity.
Qed.

Lemma frame_assign (only : t -> t -> Prop) (f : t -> t)
  (m : method World unit) (w : World) :
  appends m -> only (this w) (f (this w)) ->
  frame only w ((assign f ;;; m) w).
Proof.
  intros Hm Ho. destruct (assign_then f m w Hm) as (added & E).
  rewrite E. unfold frame. cbn. repeat split; auto.
  - exists added. reflexivity.
  - discriminate.
Qed.

Section Setters.

Variable Spot_equals : Spot -> value -> bool.

(** X4: an assignment through a setter changes, of the stored fields, only
    the field of that setter (for [alignmentFocus]: that field and
    [_alignment]); it never changes what the page reports, and it only
    adds to the writes made to the page.  When it throws, nothing at all
    has changed. *)
Theorem setters_frame (val : value) (w : World) :
  frame (fun z z' => z' = with_size (_size z') z) w (set_size val w)
  /\ frame (fun z z' => z' = with_buttonSize (_buttonSize z') z) w
       (set_buttonSize val w)
  /\ frame (fun z z' => z' = with_orientation (_orientation z') z) w
       (set_orientation val w)
  /\ frame (fun z z' => z' = with_opacity (_opacity z') z) w
       (set_opacity val w)
  /\ frame (fun z z' => z' = with_alignment (_alignment z') z) w
       (set_alignment Spot_equals val w)
  /\ frame (fun z z' =>
              z' = with_alignmentFocus (_alignmentFocus z')
                     (with_alignment (_alignment z') z)) w
       (set_alignmentFocus Spot_equals val w).
Proof.
  assert (Hself : forall z : t,
             z = with_size (_size z) z /\ z = with_buttonSize (_buttonSize z) z
             /\ z = with_orientation (_orientation z) z
             /\ z = with_opacity (_opacity z) z
             /\ z = with_alignment (_alignment z) z
             /\ z = with_alignmentFocus (_alignmentFocus z)
                      (with_alignment (_alignment z) z)).
  { intros []. repeat split. }
  destruct (Hself (this w)) as (S1 & S2 & S3 & S4 & S5 & S6).
  split; [ | split; [ | split; [ | split; [ | split]]]].
  - unfold set_size. unfold bind at 1. unfold get at 1. cbv beta iota.
    destruct (differs_number _ val); [ | apply frame_unchanged; exact S1].
    destruct val; try (apply frame_unchanged; exact S1).
    apply frame_assign; [apply resize_appends | reflexivity].
  - unfold set_buttonSize. unfold bind at 1. unfold get at 1. cbv beta iota.
    destruct (differs_number _ val); [ | apply frame_unchanged; exact S2].
    destruct val; try (apply frame_unchanged; exact S2).
    apply frame_assign; [apply resize_appends | reflexivity].
  - unfold set_orientation.
    destruct (differs_string val "horizontal" && differs_string val "vertical");
      [apply frame_unchanged; exact S3 | ].
    unfold bind at 1. unfold get at 1. cbv beta iota.
    destruct (differs_string val _); [ | apply frame_unchanged; exact S3].
    destruct val; try (apply frame_unchanged; exact S3).
    apply frame_assign; [apply resize_appends | reflexivity].
  - unfold set_opacity. unfold bind at 1. unfold get at 1. cbv beta iota.
    destruct (differs_number _ val); [ | apply frame_unchanged; exact S4].
    destruct val as [ | | | n | | | ]; try (apply frame_unchanged; exact S4).
    destruct ((n <? 0) || (1 <? n)); [apply frame_unchanged; exact S4 | ].
    apply frame_assign; [ | reflexivity].
    destruct (_sliderDiv (this w));
      [apply write_appends | apply ret_appends].
  - unfold set_alignment. unfold bind at 1. unfold get at 1. cbv beta iota.
    destruct (negb _); [ | apply frame_unchanged; exact S5].
    destruct val; try (apply frame_unchanged; exact S5).
    apply frame_assign; [apply realign_appends | reflexivity].
  - unfold set_alignmentFocus. unfold bind at 1. unfold get at 1.
    cbv beta iota.
    destruct (negb _); [ | apply frame_unchanged; exact S6].
    destruct val as [ | | | | | s | ]; try (apply frame_unchanged; exact S6).
    destruct (assign_then (with_alignmentFocus s) realign
                (mkWorld (with_alignment s (this w)) (page w) (dom w))
                realign_appends) as (added & E).
    cbn [this page dom] in E.
    assert (Eq : (assign (with_alignment s) ;;;
                  assign (with_alignmentFocus s) ;;; realign) w =
                 (Return tt,
                  mkWorld (with_alignmentFocus s (with_alignment s (this w)))
                    (page w) (dom w ++ added))).
    { unfold bind at 1. unfold assign at 1. unfold modify at 1.
      cbv beta iota. exact E. }
    rewrite Eq. unfold frame. cbn. repeat split.
    + exists added. reflexivity.
    + discriminate.
Qed.

End Setters.

Lemma strict_neq_refl (n : number) : is_nan n = false -> strict_neq n n = false.
Proof.
  unfold is_nan, strict_neq, strict_eq. intros H. exact H.
Qed.

(** X5: assigning to [size] or [buttonSize] a number that is not NaN a
    second time is a no-op: the second assignment returns without a
    single write to the page. *)
Theorem repeated_assignment (n : number) (w : World) :
  is_nan n = false ->
  set_size (VNumber n) (snd (set_size (VNumber n) w))
    = (Return tt, snd (set_size (VNumber n) w))
  /\ set_buttonSize (VNumber n) (snd (set_buttonSize (VNumber n) w))
     = (Return tt, snd (set_buttonSize (VNumber n) w)).
Proof.
  intros Hn. split.
  - assert (H : differs_number (_size (this (snd (set_size (VNumber n) w))))
                  (VNumber n) = false).
    { unfold set_size at 1. unfold bind at 1. unfold get at 1. cbv beta iota.
      destruct (differs_number (_size (this w)) (VNumber n)) eqn:E.
      - destruct (assign_then (with_size n) (resize false) w
                    (resize_appends false)) as (added & Ea).
        rewrite Ea. cbn. exact (strict_neq_refl n Hn).
      - cbn [snd ret]. exact E. }
    set (w1 := snd (set_size (VNumber n) w)) in *.
    unfold set_size, bind, get. rewrite H. reflexivity.
  - assert (H : differs_number
                  (_buttonSize (this (snd (set_buttonSize (VNumber n) w))))
                  (VNumber n) = false).
    { unfold set_buttonSize at 1. unfold bind at 1. unfold get at 1.
      cbv beta iota.
      destruct (differs_number (_buttonSize (this w)) (VNumber n)) eqn:E.
      - destruct (assign_then (with_buttonSize n) (resize false) w
                    (resize_appends false)) as (added & Ea).
        rewrite Ea. cbn. exact (strict_neq_refl n Hn).
      - cbn [snd ret]. exact E. }
    set (w1 := snd (set_buttonSize (VNumber n) w)) in *.
    unfold set_buttonSize, bind, get. rewrite H. reflexivity.
Qed.

(** The value that a style property of an element holds after the
    writes: that of the last write to it. *)
Definition sets (e : Elem) (prop : string) (d : DomWrite) : option CssValue :=
  match d with
  | SetStyle e' p v => if Nat.eqb e' e && String.eqb p prop then Some v else None
  | _ => None
  end.

Fixpoint last_style (e : Elem) (prop : string) (writes : list DomWrite)
  : option CssValue :=
  match writes with
  | [] => None
  | d :: rest =>
      match last_style e prop rest with
      | Some v => Some v
      | None => sets e prop d
      end
  end.

Lemma last_style_snoc (e : Elem) (prop : string) (l : list DomWrite)
  (d : DomWrite) :
  last_style e prop (l ++ [d]) =
    match sets e prop d with
    | Some v => Some v
    | None => last_style e prop l
    end.
Proof.
  induction l as [ | a l IH]; cbn [app last_style].
  - destruct (sets e prop d); reflexivity.
  - rewrite IH. destruct (sets e prop d); [reflexivity | ].
    destruct (last_style e prop l); reflexivity.
Qed.

Lemma last_style_app (e : Elem) (prop : string) (l1 l2 : list DomWrite) :
  last_style e prop (l1 ++ l2) =
    match last_style e prop l2 with
    | Some v => Some v
    | None => last_style e prop l1
    end.
Proof.
  induction l1 as [ | a l1 IH]; cbn [app last_style].
  - destruct (last_style e prop l2); reflexivity.
  - rewrite IH. destruct (last_style e prop l2); reflexivity.
Qed.

(** A write that sets no width and no height. *)
Definition no_extent (d : DomWrite) : Prop :=
  forall e, sets e "width" d = None /\ sets e "height" d = None.

Lemma last_style_no_extent (e : Elem) (l added : list DomWrite) :
  Forall no_extent added ->
  last_style e "width" (l ++ added) = last_style e "width" l
  /\ last_style e "height" (l ++ added) = last_style e "height" l.
Proof.
  intros H. rewrite !last_style_app.
  assert (G : last_style e "width" added = None
              /\ last_style e "height" added = None).
  { induction H as [ | d added Hd _ IH]; [split; reflexivity | ].
    cbn [last_style]. destruct IH as [-> ->]. exact (Hd e). }
  destruct G as [-> ->]. split; reflexivity.
Qed.

Lemma no_extent_other (e : Elem) (prop : string) (v : CssValue) :
  String.eqb prop "width" = false -> String.eqb prop "height" = false ->
  no_extent (SetStyle e prop v).
Proof.
  intros Hw Hh e'. cbn [sets]. rewrite Hw, Hh, !andb_false_r.
  split; reflexivity.
Qed.

(** A method that returns normally and only adds writes that set no width
    and no height. *)
Definition appends_no_extent (m : method World unit) : Prop :=
  forall w, exists added,
    Forall no_extent added
    /\ m w = (Return tt, mkWorld (this w) (page w) (dom w ++ added)).

Lemma ret_no_extent : appends_no_extent (ret tt).
Proof.
  intros [z p d]. exists []. split; [constructor | ].
  unfold ret. cbn. rewrite app_nil_r. reflexivity.
Qed.

Lemma write_no_extent (d : DomWrite) :
  no_extent d -> appends_no_extent (write d).
Proof.
  intros H w. exists [d]. split; [ | reflexivity].
  constructor; [exact H | constructor].
Qed.

Lemma seq_no_extent (m k : method World unit) :
  appends_no_extent m -> appends_no_extent k -> appends_no_extent (m ;;; k).
Proof.
  intros Hm Hk w. destruct (Hm w) as (a1 & F1 & E1).
  destruct (Hk (mkWorld (this w) (page w) (dom w ++ a1))) as (a2 & F2 & E2).
  exists (a1 ++ a2). split; [apply Forall_app; split; assumption | ].
  unfold bind. rewrite E1, E2. cbn. rewrite app_assoc. reflexivity.
Qed.

Ltac no_extent :=
  repeat first
    [ apply seq_no_extent
    | apply ret_no_extent
    | apply write_no_extent;
      first [ apply no_extent_other; reflexivity
            | intros ?; split; reflexivity ] ].

Lemma realign_no_extent : appends_no_extent realign.
Proof.
  intros w. unfold realign, bind, get. cbv beta iota.
  destruct (_diagramDiv (this w)), (_sliderDiv (this w));
    try apply ret_no_extent.
  destruct (String.eqb _ _); destruct (parentElement (page w));
    unfold setStyle; no_extent.
Qed.

Lemma reorient_no_extent : appends_no_extent reorient.
Proof.
  intros w. unfold reorient, bind, get. cbv beta iota.
  destruct (_sliderDiv (this w)), (_zoomSliderOut (this w)),
    (_zoomSliderIn (this w)), (_zoomSliderRange (this w));
    try apply ret_no_extent.
  destruct (String.eqb _ _); unfold setStyle; no_extent.
Qed.

(** The writes of [resize] that set a width or a height, in order. *)
Definition extent_writes (z : t) (sd zo zi zc zr : Elem) : list DomWrite :=
  if String.eqb (_orientation z) "horizontal" then
    [SetStyle zo "width" (Px (_buttonSize z));
     SetStyle zo "height" (Px (_buttonSize z));
     SetStyle zc "width" (Px (_size z - _buttonSize z * 2));
     SetStyle zc "height" (Px (_buttonSize z));
     SetStyle zr "width" (Px (_size z - _buttonSize z * 2));
     SetStyle zr "height" (Px (_buttonSize z));
     SetStyle zr "transformOrigin" (Css "");
     SetStyle zi "width" (Px (_buttonSize z));
     SetStyle zi "height" (Px (_buttonSize z));
     SetStyle sd "width" (Px (_size z));
     SetStyle sd "height" (Px (_buttonSize z))]
  else
    [SetStyle zi "width" (Px (_buttonSize z));
     SetStyle zi "height" (Px (_buttonSize z));
     SetStyle zc "width" (Px (_buttonSize z));
     SetStyle zc "height" (Px (_size z - _buttonSize z * 2));
     SetStyle zr "width" (Px (_size z - _buttonSize z * 2));
     SetStyle zr "height" (Px (_buttonSize z));
     SetStyle zr "transformOrigin"
       (PxPx ((_size z - _buttonSize z * 2) / 2)
             ((_size z - _buttonSize z * 2) / 2));
     SetStyle zo "width" (Px (_buttonSize z));
     SetStyle zo "height" (Px (_buttonSize z));
     SetStyle sd "width" (Px (_buttonSize z));
     SetStyle sd "height" (Px (_size z))].

Lemma resize_writes (b : bool) (w : World) (sd zo zi zc zr : Elem) :
  _sliderDiv (this w) = Some sd ->
  _zoomSliderOut (this w) = Some zo ->
  _zoomSliderIn (this w) = Some zi ->
  _zoomSliderRangeCtn (this w) = Some zc ->
  _zoomSliderRange (this w) = Some zr ->
  exists tail,
    Forall no_extent tail
    /\ dom (snd (resize b w))
       = (dom w ++ extent_writes (this w) sd zo zi zc zr) ++ tail.
Proof.
  intros Hsd Hzo Hzi Hzc Hzr.
  assert (Htail : appends_no_extent
                    ((if b then reorient else ret tt) ;;; realign)).
  { apply seq_no_extent; [ | apply realign_no_extent].
    destruct b; [apply reorient_no_extent | apply ret_no_extent]. }
  destruct (Htail (mkWorld (this w) (page w)
                     (dom w ++ extent_writes (this w) sd zo zi zc zr)))
    as (tail & F & E).
  exists tail. split; [exact F | ].
  cbn [this page dom] in E.
  replace ((dom w ++ extent_writes (this w) sd zo zi zc zr) ++ tail)
    with (dom (snd (((if b then reorient else ret tt) ;;; realign)
                      (mkWorld (this w) (page w)
                         (dom w ++ extent_writes (this w) sd zo zi zc zr)))))
    by (rewrite E; reflexivity).
  unfold resize. unfold bind at 1. unfold get at 1. cbv beta iota.
  rewrite Hsd, Hzo, Hzi, Hzc, Hzr. unfold extent_writes.
  destruct (String.eqb (_orientation (this w)) "horizontal");
    unfold bind, setStyle, write, modify, ret; cbn;
    rewrite <- !app_assoc; reflexivity.
Qed.

(** X6: after [resize], on a slider whose five elements are all present
    and distinct: the range input is as long as the size less the two
    buttons, in either orientation; both buttons are squares of the
    button size; and the slider's div is size by button size when
    horizontal and button size by size when vertical. *)
Theorem resize_layout (b : bool) (w : World) (sd zo zi zc zr : Elem) :
  _sliderDiv (this w) = Some sd ->
  _zoomSliderOut (this w) = Some zo ->
  _zoomSliderIn (this w) = Some zi ->
  _zoomSliderRangeCtn (this w) = Some zc ->
  _zoomSliderRange (this w) = Some zr ->
  NoDup [sd; zo; zi; zc; zr] ->
  let size := _size (this w) in
  let buttonSize := _buttonSize (this w) in
  let horizontal := String.eqb (_orientation (this w)) "horizontal" in
  let after := dom (snd (resize b w)) in
  last_style zr "width" after = Some (Px (size - buttonSize * 2))
  /\ last_style zr "height" after = Some (Px buttonSize)
  /\ last_style zo "width" after = Some (Px buttonSize)
  /\ last_style zo "height" after = Some (Px buttonSize)
  /\ last_style zi "width" after = Some (Px buttonSize)
  /\ last_style zi "height" after = Some (Px buttonSize)
  /\ last_style sd "width" after
     = Some (Px (if horizontal then size else buttonSize))
  /\ last_style sd "height" after
     = Some (Px (if horizontal then buttonSize else size)).
Proof.
  intros Hsd Hzo Hzi Hzc Hzr Hnd size buttonSize horizontal after.
  subst size buttonSize horizontal after.
  destruct (resize_writes b w sd zo zi zc zr Hsd Hzo Hzi Hzc Hzr)
    as (tail & Ftail & ->).
  assert (Hne : forall x y : nat, x <> y -> Nat.eqb x y = false)
    by (intros x y H; apply Nat.eqb_neq; exact H).
  inversion Hnd as [ | ? ? N1 Hnd1]; subst.
  inversion Hnd1 as [ | ? ? N2 Hnd2]; subst.
  inversion Hnd2 as [ | ? ? N3 Hnd3]; subst.
  inversion Hnd3 as [ | ? ? N4 _]; subst.
  cbn [In] in N1, N2, N3, N4.
  assert (E1 : Nat.eqb sd zo = false) by (apply Hne; intuition congruence).
  assert (E2 : Nat.eqb sd zi = false) by (apply Hne; intuition congruence).
  assert (E3 : Nat.eqb sd zc = false) by (apply Hne; intuition congruence).
  assert (E4 : Nat.eqb sd zr = false) by (apply Hne; intuition congruence).
  assert (E5 : Nat.eqb zo zi = false) by (apply Hne; intuition congruence).
  assert (E6 : Nat.eqb zo zc = false) by (apply Hne; intuition congruence).
  assert (E7 : Nat.eqb zo zr = false) by (apply Hne; intuition congruence).
  assert (E8 : Nat.eqb zi zc = false) by (apply Hne; intuition congruence).
  assert (E9 : Nat.eqb zi zr = false) by (apply Hne; intuition congruence).
  assert (E10 : Nat.eqb zc zr = false) by (apply Hne; intuition congruence).
  assert (F1 : Nat.eqb zo sd = false) by (rewrite Nat.eqb_sym; exact E1).
  assert (F2 : Nat.eqb zi sd = false) by (rewrite Nat.eqb_sym; exact E2).
  assert (F3 : Nat.eqb zc sd = false) by (rewrite Nat.eqb_sym; exact E3).
  assert (F4 : Nat.eqb zr sd = false) by (rewrite Nat.eqb_sym; exact E4).
  assert (F5 : Nat.eqb zi zo = false) by (rewrite Nat.eqb_sym; exact E5).
  assert (F6 : Nat.eqb zc zo = false) by (rewrite Nat.eqb_sym; exact E6).
  assert (F7 : Nat.eqb zr zo = false) by (rewrite Nat.eqb_sym; exact E7).
  assert (F8 : Nat.eqb zc zi = false) by (rewrite Nat.eqb_sym; exact E8).
  assert (F9 : Nat.eqb zr zi = false) by (rewrite Nat.eqb_sym; exact E9).
  assert (F10 : Nat.eqb zr zc = false) by (rewrite Nat.eqb_sym; exact E10).
  assert (G : forall e, 
    last_style e "width"
      ((dom w ++ extent_writes (this w) sd zo zi zc zr) ++ tail)
    = match last_style e "width" (extent_writes (this w) sd zo zi zc zr) with
      | Some v => Some v
      | None => last_style e "width" (dom w)
      end
    /\ last_style e "height"
         ((dom w ++ extent_writes (this w) sd zo zi zc zr) ++ tail)
       = match last_style e "height" (extent_writes (this w) sd zo zi zc zr) with
         | Some v => Some v
         | None => last_style e "height" (dom w)
         end).
  { intros e. destruct (last_style_no_extent e
                 (dom w ++ extent_writes (this w) sd zo zi zc zr) tail Ftail)
      as [-> ->].
    rewrite !last_style_app. split; reflexivity. }
  repeat split;
    first [rewrite (proj1 (G _)) | rewrite (proj2 (G _))];
    unfold extent_writes;
    destruct (String.eqb (_orientation (this w)) "horizontal");
    cbn [last_style sets];
    rewrite ?Nat.eqb_refl, ?E1, ?E2, ?E3, ?E4, ?E5, ?E6, ?E7, ?E8,
      ?E9, ?E10, ?F1, ?F2, ?F3, ?F4, ?F5, ?F6, ?F7, ?F8, ?F9, ?F10;
    reflexivity.
Qed.

Lemma resize_layout_witness :
  last_style 4%nat "width" (dom (snd (resize true sample_slider)))
    = Some (Px (125 - 25 * 2))
  /\ last_style 1%nat "height" (dom (snd (resize true sample_slider)))
     = Some (Px 125).
Proof.
  destruct (resize_layout true sample_slider 1%nat 2%nat 5%nat 3%nat 4%nat
              eq_refl eq_refl eq_refl eq_refl eq_refl)
    as (A & _ & _ & _ & _ & _ & _ & B).
  - repeat constructor; cbn; intuition discriminate.
  - split; [exact A | exact B].
Defined.

Lemma repeated_assignment_witness :
  set_size (VNumber 200) (snd (set_size (VNumber 200) sample_slider))
    = (Return tt, snd (set_size (VNumber 200) sample_slider)).
Proof.
  apply (proj1 (repeated_assignment 200 sample_slider eq_refl)).
Defined.

End ZoomSliderFrame.

(* ================================================================== *)
(** * extensionsJSM/BalloonLink.js: the shape of the outline *)

Module BalloonLinkShape.

Import BalloonLink.

Local Open Scope float_scope.

(** The far point lies outside the bounds, by one of the four comparisons
    that the method makes. *)
Definition outside (pn : Point) (bb : Rect) : bool :=
  (px pn <? Rect_left bb) || (Rect_right bb <? px pn)
  || (py pn <? Rect_top bb) || (Rect_bottom bb <? py pn).

(** The figure begins with the two sides of the triangle, the first of
    them ending at [pn]. *)
Definition tip_at (pn : Point) (p : Pen) : Prop :=
  exists v w rest,
    fig_segments p = Line (px pn) (py pn) :: Line v w :: rest.

Lemma point_tip (pn : Point) (v w x y : number) :
  tip_at pn (point (px pn) (py pn) v w (start x y new_Pen)).
Proof. exists v, w, []. reflexivity. Qed.

Lemma turn_tip (pn : Point) (c x y : number) (p : Pen) :
  tip_at pn p -> tip_at pn (turn c x y p).
Proof.
  intros (v & w & rest & E). unfold turn. cbn [fig_segments]. rewrite E.
  exists v, w. eexists. cbn [app]. reflexivity.
Qed.

Definition arc_count (segs : list PathSegment) : nat :=
  List.length
    (filter (fun s => match s with Arc _ _ _ _ _ _ => true | Line _ _ => false end)
       segs).

(** Every arc is a quarter turn that starts at a multiple of a right
    angle. *)
Definition quarter (s : PathSegment) : Prop :=
  match s with
  | Arc startAngle sweep _ _ _ _ =>
      sweep = 90
      /\ (startAngle = 0 \/ startAngle = 90 \/ startAngle = 180
          \/ startAngle = 270)
  | Line _ _ => True
  end.

(** The size of the figure drawn so far: at most [n] segments, at most
    [a] of them arcs, every arc a quarter turn. *)
Definition within (n a : nat) (p : Pen) : Prop :=
  List.length (fig_segments p) <= n
  /\ arc_count (fig_segments p) <= a
  /\ Forall quarter (fig_segments p).

Lemma start_within (x y : number) : within 0 0 (start x y new_Pen).
Proof. unfold within. cbn. repeat split; auto. Qed.

Lemma point_within (n a : nat) (x y v w : number) (p : Pen) :
  within n a p -> within (n + 2) a (point x y v w p).
Proof.
  intros (A & B & C). unfold within, point, arc_count in *.
  cbn [fig_segments]. rewrite length_app, filter_app, length_app.
  cbn. repeat split; try lia.
  apply Forall_app. split; [exact C | repeat constructor].
Qed.

Lemma turn_within (n a : nat) (c x y : number) (p : Pen) :
  within n a p -> within (n + 2) (a + 1) (turn c x y p).
Proof.
  intros (A & B & C). unfold within, turn, arc_count in *.
  cbn [fig_segments]. rewrite length_app, filter_app, length_app.
  repeat match goal with |- context [if ?b then _ else _] => destruct b end;
    cbn; (split; [lia | split; [lia | ]]);
    (apply Forall_app; split; [exact C | ]);
    repeat (apply Forall_cons || apply Forall_nil); cbn [quarter];
    auto 10.
Qed.

Section Shape.

Variable addMargin : Rect -> Margin -> Rect.
Variable intersectsRect : Rect -> Rect -> bool.

Lemma outline_tip (l : t) (bb : Rect) :
  outside (far_point intersectsRect l bb) bb = true ->
  tip_at (far_point intersectsRect l bb) (outline intersectsRect l bb).
Proof.
  unfold outside, outline. cbv zeta.
  set (pn := far_point intersectsRect l bb).
  destruct (px pn <? Rect_left bb);
    [ destruct (py pn <? Rect_top bb);
      [ | destruct (Rect_bottom bb <? py pn)]
    | destruct (Rect_right bb <? px pn);
      [ destruct (py pn <? Rect_top bb);
        [ | destruct (Rect_bottom bb <? py pn)]
      | destruct (py pn <? Rect_top bb);
        [ | destruct (Rect_bottom bb <? py pn)] ] ];
    intros H; try discriminate H;
    repeat apply turn_tip; apply point_tip.
Qed.

(** X7: when the far point is outside the bounds of the from node,
    [makeGeometry] does not throw: it returns one closed figure, offset by
    the position of the route bounds, that begins with the two sides of
    the triangle, the first of them ending at the far point. *)
Theorem makeGeometry_tip (l : t) (n : NodeInfo) :
  fromNode l = Some n ->
  let bb := balloon_bounds addMargin n in
  let pn := far_point intersectsRect l bb in
  outside pn bb = true ->
  exists sx sy v w rest,
    makeGeometry addMargin intersectsRect l =
      Return
        (mkGeometry
           [mkFigure sx sy (Line (px pn) (py pn) :: Line v w :: rest) true]
           [mkPoint (- rx (routeBounds l)) (- ry (routeBounds l))]).
Proof.
  intros Hn bb pn Hout. unfold makeGeometry. rewrite Hn. fold bb.
  destruct (outline_tip l bb Hout) as (v & w & rest & E). fold pn in E.
  rewrite E. do 5 eexists. reflexivity.
Qed.

(** X8: the outline never has more than ten segments, and never more than
    four arcs, each of them a quarter turn (a sweep of 90) that starts at
    0, 90, 180 or 270. *)
Theorem outline_size (l : t) (bb : Rect) :
  List.length (fig_segments (outline intersectsRect l bb)) <= 10
  /\ arc_count (fig_segments (outline intersectsRect l bb)) <= 4
  /\ Forall quarter (fig_segments (outline intersectsRect l bb)).
Proof.
  assert (Hweak : forall n a p, within n a p -> n <= 10 -> a <= 4 ->
                                within 10 4 p).
  { intros n a p (A & B & C) Hn Ha. unfold within. repeat split; auto; lia. }
  change (within 10 4 (outline intersectsRect l bb)).
  unfold outline. cbv zeta.
  repeat match goal with
         | |- context [if (?a <? ?b) then _ else _] => destruct (a <? b)
         end.
  all: eapply Hweak;
    [ repeat first [ apply turn_within | apply point_within
                   | apply start_within ]
    | cbn; lia | cbn; lia ].
Qed.

End Shape.

Lemma makeGeometry_tip_witness :
  exists sx sy v w rest,
    makeGeometry plain_addMargin (fun _ _ => false) sample_balloon =
      Return
        (mkGeometry
           [mkFigure sx sy (Line 200 200 :: Line v w :: rest) true]
           [mkPoint (- 0) (- 0)]).
Proof.
  apply (makeGeometry_tip plain_addMargin (fun _ _ => false) sample_balloon
           (mkNode (mkRect 0 0 100 50) (mkMargin 0 0 0 0)) eq_refl).
  vm_compute. reflexivity.
Defined.

End BalloonLinkShape.

(* ================================================================== *)
(** * extensionsJSM/ArrangingLayout.ts: [splitParts] with any filter *)

Module ArrangingLayoutSplit.

Import Parts ArrangingLayout.

Section AnyFilter.

Variable linksConnected_count : nat -> nat.
Variable fromNode : nat -> option nat.
Variable toNode : nat -> option nat.
Variable filter : option (Part -> bool).

Local Notation "'splitParts'" :=
  (ArrangingLayout.splitParts linksConnected_count fromNode toNode filter).
Local Notation "'assign_nonlink'" :=
  (ArrangingLayout.assign_nonlink linksConnected_count filter).
Local Notation "'assign_link'" :=
  (ArrangingLayout.assign_link fromNode toNode).

(** Whether a Part that is not a Link belongs to the main graph: by the
    filter when there is one, and otherwise by having a connected link. *)
Definition in_main (p : Part) : bool :=
  match filter with
  | Some pred => pred p
  | None =>
      match p with
      | Node n => (0 <? linksConnected_count n)%nat
      | _ => false
      end
  end.

Lemma assign_nonlink_in_main (m s : GoSet) (p : Part) :
  assign_nonlink (m, s) p =
    if instanceof_Link p then (m, s)
    else if in_main p then (Set_add p m, s) else (m, Set_add p s).
Proof.
  unfold ArrangingLayout.assign_nonlink, in_main.
  destruct p; destruct filter; reflexivity.
Qed.

Lemma assign_nonlink_any (coll m s : GoSet) (x : Part) :
  (In x (fst (fold_left assign_nonlink coll (m, s))) <->
     In x m \/ (In x coll /\ instanceof_Link x = false /\ in_main x = true))
  /\ (In x (snd (fold_left assign_nonlink coll (m, s))) <->
     In x s \/ (In x coll /\ instanceof_Link x = false /\ in_main x = false)).
Proof.
  revert m s. induction coll as [ | p coll IH]; intros m s; cbn [fold_left].
  - cbn. tauto.
  - assert (Hstep :
      (In x (fst (assign_nonlink (m, s) p)) <->
         In x m \/ (x = p /\ instanceof_Link x = false /\ in_main x = true))
      /\ (In x (snd (assign_nonlink (m, s) p)) <->
         In x s \/ (x = p /\ instanceof_Link x = false /\ in_main x = false))).
    { rewrite assign_nonlink_in_main.
      destruct (instanceof_Link p) eqn:El; [ | destruct (in_main p) eqn:Em];
        cbn [fst snd]; rewrite ?Set_add_In; split; split; intros H;
        intuition (subst; try congruence; auto). }
    destruct Hstep as [S1 S2].
    destruct (assign_nonlink (m, s) p) as [m1 s1]. cbn [fst snd] in S1, S2.
    destruct (IH m1 s1) as [IH1 IH2]. rewrite IH1, IH2, S1, S2.
    cbn [In]. split; split; intros H; intuition (subst; auto).
Qed.

Lemma assign_nonlink_NoDup (coll m s : GoSet) :
  NoDup m -> NoDup s ->
  NoDup (fst (fold_left assign_nonlink coll (m, s)))
  /\ NoDup (snd (fold_left assign_nonlink coll (m, s))).
Proof.
  revert m s. induction coll as [ | p coll IH]; intros m s Hm Hs;
    cbn [fold_left]; [auto | ].
  assert (H : NoDup (fst (assign_nonlink (m, s) p))
              /\ NoDup (snd (assign_nonlink (m, s) p))).
  { unfold ArrangingLayout.assign_nonlink.
    destruct (instanceof_Link p); [auto | ].
    match goal with |- context [if ?c then _ else _] => destruct c end;
      cbn [fst snd]; auto using Set_add_NoDup. }
  destruct (assign_nonlink (m, s) p) as [m1 s1]. destruct H.
  apply IH; assumption.
Qed.

Lemma assign_link_NoDup (coll m s : GoSet) :
  NoDup m -> NoDup s ->
  NoDup (fst (fold_left assign_link coll (m, s)))
  /\ NoDup (snd (fold_left assign_link coll (m, s))).
Proof.
  revert m s. induction coll as [ | p coll IH]; intros m s Hm Hs;
    cbn [fold_left]; [auto | ].
  assert (H : NoDup (fst (assign_link (m, s) p))
              /\ NoDup (snd (assign_link (m, s) p))).
  { unfold ArrangingLayout.assign_link.
    destruct p; auto. destruct (fromNode id); auto. destruct (toNode id); auto.
    repeat match goal with |- context [if ?c then _ else _] => destruct c end;
      cbn [fst snd]; auto using Set_add_NoDup. }
  destruct (assign_link (m, s) p) as [m1 s1]. destruct H.
  apply IH; assumption.
Qed.

(** The two collections after both passes, from two empty ones. *)
Lemma splitParts_members (coll : GoSet) :
  let m := fst (splitParts coll [] []) in
  let s := snd (splitParts coll [] []) in
  (forall x, instanceof_Link x = false ->
     (In x m <-> In x coll /\ in_main x = true)
     /\ (In x s <-> In x coll /\ in_main x = false))
  /\ (forall l, (In (Link l) m <->
                 In (Link l) coll /\ both_ends_in fromNode toNode m l)
             /\ (In (Link l) s <->
                 In (Link l) coll /\ both_ends_in fromNode toNode s l)).
Proof.
  intros m s. subst m s. unfold ArrangingLayout.splitParts.
  pose proof (fun x => assign_nonlink_any coll [] [] x) as P1.
  set (r1 := fold_left assign_nonlink coll _) in *. clearbody r1.
  destruct r1 as [m1 s1]. cbn [fst snd In] in P1.
  pose proof (assign_link_fold linksConnected_count fromNode toNode coll m1 s1)
    as (Q1 & Q2 & Q3).
  set (r2 := fold_left assign_link coll _) in *. clearbody r2.
  destruct r2 as [m2 s2]. cbn [fst snd] in *.
  assert (Em : forall l, both_ends_in fromNode toNode m2 l
                         <-> both_ends_in fromNode toNode m1 l).
  { intros l. apply both_ends_in_ext. intros n. apply (Q1 (Node n)).
    reflexivity. }
  assert (Es : forall l, both_ends_in fromNode toNode s2 l
                         <-> both_ends_in fromNode toNode s1 l).
  { intros l. apply both_ends_in_ext. intros n. apply (Q1 (Node n)).
    reflexivity. }
  assert (Hexcl : forall l, both_ends_in fromNode toNode s1 l ->
                            ~ both_ends_in fromNode toNode m1 l).
  { intros l (f & t & Hf & Ht & H1 & _) (f' & t' & Hf' & _ & H1' & _).
    assert (f' = f) by congruence. subst f'.
    apply P1 in H1. apply P1 in H1'.
    destruct H1 as [[] | (_ & _ & H1)]. destruct H1' as [[] | (_ & _ & H1')].
    congruence. }
  split.
  - intros x Hx. destruct (Q1 x Hx) as [A B]. rewrite A, B.
    destruct (P1 x) as [M S]. rewrite M, S. tauto.
  - intros l.
    assert (Nm : ~ In (Link l) m1).
    { intros H. apply P1 in H. destruct H as [[] | (_ & H & _)].
      discriminate H. }
    assert (Ns : ~ In (Link l) s1).
    { intros H. apply P1 in H. destruct H as [[] | (_ & H & _)].
      discriminate H. }
    rewrite Q2, Q3, Em, Es. specialize (Hexcl l). tauto.
Qed.

(** X9: whatever the filter, the two collections that [splitParts] fills
    from empty hold no Part twice, hold only Parts of the given
    collection, share no Part, and between them hold every Part of the
    collection that is not a Link. *)
Theorem splitParts_partition (coll : GoSet) :
  let m := fst (splitParts coll [] []) in
  let s := snd (splitParts coll [] []) in
  NoDup m /\ NoDup s
  /\ (forall x, In x m \/ In x s -> In x coll)
  /\ (forall x, In x m -> In x s -> False)
  /\ (forall x, In x coll -> instanceof_Link x = false -> In x m \/ In x s).
Proof.
  intros m s. subst m s.
  pose proof (splitParts_members coll) as [Hn Hl]. cbv zeta in Hn, Hl.
  assert (Hnd : NoDup (fst (splitParts coll [] []))
                /\ NoDup (snd (splitParts coll [] []))).
  { unfold ArrangingLayout.splitParts.
    pose proof (assign_nonlink_NoDup coll [] [] (NoDup_nil _) (NoDup_nil _))
      as H1.
    set (r1 := fold_left assign_nonlink coll _) in *. clearbody r1.
    destruct r1 as [m1 s1]. destruct H1 as [A B].
    apply assign_link_NoDup; assumption. }
  destruct Hnd as [Hnd1 Hnd2].
  split; [exact Hnd1 | ]. split; [exact Hnd2 | ]. split; [ | split].
  - intros x H. destruct x as [n | l | i].
    + destruct (Hn (Node n) eq_refl) as [A B]. rewrite A, B in H. tauto.
    + destruct (Hl l) as [A B]. rewrite A, B in H. tauto.
    + destruct (Hn (Plain i) eq_refl) as [A B]. rewrite A, B in H. tauto.
  - intros x Hm Hs. destruct x as [n | l | i].
    + destruct (Hn (Node n) eq_refl) as [A B]. apply A in Hm. apply B in Hs.
      destruct Hm, Hs. congruence.
    + destruct (Hl l) as [A B]. apply A in Hm. apply B in Hs.
      destruct Hm as [_ (f & t & Hf & _ & H1 & _)].
      destruct Hs as [_ (f' & t' & Hf' & _ & H1' & _)].
      assert (f' = f) by congruence. subst f'.
      destruct (Hn (Node f) eq_refl) as [A' B'].
      apply A' in H1. apply B' in H1'. destruct H1, H1'. congruence.
    + destruct (Hn (Plain i) eq_refl) as [A B]. apply A in Hm. apply B in Hs.
      destruct Hm, Hs. congruence.
  - intros x Hx Hnl. destruct (Hn x Hnl) as [A B]. rewrite A, B.
    destruct (in_main x); auto.
Qed.

(** X10: with a filter, a Part that is not a Link goes to the main
    collection when the filter is true of it and to the side collection
    when it is false, whatever links it has; a Link follows its two ends. *)
Theorem splitParts_with_filter (pred : Part -> bool) (coll : GoSet) :
  filter = Some pred ->
  let m := fst (splitParts coll [] []) in
  let s := snd (splitParts coll [] []) in
  (forall x, In x coll -> instanceof_Link x = false ->
     (In x m <-> pred x = true) /\ (In x s <-> pred x = false))
  /\ (forall l, In (Link l) coll ->
      (In (Link l) m <-> both_ends_in fromNode toNode m l)
      /\ (In (Link l) s <-> both_ends_in fromNode toNode s l)).
Proof.
  intros Hf m s. subst m s.
  pose proof (splitParts_members coll) as [Hn Hl]. cbv zeta in Hn, Hl.
  split.
  - intros x Hx Hnl. destruct (Hn x Hnl) as [A B]. rewrite A, B.
    unfold in_main. rewrite Hf. tauto.
  - intros l Hin. destruct (Hl l) as [A B]. rewrite A, B. tauto.
Qed.

(** X11: without a filter, when every Node at an end of a Link of the
    collection has that link counted among its connected links, no Link
    is put in the side collection: the side collection holds exactly the
    Nodes of the collection without connected links and its Parts that are
    neither Nodes nor Links. *)
Theorem splitParts_side_has_no_links (coll : GoSet) :
  filter = None ->
  (forall l n, In (Link l) coll ->
     fromNode l = Some n \/ toNode l = Some n -> 0 < linksConnected_count n) ->
  let s := snd (splitParts coll [] []) in
  (forall l, ~ In (Link l) s)
  /\ (forall x, In x s <->
        In x coll /\ ((exists n, x = Node n /\ linksConnected_count n = 0)
                      \/ exists i, x = Plain i)).
Proof.
  intros Hf Hinv s. subst s.
  pose proof (splitParts_members coll) as [Hn Hl]. cbv zeta in Hn, Hl.
  assert (Hno : forall l, ~ In (Link l) (snd (splitParts coll [] []))).
  { intros l H. destruct (Hl l) as [_ B]. apply B in H.
    destruct H as [Hin (f & t & Hfrom & _ & H1 & _)].
    destruct (Hn (Node f) eq_refl) as [_ B']. apply B' in H1.
    destruct H1 as [_ H1]. unfold in_main in H1. rewrite Hf in H1.
    apply Nat.ltb_ge in H1.
    specialize (Hinv l f Hin (or_introl Hfrom)). lia. }
  split; [exact Hno | ].
  intros x. destruct x as [n | l | i].
  - destruct (Hn (Node n) eq_refl) as [_ B]. rewrite B.
    unfold in_main. rewrite Hf. rewrite Nat.ltb_ge. split.
    + intros [H1 H2]. split; [exact H1 | ]. left. exists n.
      split; [reflexivity | lia].
    + intros [H1 [(n' & E & Hz) | (i & E)]]; [ | discriminate E].
      inversion E; subst n'. split; [exact H1 | lia].
  - split; [intros H; destruct (Hno l H) | ].
    intros [_ [(n & E & _) | (i & E)]]; discriminate E.
  - destruct (Hn (Plain i) eq_refl) as [_ B]. rewrite B.
    unfold in_main. rewrite Hf. split.
    + intros [H1 _]. split; [exact H1 | ]. right. exists i. reflexivity.
    + intros [H1 _]. split; [exact H1 | reflexivity].
Qed.

End AnyFilter.

Lemma splitParts_with_filter_witness :
  In (Node 3)
    (fst (ArrangingLayout.splitParts sample_count sample_from sample_to
            (Some (fun _ => true)) sample_diagram [] []))
  <-> (fun _ : Part => true) (Node 3) = true.
Proof.
  apply (proj1 (splitParts_with_filter sample_count sample_from sample_to
                  (Some (fun _ => true)) (fun _ => true) sample_diagram
                  eq_refl) (Node 3)).
  - cbn. auto 10.
  - reflexivity.
Defined.

(** The sample diagram without link 8, whose end at node 3 is not counted
    among that node's links. *)
Definition sample_connected : GoSet := [Link 7; Node 1; Plain 4; Node 2; Node 3].

Lemma splitParts_side_has_no_links_witness :
  In (Node 3)
    (snd (ArrangingLayout.splitParts sample_count sample_from sample_to
            None sample_connected [] [])).
Proof.
  apply (proj2 (splitParts_side_has_no_links sample_count sample_from
                  sample_to None sample_connected eq_refl
                  ltac:(intros l n H E; cbn in H;
                        destruct H as [H | [H | [H | [H | [H | []]]]]];
                        inversion H; subst l; cbn in E;
                        destruct E as [E | E]; inversion E; subst n;
                        cbn; lia))
           (Node 3)).
  split.
  - cbn. auto 10.
  - left. exists 3. split; reflexivity.
Defined.

End ArrangingLayoutSplit.

(* ================================================================== *)
(** * extensionsJSM/DoubleTreeLayout.ts: [doLayout], the default
      direction, and the setters *)

Module DoubleTreeLayoutRun.

Import Parts DoubleTreeLayout.

Local Open Scope float_scope.

(** The remaining properties of the layout; a set of options for a
    TreeLayout is an object, referred to by its identity. *)
Record Options : Type := mkOptions {
  vertical : bool;
  bottomRightOptions : option nat;
  topLeftOptions : option nat }.

(** A TreeLayout as far as the layout sets it up: the options assigned to
    it by [createTreeLayout], its diagram, its angle and its arrangement.
    A new TreeLayout has no diagram, angle 0 and the arrangement
    [Vertical]. *)
Inductive TreeArrangement : Type := Vertical | Horizontal | FixedRoots.

Record TreeLayout : Type := mkTreeLayout {
  assigned : option nat;
  tree_diagram : option bool;
  angle : number;
  arrangement : TreeArrangement }.

(** Calls into the host library that [doLayout] makes. *)
Inductive HostCall : Type :=
| StartTransaction (name : string)
| CommitTransaction (name : string)
| TreeLayout_doLayout (layout : TreeLayout) (parts : GoSet).

Section Run.

Variable Graph : Type.
Variable findTreeParentNode : Graph -> nat -> option nat.
Variable findTreeChildrenNodes : Graph -> nat -> list nat.
Variable findTreeParts : Graph -> nat -> list Part.
Variable findTreeParentLink : Graph -> nat -> option nat.
Variable new_Node : Graph -> nat * Graph.
Variable new_Link : Graph -> nat * Graph.
Variable set_location : nat -> Point -> Graph -> Graph.
Variable set_fromNode : nat -> nat -> Graph -> Graph.
Variable set_toNode : nat -> nat -> Graph -> Graph.

(** What [TreeLayout.doLayout] does to the graph. *)
Variable treeLayout_doLayout : TreeLayout -> GoSet -> Graph -> Graph.

Variable lay : Layout.
Variable opts : Options.

Local Notation "'World'" := (DoubleTreeLayout.World Graph).
Local Notation "'separatePartsForLayout'" :=
  (DoubleTreeLayout.separatePartsForLayout Graph findTreeParentNode
     findTreeChildrenNodes findTreeParts findTreeParentLink new_Node new_Link
     set_location set_fromNode set_toNode lay).
Local Notation "'choose_root'" :=
  (DoubleTreeLayout.choose_root Graph findTreeParentNode new_Node new_Link
     set_location set_fromNode set_toNode lay).
Local Notation "'each'" :=
  (DoubleTreeLayout.each Graph findTreeParts findTreeParentLink lay).
Local Notation "'place_child'" :=
  (DoubleTreeLayout.place_child Graph findTreeParts findTreeParentLink lay).

(** The graph with the two collections, and the calls made so far. *)
Record Run : Type := mkRun {
  world : World;
  calls : list HostCall }.

Definition call (c : HostCall) : method Run unit :=
  modify (fun r => mkRun (world r) (calls r ++ [c])).

(** A method of the layout on the graph and the collections, run as part
    of [doLayout]. *)
Definition on_world {A : Type} (m : method World A) : method Run A :=
  fun r =>
    match m (world r) with
    | (c, w') => (c, mkRun w' (calls r))
    end.

(** [createTreeLayout(positive)] *)
Definition createTreeLayout (positive : bool) : TreeLayout :=
  let o := topLeftOptions opts in
  let o := if positive then bottomRightOptions opts else o in
  mkTreeLayout o None 0 Vertical.

(** [layout.doLayout(parts)] on one of the two TreeLayouts. *)
Definition run_tree (layout : TreeLayout) (parts : GoSet) : method Run unit :=
  call (TreeLayout_doLayout layout parts) ;;;
  modify (fun r =>
    mkRun (mkWorld Graph
             (treeLayout_doLayout layout parts (graph Graph (world r)))
             (leftParts Graph (world r)) (rightParts Graph (world r)))
          (calls r)).

(** [doLayout(coll)], from the collection [coll2] that [collectParts]
    returns. *)
Definition doLayout (coll2 : GoSet) : method Run unit :=
  match coll2 with
  | [] => ret tt
  | _ :: _ =>
      (match diagram lay with
       | Some _ => call (StartTransaction "Double Tree Layout")
       | None => ret tt
       end) ;;;
      modify (fun r => mkRun (mkWorld Graph (graph Graph (world r)) [] [])
                         (calls r)) ;;;
      on_world (separatePartsForLayout coll2) ;;;
      let layout1 := createTreeLayout false in
      let layout1 :=
        mkTreeLayout (assigned layout1) (diagram lay)
          (if vertical opts then 270 else 180) FixedRoots in
      let layout2 := createTreeLayout true in
      let layout2 :=
        mkTreeLayout (assigned layout2) (diagram lay)
          (if vertical opts then 90 else 0) FixedRoots in
      r <- get ;;
      run_tree layout1 (leftParts Graph (world r)) ;;;
      run_tree layout2 (rightParts Graph (world r)) ;;;
      match diagram lay with
      | Some _ => call (CommitTransaction "Double Tree Layout")
      | None => ret tt
      end
  end.

(** The two TreeLayouts of [doLayout] at the time they are run. *)
Definition leftLayout : TreeLayout :=
  mkTreeLayout (topLeftOptions opts) (diagram lay)
    (if vertical opts then 270 else 180) FixedRoots.

Definition rightLayout : TreeLayout :=
  mkTreeLayout (bottomRightOptions opts) (diagram lay)
    (if vertical opts then 90 else 0) FixedRoots.

(** The calls of a whole run: the two TreeLayouts, inside a transaction
    when the layout has a diagram. *)
Definition whole_run (left right : GoSet) : list HostCall :=
  let trees := [TreeLayout_doLayout leftLayout left;
                TreeLayout_doLayout rightLayout right] in
  match diagram lay with
  | Some _ =>
      StartTransaction "Double Tree Layout" :: trees
        ++ [CommitTransaction "Double Tree Layout"]
  | None => trees
  end.

(** The state after a whole run that ended with the collections [left]
    and [right] and the graph [g] before the TreeLayouts. *)
Definition after_run (r : Run) (g : Graph) (left right : GoSet) : Run :=
  mkRun (mkWorld Graph
           (treeLayout_doLayout rightLayout right
              (treeLayout_doLayout leftLayout left g))
           left right)
        (calls r ++ whole_run left right).

(** [separatePartsForLayout] up to the loop over the children. *)
Lemma separate_unfold (coll : GoSet) (w : World) :
  separatePartsForLayout coll w =
    match fst (choose_root (graph Graph w) coll) with
    | None =>
        (Return tt,
         mkWorld Graph (snd (choose_root (graph Graph w) coll))
           (leftParts Graph w) (rightParts Graph w))
    | Some r =>
        each (findTreeChildrenNodes (snd (choose_root (graph Graph w) coll)) r)
          (mkWorld Graph (snd (choose_root (graph Graph w) coll))
             (Set_add (Node r) (leftParts Graph w))
             (Set_add (Node r) (rightParts Graph w)))
    end.
Proof.
  unfold DoubleTreeLayout.separatePartsForLayout, bind, get.
  destruct (choose_root (graph Graph w) coll) as [[r | ] g]; reflexivity.
Qed.

(** [doLayout] on a collection that is not empty, from the outcome of
    [separatePartsForLayout]. *)
Lemma doLayout_outcome (p : Part) (coll : GoSet) (r : Run) :
  doLayout (p :: coll) r =
    match separatePartsForLayout (p :: coll)
            (mkWorld Graph (graph Graph (world r)) [] []) with
    | (Return _, w1) =>
        (Return tt,
         after_run r (graph Graph w1) (leftParts Graph w1)
           (rightParts Graph w1))
    | (Throw msg, w1) =>
        (Throw msg,
         mkRun w1
           (calls r ++
            match diagram lay with
            | Some _ => [StartTransaction "Double Tree Layout"]
            | None => []
            end))
    end.
Proof.
  unfold doLayout, after_run, whole_run, run_tree, on_world, call, bind,
    modify, get, ret, leftLayout, rightLayout, createTreeLayout.
  cbn [assigned].
  destruct (diagram lay) as [d | ]; cbn [world calls graph leftParts rightParts];
    destruct (separatePartsForLayout (p :: coll) _) as [[u | msg] w1];
    cbn [world calls graph leftParts rightParts];
    rewrite <- ?app_assoc, ?app_nil_r; reflexivity.
Qed.




(** X13: [doLayout] does nothing at all on an empty collection.  On any
    other one, with a direction function, it returns normally: it splits
    the Parts into two new collections, runs one TreeLayout on the left
    collection at angle 180 (270 when vertical) with the top-left options
    and then one on the right collection at angle 0 (90 when vertical)
    with the bottom-right options, both with fixed roots and the layout's
    diagram, and does so inside one transaction named "Double Tree Layout"
    when the layout has a diagram. *)
Theorem doLayout_runs (f : nat -> bool) (coll : GoSet) (r : Run) :
  directionFunction lay = Some f ->
  match coll with
  | [] => doLayout coll r = (Return tt, r)
  | _ :: _ =>
      exists w1,
        separatePartsForLayout coll
          (mkWorld Graph (graph Graph (world r)) [] []) = (Return tt, w1)
        /\ doLayout coll r =
             (Return tt,
              after_run r (graph Graph w1) (leftParts Graph w1)
                (rightParts Graph w1))
  end.
Proof.
  intros Hf. destruct coll as [ | p coll]; [reflexivity | ].
  rewrite doLayout_outcome, separate_unfold.
  set (w0 := mkWorld Graph (graph Graph (world r)) [] []).
  destruct (fst (choose_root (graph Graph w0) (p :: coll))) as [rt | ].
  - destruct (each_spec Graph findTreeParts findTreeParentLink set_location
                set_fromNode set_toNode lay f
                (findTreeChildrenNodes
                   (snd (choose_root (graph Graph w0) (p :: coll))) rt)
                (mkWorld Graph (snd (choose_root (graph Graph w0) (p :: coll)))
                   (Set_add (Node rt) (leftParts Graph w0))
                   (Set_add (Node rt) (rightParts Graph w0))) Hf)
      as (w1 & E & _).
    exists w1. rewrite E. split; reflexivity.
  - eexists. split; reflexivity.
Qed.

End Run.

(** ** The class: its constructor and its setters *)

(** A function object: its identity and what it computes. *)
Record Fn : Type := mkFn {
  fn_id : nat;
  fn_call : nat -> bool }.

(** What a program can assign to [directionFunction]: a function, or any
    other value. *)
Inductive Assigned : Type :=
| AFunction (f : Fn)
| AOther (v : value).

(** An instance: its four private fields, the diagram that it belongs
    to, and the number of calls of [invalidateLayout]. *)
Record t : Type := mk {
  _vertical : bool;
  _directionFunction : Assigned;
  _bottomRightOptions : option nat;
  _topLeftOptions : option nat;
  its_diagram : option bool;
  invalidations : nat }.

(** The values of the constructor (without [init]); the function
    [(node) => true] is function 0. *)
Definition new : t :=
  mk false (AFunction (mkFn 0 (fun _ => true))) None None None 0.



Section Setters.

(** [a !== b] on two values neither of which is a function is the
    language's. *)
Variable strict_neq_value : value -> value -> bool.

(** [old !== val] *)
Definition differs (old val : Assigned) : bool :=
  match old, val with
  | AFunction f, AFunction g => negb (Nat.eqb (fn_id f) (fn_id g))
  | AOther a, AOther b => strict_neq_value a b
  | _, _ => true
  end.

(** [set directionFunction(value)] *)
Definition set_directionFunction (val : Assigned) : method t unit :=
  i <- get ;;
  if differs (_directionFunction i) val then
    match val with
    | AFunction _ =>
        modify (fun i =>
          mk (_vertical i) val (_bottomRightOptions i) (_topLeftOptions i)
             (its_diagram i) (S (invalidations i)))
    | AOther _ =>
        throw "new value for DoubleTreeLayout.directionFunction must be a function taking a node data object and returning a boolean."
    end
  else ret tt.

(** [set vertical(value)] *)
Definition set_vertical (val : value) : method t unit :=
  i <- get ;;
  if match val with
     | VBool b => negb (Bool.eqb (_vertical i) b)
     | _ => true
     end
  then
    match val with
    | VBool b =>
        modify (fun i =>
          mk b (_directionFunction i) (_bottomRightOptions i)
             (_topLeftOptions i) (its_diagram i) (S (invalidations i)))
    | _ =>
        throw "new value for DoubleTreeLayout.vertical must be a boolean value."
    end
  else ret tt.

(** [set bottomRightOptions(value)] and [set topLeftOptions(value)], for
    an object of options or null *)
Definition set_bottomRightOptions (val : option nat) : method t unit :=
  i <- get ;;
  if match _bottomRightOptions i, val with
     | Some a, Some b => negb (Nat.eqb a b)
     | None, None => false
     | _, _ => true
     end
  then
    modify (fun i =>
      mk (_vertical i) (_directionFunction i) val (_topLeftOptions i)
         (its_diagram i) (S (invalidations i)))
  else ret tt.

Definition set_topLeftOptions (val : option nat) : method t unit :=
  i <- get ;;
  if match _topLeftOptions i, val with
     | Some a, Some b => negb (Nat.eqb a b)
     | None, None => false
     | _, _ => true
     end
  then
    modify (fun i =>
      mk (_vertical i) (_directionFunction i) (_bottomRightOptions i) val
         (its_diagram i) (S (invalidations i)))
  else ret tt.

(** One step in the life of a layout: an assignment, accepted or
    rejected, or a change of the diagram that it belongs to. *)
Inductive step : t -> t -> Prop :=
| step_directionFunction (val : Assigned) (i : t) :
    step i (snd (set_directionFunction val i))
| step_vertical (val : value) (i : t) : step i (snd (set_vertical val i))
| step_bottomRightOptions (val : option nat) (i : t) :
    step i (snd (set_bottomRightOptions val i))
| step_topLeftOptions (val : option nat) (i : t) :
    step i (snd (set_topLeftOptions val i))
| step_diagram (d : option bool) (i : t) :
    step i (mk (_vertical i) (_directionFunction i) (_bottomRightOptions i)
              (_topLeftOptions i) d (invalidations i)).

Inductive reachable : t -> Prop :=
| reach_new : reachable new
| reach_step (i i' : t) : reachable i -> step i i' -> reachable i'.



Variable Graph : Type.
Variable findTreeParentNode : Graph -> nat -> option nat.
Variable findTreeChildrenNodes : Graph -> nat -> list nat.
Variable findTreeParts : Graph -> nat -> list Part.
Variable findTreeParentLink : Graph -> nat -> option nat.
Variable new_Node : Graph -> nat * Graph.
Variable new_Link : Graph -> nat * Graph.
Variable set_location : nat -> Point -> Graph -> Graph.
Variable set_fromNode : nat -> nat -> Graph -> Graph.
Variable set_toNode : nat -> nat -> Graph -> Graph.
Variable treeLayout_doLayout : TreeLayout -> GoSet -> Graph -> Graph.


End Setters.

(** The sample tree (root 1, children 2 and 3) in a diagram, laid out
    horizontally, sending child 2 to the right. *)
Definition sample_directed : Layout :=
  mkLayout (Some (fun n => Nat.eqb n 2)) (Some true).

Definition sample_options : Options := mkOptions false (Some 7%nat) None.

Definition sample_run : Run unit := mkRun unit (mkWorld unit tt [] []) [].

Lemma doLayout_runs_witness :
  exists w1,
    separatePartsForLayout unit sample_parent sample_children sample_parts
      sample_parentLink (fun g => (100%nat, g)) (fun g => (200%nat, g))
      (fun _ _ g => g) (fun _ _ g => g) (fun _ _ g => g)
      sample_directed sample_tree (mkWorld unit tt [] []) = (Return tt, w1)
    /\ doLayout unit sample_parent sample_children sample_parts
         sample_parentLink (fun g => (100%nat, g)) (fun g => (200%nat, g))
         (fun _ _ g => g) (fun _ _ g => g) (fun _ _ g => g) (fun _ _ g => g)
         sample_directed sample_options sample_tree sample_run =
       (Return tt,
        after_run unit (fun _ _ g => g) sample_directed sample_options
          sample_run (graph unit w1) (leftParts unit w1) (rightParts unit w1)).
Proof.
  exact (doLayout_runs unit sample_parent sample_children sample_parts
           sample_parentLink (fun g => (100%nat, g)) (fun g => (200%nat, g))
           (fun _ _ g => g) (fun _ _ g => g) (fun _ _ g => g) (fun _ _ g => g)
           sample_directed sample_options (fun n => Nat.eqb n 2) sample_tree
           sample_run eq_refl).
Defined.





(** The whole run on the sample tree. *)
Example doLayout_sample :
  doLayout unit sample_parent sample_children sample_parts
    sample_parentLink (fun g => (100%nat, g)) (fun g => (200%nat, g))
    (fun _ _ g => g) (fun _ _ g => g) (fun _ _ g => g) (fun _ _ g => g)
    sample_directed sample_options sample_tree sample_run =
  (Return tt,
   mkRun unit
     (mkWorld unit tt [Node 1; Node 3; Link 13] [Node 1; Node 2; Link 12])
     [StartTransaction "Double Tree Layout";
      TreeLayout_doLayout (mkTreeLayout None (Some true) 180 FixedRoots)
        [Node 1; Node 3; Link 13];
      TreeLayout_doLayout (mkTreeLayout (Some 7%nat) (Some true) 0 FixedRoots)
        [Node 1; Node 2; Link 12];
      CommitTransaction "Double Tree Layout"]).
Proof. reflexivity. Qed.

End DoubleTreeLayoutRun.


(* ================================================================== *)
(** * extensions/SpiralLayout.js: the root, what the layout leaves alone,
      and networks without an end *)

Module SpiralLayoutRun.

Import SpiralLayout.

Local Open Scope float_scope.

(** A vertex without its center. *)
Definition unplaced (v : LayoutVertex) : LayoutVertex :=
  mkVertex (bounds_width v) (bounds_height v) (sourceEdges_count v)
    (destinationEdges v) (node v) 0 0.

(** [net'] is [net] up to the centers of the vertexes and the curviness
    of the links. *)
Definition only_placed (net net' : Network) : Prop :=
  map unplaced (vertexes net') = map unplaced (vertexes net)
  /\ edges net' = edges net
  /\ map toNode (links net') = map toNode (links net)
  /\ nodes net' = nodes net.

Lemma only_placed_refl (net : Network) : only_placed net net.
Proof. unfold only_placed. auto. Qed.

Lemma only_placed_trans (n1 n2 n3 : Network) :
  only_placed n1 n2 -> only_placed n2 n3 -> only_placed n1 n3.
Proof.
  intros (A1 & A2 & A3 & A4) (B1 & B2 & B3 & B4). unfold only_placed.
  repeat split; congruence.
Qed.

Lemma map_list_set {A B : Type} (g : A -> B) (f : A -> A) (i : nat)
  (l : list A) :
  (forall a, g (f a) = g a) -> map g (list_set i f l) = map g l.
Proof.
  intros H. revert i. induction l as [ | a l IH]; intros i;
    [destruct i; reflexivity | ].
  destruct i as [ | i]; cbn [list_set map]; [rewrite H | rewrite IH];
    reflexivity.
Qed.

Lemma set_center_only_placed (v : nat) (x y : number) (net : Network) :
  only_placed net (set_center v x y net).
Proof.
  unfold only_placed, set_center. cbn [vertexes edges links nodes].
  rewrite map_list_set; [auto | reflexivity].
Qed.

Lemma set_curviness_only_placed (lk : nat) (c : number) (net : Network) :
  only_placed net (set_curviness lk c net).
Proof.
  unfold only_placed, set_curviness. cbn [vertexes edges links nodes].
  rewrite map_list_set; [auto | reflexivity].
Qed.

(** The links apart from some, as far as their curviness goes. *)
Definition links_kept (keep : nat -> bool) (net net' : Network) : Prop :=
  forall lk, keep lk = true ->
    nth_error (links net') lk = nth_error (links net) lk.

(** The root that [find_root] returns, for any starting index and any
    root found before. *)
Lemma find_root_from (vs : list LayoutVertex) :
  forall (i : nat) (root : option nat),
  (exists pre v post,
     vs = pre ++ v :: post /\ sourceEdges_count v = 0%nat
     /\ (forall u, In u pre -> sourceEdges_count u <> 0%nat)
     /\ find_root vs i root = Some (i + List.length pre)%nat)
  \/ ((forall u, In u vs -> sourceEdges_count u <> 0%nat)
      /\ find_root vs i root =
           match root with
           | Some r => Some r
           | None => match vs with [] => None | _ :: _ => Some i end
           end).
Proof.
  induction vs as [ | v vs IH]; intros i root.
  - right. split; [intros u [] | ]. cbn [find_root]. destruct root; reflexivity.
  - cbn [find_root]. destruct (Nat.eqb_spec (sourceEdges_count v) 0) as [E | N].
    + left. exists [], v, vs. cbn [List.length app].
      rewrite Nat.add_0_r. repeat split; auto; intros u [].
    + destruct (IH (S i) (match root with None => Some i | Some r => Some r end))
        as [(pre & w & post & -> & Hw & Hpre & E) | [Hall E]].
      * left. exists (v :: pre), w, post. cbn [List.length app].
        split; [reflexivity | ]. split; [exact Hw | ].
        split; [intros u [<- | Hu]; auto | ].
        rewrite E. f_equal. lia.
      * right. split; [intros u [<- | Hu]; auto | ].
        rewrite E. destruct root; reflexivity.
Qed.

(** The root is a vertex of the network. *)
Lemma find_root_in_range (vs : list LayoutVertex) (r : nat) :
  find_root vs 0 None = Some r -> nth_error vs r <> None.
Proof.
  intros H.
  destruct (find_root_from vs 0 None)
    as [(pre & v & post & -> & _ & _ & E) | [_ E]]; rewrite E in H.
  - inversion H; subst r. cbn [Nat.add].
    rewrite nth_error_app2, Nat.sub_diag by lia. discriminate.
  - destruct vs; inversion H; subst r. discriminate.
Qed.

(** X15: the root vertex.  There is none only in an empty network.
    Otherwise it is the first vertex without incoming edges, and the
    first vertex of all when every vertex has an incoming edge. *)
Theorem find_root_spec (vs : list LayoutVertex) :
  match find_root vs 0 None with
  | None => vs = []
  | Some r =>
      exists pre v post,
        vs = pre ++ v :: post /\ List.length pre = r
        /\ ((sourceEdges_count v = 0%nat
             /\ forall u, In u pre -> sourceEdges_count u <> 0%nat)
            \/ (r = 0%nat
                /\ forall u, In u vs -> sourceEdges_count u <> 0%nat))
  end.
Proof.
  destruct (find_root_from vs 0 None)
    as [(pre & v & post & E & Hv & Hpre & ->) | [Hall ->]].
  - exists pre, v, post. cbn [Nat.add]. auto.
  - destruct vs as [ | v vs]; [reflexivity | ].
    exists [], v, vs. cbn [app List.length]. auto.
Qed.

Section DoLayout.

Variable Math_PI : number.
Variable Math_cos : number -> number.
Variable Math_sin : number -> number.
Variable Math_atan : number -> number.
Variable Math_sqrt : number -> number.
Variable initialOrigin : Point -> Point.

Local Notation "'place'" :=
  (SpiralLayout.place Math_cos Math_sin Math_atan Math_sqrt).
Local Notation "'doLayout'" :=
  (SpiralLayout.doLayout Math_PI Math_cos Math_sin Math_atan Math_sqrt
     initialOrigin).
Local Notation "'same_shape'" := (SpiralLayout.same_shape Math_sqrt).

(** The step of the loop that adjusts the curviness of the next link. *)
Definition route_next (lay : t) (cw : number) (nextedge : option nat)
  (net : Network) : Network :=
  if isRouting lay then
    match link_of net nextedge with
    | Some nl =>
        match nth_error (links net) nl with
        | Some l =>
            if negb (isNaN (curviness l))
            then set_curviness nl (cw * Math_abs (curviness l)) net
            else net
        | None => net
        end
    | None => net
    end
  else net.

Lemma route_next_only_placed (lay : t) (cw : number) (e : option nat)
  (net : Network) :
  only_placed net (route_next lay cw e net)
  /\ same_shape net (route_next lay cw e net)
  /\ (isRouting lay = false -> route_next lay cw e net = net).
Proof.
  unfold route_next. destruct (isRouting lay);
    [ | split; [apply only_placed_refl
               | split; [apply same_shape_refl | reflexivity]]].
  split; [ | split; [ | discriminate]].
  - destruct (link_of net e) as [nl | ]; [ | apply only_placed_refl].
    destruct (nth_error (links net) nl) as [l | ]; [ | apply only_placed_refl].
    destruct (negb _);
      [apply set_curviness_only_placed | apply only_placed_refl].
  - destruct (link_of net e) as [nl | ]; [ | apply same_shape_refl].
    destruct (nth_error (links net) nl) as [l | ]; [ | apply same_shape_refl].
    destruct (negb _);
      [apply set_curviness_shape | apply same_shape_refl].
Qed.

(** The point of a vertex before the origin is added: the point of the
    involute, shifted by the group-member offset if there is one. *)
Definition spiral_point (rad angle : number) (net : Network)
  (link : option nat) (v : nat) : number * number :=
  let '(x, y) := involute Math_cos Math_sin rad angle in
  match group_offset net link v with
  | Some offset => (x - px offset, y - py offset)
  | None => (x, y)
  end.

(** One iteration of the loop on the vertex [v]. *)
Lemma place_step (fuel : nat) (lay : t) (origin : Point) (rad cw : number)
  (link : option nat) (net : Network) (angle : number) (v : nat) :
  place (S fuel) lay origin rad cw link net angle (Some v) =
    let '(x, y) := spiral_point rad angle net link v in
    let net1 := set_center v (x + px origin) (y + py origin) net in
    let nextedge := first_destination net1 v in
    match toVertex_of net1 nextedge with
    | Some u =>
        let net2 := route_next lay cw nextedge net1 in
        place fuel lay origin rad cw link net2
          (angle
           + cw * Math_atan
                    ((diameter Math_sqrt net2 (Some v) / 2
                      + diameter Math_sqrt net2 (Some u) / 2 + _spacing lay)
                     / Math_sqrt (x * x + y * y)))
          (Some u)
    | None => Some net1
    end.
Proof.
  cbn [SpiralLayout.place]. unfold spiral_point.
  destruct (involute Math_cos Math_sin rad angle) as [x0 y0].
  destruct (group_offset net link v) as [offset | ]; cbv zeta;
    destruct (toVertex_of _ _) as [u | ]; reflexivity.
Qed.

(** The loop changes centers and curviness only; without routing it
    leaves the links alone. *)
Lemma place_only_placed (fuel : nat) (lay : t) (origin : Point)
  (rad cw : number) (link : option nat) :
  forall (net : Network) (angle : number) (vert : option nat) (net' : Network),
  place fuel lay origin rad cw link net angle vert = Some net' ->
  only_placed net net'
  /\ (isRouting lay = false -> links net' = links net).
Proof.
  induction fuel as [ | fuel IH]; intros net angle vert net' H;
    destruct vert as [v | ];
    try (cbn [SpiralLayout.place] in H; inversion H; subst net';
         split; [apply only_placed_refl | reflexivity]);
    try discriminate H.
  rewrite place_step in H.
  destruct (spiral_point rad angle net link v) as [x y]. cbv zeta in H.
  set (net1 := set_center v (x + px origin) (y + py origin) net) in *.
  assert (H1 : only_placed net net1) by apply set_center_only_placed.
  destruct (toVertex_of net1 (first_destination net1 v)) as [u | ].
  - destruct (route_next_only_placed lay cw (first_destination net1 v) net1)
      as (R1 & _ & R3).
    destruct (IH _ _ _ _ H) as [P L]. split.
    + eapply only_placed_trans; [exact H1 | ].
      eapply only_placed_trans; [exact R1 | exact P].
    + intros Hr. rewrite (L Hr), (R3 Hr). reflexivity.
  - inversion H; subst net'. split; [exact H1 | reflexivity].
Qed.

(** The placement, from the search for the root to the end of the loop,
    changes centers and curviness only; without routing it changes the
    curviness of no link but the link of the root's first edge. *)
Lemma placement_only_places (fuel : nat) (lay : t) (net net' : Network) :
  doLayout fuel lay net = Some net' ->
  only_placed net net'
  /\ (isRouting lay = false ->
      forall root lk,
        find_root (vertexes net) 0 None = Some root ->
        link_of net (first_destination net root) <> Some lk ->
        nth_error (links net') lk = nth_error (links net) lk).
Proof.
  intros H. destruct (find_root (vertexes net) 0 None) as [root | ] eqn:Hroot.
  - rewrite (doLayout_unfold Math_PI Math_cos Math_sin Math_atan Math_sqrt
               initialOrigin fuel lay net root Hroot) in H.
    cbv zeta in H.
    set (origin := initialOrigin (arrangementOrigin lay)) in *.
    set (net0 := set_center root (px origin) (py origin) net) in *.
    assert (Hfd : first_destination net0 root = first_destination net root).
    { apply (set_center_shape Math_sqrt). }
    assert (Hlk : link_of net0 (first_destination net0 root)
                  = link_of net (first_destination net root)).
    { rewrite Hfd. reflexivity. }
    rewrite Hlk in H.
    destruct (place_only_placed _ _ _ _ _ _ _ _ _ _ H) as [P L].
    split.
    + eapply only_placed_trans; [apply (set_center_only_placed root) | ].
      fold origin net0.
      destruct (link_of net (first_destination net root)) as [l0 | ];
        [ | exact P].
      eapply only_placed_trans; [apply set_curviness_only_placed | exact P].
    + intros Hr root' lk Hroot' Hne. rewrite (L Hr).
      inversion Hroot'; subst root'.
      destruct (link_of net (first_destination net root)) as [l0 | ];
        [ | reflexivity].
      unfold set_curviness. cbn [links]. rewrite nth_error_list_set.
      destruct (Nat.eqb_spec lk l0) as [-> | _]; [ | reflexivity].
      exfalso. apply Hne. reflexivity.
  - unfold SpiralLayout.doLayout in H. rewrite Hroot in H.
    inversion H; subst net'. split; [apply only_placed_refl | ].
    intros _ root lk Hr. discriminate Hr.
Qed.

(** ** The whole method *)

(** The collection that is laid out, and the network that the inherited
    [makeNetwork] makes for it. *)
Variable Coll : Type.
Variable makeNetwork : Coll -> Network.

(** The layout: its properties, its [network], and the networks on which
    the inherited [updateParts()] has been called, which moves the Nodes
    to where their vertexes are. *)
Record Instance : Type := mkInstance {
  properties : t;
  network : option Network;
  updateParts_calls : list Network }.

(** [doLayout(coll)], all of it; [None] when the loop does not end within
    [fuel] iterations. *)
Definition doLayout_method (fuel : nat) (coll : Coll) (i : Instance)
  : option Instance :=
  let net :=
    match network i with
    | Some net => net
    | None => makeNetwork coll
    end in
  let lay := properties i in
  let lay' :=
    mk (_radius lay) (_spacing lay) (_clockwise lay) (isRouting lay)
       (initialOrigin (arrangementOrigin lay)) in
  match find_root (vertexes net) 0 None with
  | None => Some (mkInstance lay' None (updateParts_calls i))
  | Some _ =>
      match doLayout fuel lay net with
      | Some net' =>
          Some (mkInstance lay' None (updateParts_calls i ++ [net']))
      | None => None
      end
  end.

(** X16: whenever [doLayout] returns, the layout's [network] is null
    again and its [arrangementOrigin] is the initial origin.  On a
    network without vertexes [updateParts] has not been called.
    Otherwise it has been called once, at the end, and the network that
    it then finds differs from the one that the method started with in
    the centers of vertexes and the curviness of links only: the bounds,
    edges and nodes of the vertexes, the edges, the ends of the links and
    the nodes are as before.  Without routing the only link whose
    curviness may have changed is the link of the root's first edge. *)
Theorem doLayout_only_places (fuel : nat) (coll : Coll) (i i' : Instance) :
  doLayout_method fuel coll i = Some i' ->
  let net :=
    match network i with
    | Some net => net
    | None => makeNetwork coll
    end in
  network i' = None
  /\ arrangementOrigin (properties i')
     = initialOrigin (arrangementOrigin (properties i))
  /\ match vertexes net with
     | [] => updateParts_calls i' = updateParts_calls i
     | _ :: _ =>
         exists net',
           updateParts_calls i' = updateParts_calls i ++ [net']
           /\ only_placed net net'
           /\ (isRouting (properties i) = false ->
               forall root lk,
                 find_root (vertexes net) 0 None = Some root ->
                 link_of net (first_destination net root) <> Some lk ->
                 nth_error (links net') lk = nth_error (links net) lk)
     end.
Proof.
  intros H net. unfold doLayout_method in H. fold net in H.
  set (lay' := mk _ _ _ _ _) in H.
  assert (Hcases :
    (vertexes net = [] /\ i' = mkInstance lay' None (updateParts_calls i))
    \/ (vertexes net <> []
        /\ exists net',
             doLayout fuel (properties i) net = Some net'
             /\ i' = mkInstance lay' None (updateParts_calls i ++ [net']))).
  { destruct (find_root_from (vertexes net) 0 None)
      as [(pre & v & post & Ev & _ & _ & E) | [_ E]]; rewrite E in H.
    - right. split; [rewrite Ev; destruct pre; discriminate | ].
      destruct (doLayout fuel (properties i) net) as [net' | ];
        [ | discriminate H].
      exists net'. inversion H. split; reflexivity.
    - destruct (vertexes net) as [ | v vs]; [left | right].
      + inversion H. split; reflexivity.
      + split; [discriminate | ].
        destruct (doLayout fuel (properties i) net) as [net' | ];
          [ | discriminate H].
        exists net'. inversion H. split; reflexivity. }
  destruct Hcases as [[Ev ->] | (Hne & net' & Ed & ->)];
    cbn [network properties arrangementOrigin updateParts_calls];
    (split; [reflexivity | ]); (split; [reflexivity | ]).
  - rewrite Ev. reflexivity.
  - pose proof (placement_only_places _ _ _ _ Ed) as P.
    destruct (vertexes net) as [ | v vs]; [contradiction | ].
    exists net'. split; [reflexivity | exact P].
Qed.

(** Every vertex leads on to a vertex by its first destination edge. *)
Definition endless (net : Network) : Prop :=
  forall v, nth_error (vertexes net) v <> None ->
    exists u, toVertex_of net (first_destination net v) = Some u
              /\ nth_error (vertexes net) u <> None.

Lemma endless_shape (net net' : Network) :
  same_shape net net' -> endless net -> endless net'.
Proof.
  intros (S1 & S2 & _ & S4 & _) He v Hv.
  destruct (He v) as (u & E & Hu); [rewrite <- S4; exact Hv | ].
  exists u. rewrite S1, S2. split; [exact E | rewrite S4; exact Hu].
Qed.

(** In an endless network the loop runs out of every number of
    iterations. *)
Lemma place_endless (fuel : nat) (lay : t) (origin : Point) (rad cw : number)
  (link : option nat) :
  forall (net : Network) (angle : number) (v : nat),
  endless net -> nth_error (vertexes net) v <> None ->
  place fuel lay origin rad cw link net angle (Some v) = None.
Proof.
  induction fuel as [ | fuel IH]; intros net angle v He Hv; [reflexivity | ].
  rewrite place_step.
  destruct (spiral_point rad angle net link v) as [x y]. cbv zeta.
  set (net1 := set_center v (x + px origin) (y + py origin) net).
  assert (S1 : same_shape net net1) by apply set_center_shape.
  pose proof (endless_shape net net1 S1 He) as He1.
  destruct (He1 v) as (u & Eu & Hu).
  { destruct S1 as (_ & _ & _ & S4 & _). rewrite S4. exact Hv. }
  rewrite Eu.
  destruct (route_next_only_placed lay cw (first_destination net1 v) net1)
    as (_ & R2 & _).
  apply IH.
  - exact (endless_shape _ _ R2 He1).
  - destruct R2 as (_ & _ & _ & S4 & _). rewrite S4. exact Hu.
Qed.

(** X17: on a network that is not empty and in which every vertex has a
    first destination edge that leads to a vertex, a ring for one, the
    loop of [doLayout] never ends: no number of iterations is enough. *)
Theorem doLayout_endless (lay : t) (net : Network) :
  vertexes net <> [] -> endless net ->
  forall fuel, doLayout fuel lay net = None.
Proof.
  intros Hne He fuel.
  destruct (find_root (vertexes net) 0 None) as [root | ] eqn:Hroot.
  - pose proof (find_root_in_range _ _ Hroot) as Hin.
    rewrite (doLayout_unfold Math_PI Math_cos Math_sin Math_atan Math_sqrt
               initialOrigin fuel lay net root Hroot).
    cbv zeta.
    set (origin := initialOrigin (arrangementOrigin lay)).
    set (net0 := set_center root (px origin) (py origin) net).
    assert (S0 : same_shape net net0) by apply set_center_shape.
    set (net1 := match link_of net0 (first_destination net0 root) with
                 | Some lk => set_curviness lk _ net0
                 | None => net0
                 end).
    assert (S01 : same_shape net0 net1).
    { unfold net1. destruct (link_of net0 _);
        [apply set_curviness_shape | apply same_shape_refl]. }
    pose proof (same_shape_trans Math_sqrt _ _ _ S0 S01) as S1.
    pose proof (endless_shape _ _ S1 He) as He1.
    destruct (He root Hin) as (u & Eu & Hu).
    assert (Ev : toVertex_of net1 (first_destination net0 root) = Some u).
    { destruct S1 as (_ & T2 & _). destruct S0 as (T1 & _).
      rewrite T2, T1. exact Eu. }
    rewrite Ev. apply place_endless; [exact He1 | ].
    destruct S1 as (_ & _ & _ & S4 & _). rewrite S4. exact Hu.
  - destruct (find_root_from (vertexes net) 0 None)
      as [(pre & v & post & _ & _ & _ & E) | [_ E]]; rewrite E in Hroot;
      [discriminate Hroot | ].
    destruct (vertexes net); [contradiction | discriminate Hroot].
Qed.

(** On a chain the loop ends within as many iterations as the chain is
    long, and more iterations give the same network. *)
Lemma place_chain_ends (lay : t) (origin : Point) (rad cw : number)
  (link : option nat) (rest : list nat) :
  forall (v : nat) (net : Network) (angle : number),
  chain_from net v rest ->
  exists net',
    forall fuel, List.length rest < fuel ->
      place fuel lay origin rad cw link net angle (Some v) = Some net'.
Proof.
  induction rest as [ | u rest IH]; intros v net angle Hch;
    cbn [chain_from] in Hch.
  - destruct Hch as [_ Hend].
    destruct (spiral_point rad angle net link v) as [x y] eqn:Exy.
    exists (set_center v (x + px origin) (y + py origin) net).
    intros [ | fuel] Hfuel; [cbn [List.length] in Hfuel; lia | ].
    rewrite place_step, Exy. cbv zeta.
    destruct (set_center_shape Math_sqrt v (x + px origin) (y + py origin) net)
      as (S1 & S2 & _). rewrite S1, S2, Hend. reflexivity.
  - destruct Hch as (_ & Hnext & Hch).
    destruct (spiral_point rad angle net link v) as [x y] eqn:Exy.
    set (net1 := set_center v (x + px origin) (y + py origin) net).
    pose proof (set_center_shape Math_sqrt v (x + px origin) (y + py origin)
                  net) as S01. fold net1 in S01.
    set (net2 := route_next lay cw (first_destination net1 v) net1).
    destruct (route_next_only_placed lay cw (first_destination net1 v) net1)
      as (_ & S12 & _). fold net2 in S12.
    pose proof (same_shape_trans Math_sqrt _ _ _ S01 S12) as S02.
    destruct (IH u net2
                (angle
                 + cw * Math_atan
                          ((diameter Math_sqrt net2 (Some v) / 2
                            + diameter Math_sqrt net2 (Some u) / 2
                            + _spacing lay)
                           / Math_sqrt (x * x + y * y)))
                (chain_from_shape Math_PI Math_cos Math_sin Math_atan
                   Math_sqrt net net2 u rest S02 Hch))
      as (net' & Hnet').
    exists net'. intros [ | fuel] Hfuel; [cbn [List.length] in Hfuel; lia | ].
    rewrite place_step, Exy. cbv zeta. fold net1.
    destruct S01 as (S1 & S2 & _). rewrite S1, S2, Hnext. fold net1.
    rewrite <- (S1 v). fold net2.
    apply Hnet'. cbn [List.length] in Hfuel. lia.
Qed.

(** X18: when the vertexes that follow the root by their first
    destination edges form a chain that ends, [doLayout] ends within as
    many iterations of its loop as vertexes follow the root, Groups or
    not, and further iterations make no difference. *)
Theorem doLayout_chain_ends (lay : t) (net : Network) (root : nat)
  (rest : list nat) :
  find_root (vertexes net) 0 None = Some root ->
  chain_from net root rest ->
  exists net',
    forall fuel, List.length rest <= fuel -> doLayout fuel lay net = Some net'.
Proof.
  intros Hroot Hch.
  set (origin := initialOrigin (arrangementOrigin lay)).
  set (cw := if _clockwise lay then 1 else -1).
  set (rad := radius_in_use Math_sqrt lay net root).
  set (net0 := set_center root (px origin) (py origin) net).
  set (edge := first_destination net0 root).
  set (net1 := match link_of net0 edge with
               | Some lk => set_curviness lk (cw * rad) net0
               | None => net0
               end).
  assert (E : forall fuel,
    doLayout fuel lay net =
      place fuel lay origin rad cw (link_of net0 edge) net1 (cw * Math_PI)
        (toVertex_of net1 edge)).
  { intros fuel.
    exact (doLayout_unfold Math_PI Math_cos Math_sin Math_atan Math_sqrt
             initialOrigin fuel lay net root Hroot). }
  assert (S0 : same_shape net net0) by apply set_center_shape.
  assert (S01 : same_shape net0 net1).
  { unfold net1. destruct (link_of net0 edge);
      [apply set_curviness_shape | apply same_shape_refl]. }
  pose proof (same_shape_trans Math_sqrt _ _ _ S0 S01) as S1.
  assert (Ev : toVertex_of net1 edge
               = toVertex_of net (first_destination net root)).
  { unfold edge. destruct S1 as (_ & T2 & _). destruct S0 as (T1 & _).
    rewrite T2, T1. reflexivity. }
  destruct rest as [ | u rest]; cbn [chain_from] in Hch.
  - destruct Hch as [_ Hend]. exists net1. intros fuel _.
    rewrite E, Ev, Hend. destruct fuel; reflexivity.
  - destruct Hch as (_ & Hnext & Hch).
    destruct (place_chain_ends lay origin rad cw (link_of net0 edge) rest u
                net1 (cw * Math_PI)
                (chain_from_shape Math_PI Math_cos Math_sin Math_atan
                   Math_sqrt net net1 u rest S1 Hch))
      as (net' & Hnet').
    exists net'. intros fuel Hfuel. rewrite E, Ev, Hnext.
    apply Hnet'. cbn [List.length] in Hfuel. lia.
Qed.

End DoLayout.

Lemma doLayout_only_places_witness :
  exists i',
    doLayout_method 3 (fun _ => 1) (fun _ => 0) (fun x => x) PrimFloat.sqrt
      (fun p => p) unit (fun _ => chain) 3 tt
      (mkInstance (new (mkPoint 0 0)) None []) = Some i'
    /\ network i' = None
    /\ exists net',
         updateParts_calls i' = [net'] /\ only_placed chain net'.
Proof.
  refine (ex_intro _ _ (conj _ _)).
  - vm_compute. reflexivity.
  - destruct (doLayout_only_places 3 (fun _ => 1) (fun _ => 0) (fun x => x)
                PrimFloat.sqrt (fun p => p) unit (fun _ => chain) 3 tt
                (mkInstance (new (mkPoint 0 0)) None []) _
                ltac:(vm_compute; reflexivity))
      as (N & _ & net' & C & P & _).
    split; [exact N | ]. exists net'. split; [exact C | exact P].
Defined.

(** A ring of two vertexes: each leads to the other. *)
Definition ring : Network :=
  mkNetwork
    [mkVertex 40 30 1 [0%nat] (Some 0%nat) 0 0;
     mkVertex 40 30 1 [1%nat] (Some 1%nat) 0 0]
    [mkEdge (Some 0%nat) (Some 1%nat); mkEdge (Some 1%nat) (Some 0%nat)]
    [mkLink 0 (Some 1%nat); mkLink 0 (Some 0%nat)]
    [mkNode false (mkPoint 0 0); mkNode false (mkPoint 100 0)].

Lemma ring_endless : endless ring.
Proof.
  intros v Hv. destruct v as [ | [ | v]].
  - exists 1%nat. split; [reflexivity | discriminate].
  - exists 0%nat. split; [reflexivity | discriminate].
  - exfalso. apply Hv. destruct v; reflexivity.
Defined.

Lemma doLayout_endless_witness :
  doLayout 3 (fun _ => 1) (fun _ => 0) (fun x => x) PrimFloat.sqrt
    (fun p => p) 1000 (new (mkPoint 0 0)) ring = None.
Proof.
  apply (doLayout_endless 3 (fun _ => 1) (fun _ => 0) (fun x => x)
           PrimFloat.sqrt (fun p => p) (new (mkPoint 0 0)) ring).
  - discriminate.
  - exact ring_endless.
Defined.

(** The chain of three vertexes is a chain, Group and all. *)
Lemma chain_chain_from : chain_from chain 0 [1%nat; 2%nat].
Proof.
  cbn [chain_from].
  split; [discriminate | ]. split; [reflexivity | ].
  split; [discriminate | ]. split; [reflexivity | ].
  split; [discriminate | reflexivity].
Defined.

Lemma doLayout_chain_ends_witness :
  exists net',
    doLayout 3 (fun _ => 1) (fun _ => 0) (fun x => x) PrimFloat.sqrt
      (fun p => p) 2 (new (mkPoint 0 0)) chain = Some net'
    /\ doLayout 3 (fun _ => 1) (fun _ => 0) (fun x => x) PrimFloat.sqrt
         (fun p => p) 50 (new (mkPoint 0 0)) chain = Some net'.
Proof.
  destruct (doLayout_chain_ends 3 (fun _ => 1) (fun _ => 0) (fun x => x)
              PrimFloat.sqrt (fun p => p) (new (mkPoint 0 0)) chain
              0%nat [1%nat; 2%nat] eq_refl chain_chain_from)
    as (net' & H).
  exists net'. split; apply H; cbn [List.length]; lia.
Defined.

End SpiralLayoutRun.

(* ================================================================== *)
(** * extensionsJSM/LinkShiftingTool.js *)

Module LinkShiftingTool.

Local Open Scope float_scope.

(** The objects of the host library that the tool reads and writes.  A
    reference to a handle, a Link, a port or another Part is its number.
    What [adornedObject.part] refers to is a Link, another Part, or
    null. *)
Inductive PartRef : Type :=
| LinkRef (l : nat)
| OtherRef (n : nat).

Record GraphObject : Type := mkObject {
  part : option PartRef }.

Record Adornment : Type := mkAdornment {
  category : string;
  adornedObject : option GraphObject }.

(** A handle with its [part], the Adornment that holds it. *)
Record Handle : Type := mkHandle {
  handle_part : option Adornment }.

Record Link : Type := mkLink {
  points : list Point;
  fromPort : option nat;
  toPort : option nat;
  fromSpot : Spot;
  toSpot : Spot }.

Record Diagram : Type := mkDiagram {
  isReadOnly : bool;
  isModelReadOnly : bool;
  lastInput_left : bool;
  firstInput_documentPoint : Point;
  lastInput_documentPoint : Point;
  isMouseCaptured : bool;
  currentCursor : string }.

(** The tool's own state. *)
Record t : Type := mk {
  name : string;
  isEnabled : bool;
  isActive : bool;
  transactionResult : option string;
  _handle : option nat;
  _originalPoints : option (list Point) }.

(** Calls of the inherited [startTransaction] and [stopTransaction]. *)
Inductive HostCall : Type :=
| StartTransaction (tname : string)
| StopTransaction.

(** The tool, the diagram, the stores of handles and Links, the [points]
    property that a Part other than a Link has been given, and the calls
    made so far. *)
Record World : Type := mkWorld {
  tool : t;
  diagram : Diagram;
  handles : nat -> Handle;
  links : nat -> Link;
  others : nat -> option (list Point);
  calls : list HostCall }.

Definition with_tool (f : t -> t) (w : World) : World :=
  mkWorld (f (tool w)) (diagram w) (handles w) (links w) (others w) (calls w).

Definition with_diagram (f : Diagram -> Diagram) (w : World) : World :=
  mkWorld (tool w) (f (diagram w)) (handles w) (links w) (others w) (calls w).

Definition with_link (l : nat) (f : Link -> Link) (w : World) : World :=
  mkWorld (tool w) (diagram w) (handles w)
    (fun i => if Nat.eqb i l then f (links w i) else links w i)
    (others w) (calls w).

Definition call (c : HostCall) : method World unit :=
  modify (fun w =>
    mkWorld (tool w) (diagram w) (handles w) (links w) (others w)
      (calls w ++ [c])).

(** [part.points = pts] *)
Definition set_points (p : PartRef) (pts : list Point) : method World unit :=
  match p with
  | LinkRef l =>
      modify (with_link l (fun k =>
        mkLink pts (fromPort k) (toPort k) (fromSpot k) (toSpot k)))
  | OtherRef n =>
      modify (fun w =>
        mkWorld (tool w) (diagram w) (handles w) (links w)
          (fun i => if Nat.eqb i n then Some pts else others w i) (calls w))
  end.

(** [link.fromSpot = spot] and [link.toSpot = spot] *)
Definition set_fromSpot (l : nat) (spot : Spot) : method World unit :=
  modify (with_link l (fun k =>
    mkLink (points k) (fromPort k) (toPort k) spot (toSpot k))).

Definition set_toSpot (l : nat) (spot : Spot) : method World unit :=
  modify (with_link l (fun k =>
    mkLink (points k) (fromPort k) (toPort k) (fromSpot k) spot)).

(** The values of the constructor (without [init]). *)
Definition new : t := mk "LinkShifting" true false None None None.

(** Methods of [go.Point]. *)
Definition Point_subtract (p q : Point) : Point :=
  mkPoint (px p - px q) (py p - py q).

Definition Point_add (p q : Point) : Point :=
  mkPoint (px p + px q) (py p + py q).

Definition Point_offset (p : Point) (dx dy : number) : Point :=
  mkPoint (px p + dx) (py p + dy).

Definition Spot_Center : Spot := mkSpot 0.5 0.5 0 0.
Definition Spot_TopLeft : Spot := mkSpot 0 0 0 0.
Definition Spot_BottomRight : Spot := mkSpot 1 1 0 0.

(** [n || 1]: 1 when [n] is 0, -0 or NaN. *)
Definition or_1 (n : number) : number :=
  if (n =? 0) || is_nan n then 1 else n.

(** [Math.max(0, Math.min(1, v))] *)
Definition clamp (v : number) : number := Math_max 0 (Math_min 1 v).

(** [doStop()] *)
Definition doStop : method World unit :=
  modify (with_tool (fun t =>
    mk (name t) (isEnabled t) (isActive t) (transactionResult t) None None)).

(** [doDeactivate()] *)
Definition doDeactivate : method World unit :=
  modify (with_tool (fun t =>
    mk (name t) (isEnabled t) false (transactionResult t) (_handle t)
      (_originalPoints t))) ;;;
  modify (with_diagram (fun d =>
    mkDiagram (isReadOnly d) (isModelReadOnly d) (lastInput_left d)
      (firstInput_documentPoint d) (lastInput_documentPoint d) false "")) ;;;
  call StopTransaction.

Section Host.

(** Methods of the host library: [Tool.findToolHandleAt], the methods
    [getDocumentAngle] and [getDocumentPoint] of a port,
    [Link.getLinkPointFromPoint] (the port's Part is the port's own),
    [Point.rotate], and the constructor of [go.Rect] from two Points.
    What the inherited [stopTool()] does is the host's as well: when the
    tool is the diagram's current tool, the diagram replaces it, and for
    that calls back [doDeactivate] and [doStop]. *)
Variable stopTool : method World unit.
Variable findToolHandleAt : World -> Point -> string -> option nat.
Variable getDocumentAngle : World -> nat -> number.
Variable getDocumentPoint : World -> nat -> Spot -> Point.
Variable getLinkPointFromPoint :
  World -> nat -> nat -> Point -> Point -> bool -> Point.
Variable rotate : Point -> number -> Point.
Variable new_Rect : Point -> Point -> Rect.

(** [doCancel()] *)
Definition doCancel : method World unit :=
  w <- get ;;
  match _handle (tool w) with
  | Some h =>
      match handle_part (handles w h) with
      | None => throw "TypeError"
      | Some ad =>
          match adornedObject ad with
          | None => ret tt
          | Some obj =>
              (match _originalPoints (tool w) with
               | Some pts =>
                   match part obj with
                   | Some p => set_points p pts
                   | None => throw "TypeError"
                   end
               | None => ret tt
               end) ;;;
              stopTool
          end
      end
  | None => stopTool
  end.

(** The handle at the mouse-down point: one for the from end, or else
    one for the to end. *)
Definition find_handle (w : World) : option nat :=
  let pt := firstInput_documentPoint (diagram w) in
  match findToolHandleAt w pt "LinkShiftingFrom" with
  | Some h => Some h
  | None => findToolHandleAt w pt "LinkShiftingTo"
  end.

(** [canStart()] *)
Definition canStart (w : World) : bool :=
  if negb (isEnabled (tool w)) then false
  else if isReadOnly (diagram w) || isModelReadOnly (diagram w) then false
  else if negb (lastInput_left (diagram w)) then false
  else match find_handle w with Some _ => true | None => false end.

(** [doActivate()] *)
Definition doActivate : method World unit :=
  w <- get ;;
  match find_handle w with
  | None => ret tt
  | Some h =>
      match handle_part (handles w h) with
      | None => ret tt
      | Some ad =>
          match adornedObject ad with
          | None => ret tt
          | Some obj =>
              match part obj with
              | Some (LinkRef l) =>
                  modify (with_tool (fun t =>
                    mk (name t) (isEnabled t) (isActive t)
                      (transactionResult t) (Some h)
                      (Some (points (links w l))))) ;;;
                  call (StartTransaction (name (tool w))) ;;;
                  modify (with_diagram (fun d =>
                    mkDiagram (isReadOnly d) (isModelReadOnly d)
                      (lastInput_left d) (firstInput_documentPoint d)
                      (lastInput_documentPoint d) true "pointer")) ;;;
                  modify (with_tool (fun t =>
                    mk (name t) (isEnabled t) true (transactionResult t)
                      (_handle t) (_originalPoints t)))
              | _ => ret tt
              end
          end
      end
  end.

(** The Spot that [doReshape(pt)] computes for the end of [link] at
    [port]. *)
Definition reshape_spot (w : World) (link port : nat) (fromend : bool)
  (pt : Point) : Spot :=
  let portang := getDocumentAngle w port in
  let center := getDocumentPoint w port Spot_Center in
  let farpt :=
    Point_offset pt ((px pt - px center) * 1000) ((py pt - py center) * 1000) in
  let portb :=
    new_Rect
      (Point_add
         (rotate (Point_subtract (getDocumentPoint w port Spot_TopLeft) center)
            (- portang)) center)
      (Point_add
         (rotate
            (Point_subtract (getDocumentPoint w port Spot_BottomRight) center)
            (- portang)) center) in
  let lp := getLinkPointFromPoint w link port center farpt fromend in
  let lp := Point_add (rotate (Point_subtract lp center) (- portang)) center in
  mkSpot (clamp ((px lp - rx portb) / or_1 (rwidth portb)))
         (clamp ((py lp - ry portb) / or_1 (rheight portb))) 0 0.

(** [doReshape(pt)] *)
Definition doReshape (pt : Point) : method World unit :=
  w <- get ;;
  match _handle (tool w) with
  | None => ret tt
  | Some h =>
      match handle_part (handles w h) with
      | None => throw "TypeError"
      | Some ad =>
          match adornedObject ad with
          | None => ret tt
          | Some obj =>
              let fromend := String.eqb (category ad) "LinkShiftingFrom" in
              match part obj with
              | Some (LinkRef l) =>
                  let port :=
                    if fromend then fromPort (links w l)
                    else toPort (links w l) in
                  match port with
                  | None => ret tt
                  | Some port =>
                      let spot := reshape_spot w l port fromend pt in
                      if fromend then set_fromSpot l spot
                      else set_toSpot l spot
                  end
              | _ => throw "TypeError"
              end
          end
      end
  end.

(** [doMouseMove()] *)
Definition doMouseMove : method World unit :=
  w <- get ;;
  if isActive (tool w)
  then doReshape (lastInput_documentPoint (diagram w))
  else ret tt.

(** [doMouseUp()] *)
Definition doMouseUp : method World unit :=
  w <- get ;;
  (if isActive (tool w)
   then doReshape (lastInput_documentPoint (diagram w)) ;;;
        modify (with_tool (fun t =>
          mk (name t) (isEnabled t) (isActive t) (Some (name t)) (_handle t)
            (_originalPoints t)))
   else ret tt) ;;;
  stopTool.

(** The Link whose end a handle shifts, when its Adornment adorns an
    object of a Link. *)
Definition handle_link (w : World) (h : nat) : option nat :=
  match handle_part (handles w h) with
  | Some ad =>
      match adornedObject ad with
      | Some obj =>
          match part obj with
          | Some (LinkRef l) => Some l
          | _ => None
          end
      | None => None
      end
  | None => None
  end.

(** A coordinate of a Spot that [doReshape] assigns: a fraction between
    0 and 1, or NaN. *)
Definition fraction_or_NaN (n : number) : Prop :=
  is_nan n = true \/ ((0 <=? n) = true /\ (n <=? 1) = true).

Definition reshaped (s : Spot) : Prop :=
  fraction_or_NaN (sx s) /\ fraction_or_NaN (sy s)
  /\ soffsetX s = 0 /\ soffsetY s = 0.

Lemma clamp_fraction_or_NaN (v : number) : fraction_or_NaN (clamp v).
Proof.
  unfold fraction_or_NaN, clamp. destruct (is_nan v) eqn:Hv.
  - left. unfold Math_max, Math_min. rewrite Hv, orb_true_r.
    reflexivity.
  - right. exact (FloatFactsMore.clamp01 v Hv).
Qed.

Lemma reshape_spot_reshaped (w : World) (link port : nat) (fromend : bool)
  (pt : Point) : reshaped (reshape_spot w link port fromend pt).
Proof.
  unfold reshaped, reshape_spot. cbn [sx sy soffsetX soffsetY].
  repeat split; try apply clamp_fraction_or_NaN.
Qed.

(** What [doReshape] does, case by case. *)
Lemma doReshape_cases (pt : Point) (w : World) :
  snd (doReshape pt w) = w
  \/ exists l port,
       (fromPort (links w l) = Some port
        /\ doReshape pt w =
             (Return tt,
              with_link l (fun k =>
                mkLink (points k) (fromPort k) (toPort k)
                  (reshape_spot w l port true pt) (toSpot k)) w))
       \/ (toPort (links w l) = Some port
           /\ doReshape pt w =
                (Return tt,
                 with_link l (fun k =>
                   mkLink (points k) (fromPort k) (toPort k) (fromSpot k)
                     (reshape_spot w l port false pt)) w)).
Proof.
  unfold doReshape, bind, get.
  destruct (_handle (tool w)) as [h | ]; [ | left; reflexivity].
  destruct (handle_part (handles w h)) as [ad | ]; [ | left; reflexivity].
  destruct (adornedObject ad) as [obj | ]; [ | left; reflexivity].
  destruct (part obj) as [[l | n] | ]; try (left; reflexivity).
  destruct (String.eqb (category ad) "LinkShiftingFrom").
  - destruct (fromPort (links w l)) as [port | ] eqn:Hp;
      [ | left; reflexivity].
    right. exists l, port. left. split; [exact Hp | reflexivity].
  - destruct (toPort (links w l)) as [port | ] eqn:Hp;
      [ | left; reflexivity].
    right. exists l, port. right. split; [exact Hp | reflexivity].
Qed.

(** X19: whether it returns or throws, [doReshape] changes nothing but
    the Spot at one end of one Link: the tool, the diagram, the handles
    and the calls made are as before, every Link but one is as before,
    and that one keeps its points, its ports and one of its two Spots. *)
Theorem doReshape_frame (pt : Point) (w : World) :
  let w' := snd (doReshape pt w) in
  tool w' = tool w /\ diagram w' = diagram w /\ handles w' = handles w
  /\ others w' = others w /\ calls w' = calls w
  /\ exists l0,
       (forall l, l <> l0 -> links w' l = links w l)
       /\ points (links w' l0) = points (links w l0)
       /\ fromPort (links w' l0) = fromPort (links w l0)
       /\ toPort (links w' l0) = toPort (links w l0)
       /\ (fromSpot (links w' l0) = fromSpot (links w l0)
           \/ toSpot (links w' l0) = toSpot (links w l0)).
Proof.
  cbv zeta.
  destruct (doReshape_cases pt w)
    as [-> | (l0 & port & [[_ ->] | [_ ->]])];
    cbn [snd with_link tool diagram handles others calls links];
    do 5 (split; [reflexivity | ]).
  - exists 0%nat. repeat split; auto.
  - exists l0. split.
    + intros l Hl. destruct (Nat.eqb_spec l l0); [contradiction | reflexivity].
    + rewrite Nat.eqb_refl. cbn [points fromPort toPort fromSpot toSpot].
      repeat split; auto.
  - exists l0. split.
    + intros l Hl. destruct (Nat.eqb_spec l l0); [contradiction | reflexivity].
    + rewrite Nat.eqb_refl. cbn [points fromPort toPort fromSpot toSpot].
      repeat split; auto.
Qed.

(** X20: every Spot that [doReshape] assigns has no offset, and each of
    its two fractions is between 0 and 1 or is NaN. *)
Theorem doReshape_spot_in_port (pt : Point) (w : World) (l : nat) :
  let w' := snd (doReshape pt w) in
  (fromSpot (links w' l) = fromSpot (links w l)
   \/ reshaped (fromSpot (links w' l)))
  /\ (toSpot (links w' l) = toSpot (links w l)
      \/ reshaped (toSpot (links w' l))).
Proof.
  cbv zeta.
  destruct (doReshape_cases pt w)
    as [-> | (l0 & port & [[_ ->] | [_ ->]])];
    cbn [snd with_link links]; [auto | | ];
    destruct (Nat.eqb l l0); cbn [fromSpot toSpot]; auto;
    split; auto; right; apply reshape_spot_reshaped.
Qed.

(** X21: activating and cancelling.  When the handle found at the
    mouse-down point adorns an object of a Link, [doActivate] remembers
    the points of that Link, starts a transaction under the tool's name
    and becomes active, and changes no Link.  Whatever has happened to
    the Links since, as long as the tool's state and the handle are as
    [doActivate] left them, [doCancel] gives the Link the points that it
    had when the tool was activated, changes nothing else, and calls
    [stopTool()]; what that does is up to the host. *)
Theorem doCancel_restores (w w2 : World) (h l : nat) :
  find_handle w = Some h -> handle_link w h = Some l ->
  let w1 := snd (doActivate w) in
  tool w2 = tool w1 -> handles w2 h = handles w h ->
  isActive (tool w1) = true
  /\ _originalPoints (tool w1) = Some (points (links w l))
  /\ calls w1 = calls w ++ [StartTransaction (name (tool w))]
  /\ links w1 = links w
  /\ exists w3,
       doCancel w2 = stopTool w3
       /\ points (links w3 l) = points (links w l)
       /\ fromPort (links w3 l) = fromPort (links w2 l)
       /\ toPort (links w3 l) = toPort (links w2 l)
       /\ fromSpot (links w3 l) = fromSpot (links w2 l)
       /\ toSpot (links w3 l) = toSpot (links w2 l)
       /\ (forall l', l' <> l -> links w3 l' = links w2 l')
       /\ tool w3 = tool w2 /\ diagram w3 = diagram w2
       /\ handles w3 = handles w2 /\ others w3 = others w2
       /\ calls w3 = calls w2.
Proof.
  intros Hf Hl. cbv zeta. unfold doActivate, bind, get. rewrite Hf.
  unfold handle_link in Hl.
  destruct (handle_part (handles w h)) as [ad | ] eqn:Had; [ | discriminate].
  destruct (adornedObject ad) as [obj | ] eqn:Hobj; [ | discriminate].
  destruct (part obj) as [[l0 | n] | ] eqn:Hpart; try discriminate.
  inversion Hl; subst l0.
  cbn [snd modify call with_tool with_diagram tool diagram calls links
       isActive _handle _originalPoints name]. intros Ht Hh.
  do 4 (split; [reflexivity | ]).
  assert (H1 : _handle (tool w2) = Some h) by (rewrite Ht; reflexivity).
  assert (H2 : _originalPoints (tool w2) = Some (points (links w l)))
    by (rewrite Ht; reflexivity).
  unfold doCancel, bind, get. rewrite H1, H2, Hh, Had, Hobj, Hpart.
  unfold set_points, modify, with_link.
  eexists. split; [reflexivity | ].
  cbn [links tool diagram handles others calls]. rewrite Nat.eqb_refl.
  cbn [points fromPort toPort fromSpot toSpot].
  do 5 (split; [reflexivity | ]). split; [ | repeat split].
  intros l' Hne. destruct (Nat.eqb_spec l' l); [contradiction | reflexivity].
Qed.

End Host.

(** A Link from port 0 to port 1 with a handle at its from end, found at
    every point. *)
Definition sample_link : Link :=
  mkLink [mkPoint 0 0; mkPoint 100 50] (Some 0%nat) (Some 1%nat)
    (mkSpot 0.5 0.5 0 0) (mkSpot 0.5 0.5 0 0).

Definition sample_handle : Handle :=
  mkHandle
    (Some (mkAdornment "LinkShiftingFrom" (Some (mkObject (Some (LinkRef 0)))))).

Definition sample_world : World :=
  mkWorld new
    (mkDiagram false false true (mkPoint 0 0) (mkPoint 10 20) false "")
    (fun _ => sample_handle) (fun _ => sample_link) (fun _ => None) [].

Definition sample_find (_ : World) (_ : Point) (c : string) : option nat :=
  if String.eqb c "LinkShiftingFrom" then Some 0%nat else None.

(** The world after the activation, the Link rerouted and its from Spot
    shifted in the meantime. *)
Definition sample_shifted : World :=
  with_link 0
    (fun k =>
       mkLink [mkPoint 0 20; mkPoint 100 50] (fromPort k) (toPort k)
         (mkSpot 0 0.75 0 0) (toSpot k))
    (snd (doActivate sample_find sample_world)).

(** [stopTool()] on the diagram's current tool, as the host library
    documents it: the tool is deactivated, if it is active, and
    stopped. *)
Definition running_stopTool : method World unit :=
  w <- get ;;
  (if isActive (tool w) then doDeactivate else ret tt) ;;;
  doStop.

Lemma doCancel_restores_witness :
  exists w3,
    doCancel running_stopTool sample_shifted = running_stopTool w3
    /\ points (links w3 0) = [mkPoint 0 0; mkPoint 100 50]
    /\ fromSpot (links w3 0) = mkSpot 0 0.75 0 0.
Proof.
  destruct (doCancel_restores running_stopTool sample_find sample_world
              sample_shifted 0%nat 0%nat eq_refl eq_refl eq_refl eq_refl)
    as (_ & _ & _ & _ & w3 & E & P & _ & _ & F & _).
  exists w3. split; [exact E | ]. split; [exact P | exact F].
Defined.

(** The same cancellation run to its end on the current tool: the route
    is restored, the tool is inactive and has forgotten its handle, and
    the transaction has been stopped without a result. *)
Example doCancel_sample :
  exists w3,
    doCancel running_stopTool sample_shifted = (Return tt, w3)
    /\ points (links w3 0) = [mkPoint 0 0; mkPoint 100 50]
    /\ tool w3 = mk "LinkShifting" true false None None None
    /\ calls w3 = [StartTransaction "LinkShifting"; StopTransaction].
Proof. eexists. vm_compute. repeat split. Qed.

(** A port 40 wide and 20 high at the origin, not rotated; the Link
    point on the line to a far point is taken to be that far point
    itself.  Dragging to (10, 20), left of and below the center, moves
    the from Spot to the bottom left corner. *)
Definition sample_point (_ : World) (_ : nat) (s : Spot) : Point :=
  mkPoint (40 * sx s) (20 * sy s).

Definition sample_linkPoint (_ : World) (_ _ : nat) (_ far : Point)
  (_ : bool) : Point := far.

Definition sample_Rect (p q : Point) : Rect :=
  mkRect (px p) (py p) (px q - px p) (py q - py p).

Example doReshape_sample :
  let w := snd (doActivate sample_find sample_world) in
  let w' :=
    snd (doReshape (fun _ _ => 0) sample_point sample_linkPoint
           (fun p _ => p) sample_Rect (mkPoint 10 20) w) in
  fromSpot (links w' 0) = mkSpot 0 1 0 0
  /\ toSpot (links w' 0) = toSpot sample_link
  /\ points (links w' 0) = points sample_link.
Proof. vm_compute. repeat split; reflexivity. Qed.

End LinkShiftingTool.
